(** * go-map-search: a shallow embedding of the search runtime

    The Go package [engine] is an in-memory text search engine over a
    corpus given as a map from identifiers to texts.  This file embeds
    the rune codec (runes.go), the scratch context (context.go), the
    byte helpers (unsafe.go), the search runtime (runtime_search.go) and
    the entry points (engine.go), and proves properties of them.

    Conventions of the embedding:
    - a Go [byte] is an [ascii] (eight bits); [byteVal] reads it as an
      integer and [toByte] is Go's truncating conversion [byte(x)];
    - a Go [string] is a [string]; a [[]byte] or a fixed array is a
      [list]; array cells are read with [!!!] and written with [<[i:=x]>];
    - a Go [int] is a [nat] where it is a length or an index, and a [Z]
      where the code may make it negative;
    - a [rune] is a [Z];
    - a [float32] is a [spec_float] with the binary32 parameters, every
      operation rounding to nearest even (no fused multiply-add);
    - the argument [data map[string]string] is the list of its entries in
      the order in which [range] enumerates them; the keys of a map are
      distinct, which theorems state as [NoDup] where they need it. *)

From Stdlib Require Import ZArith NArith QArith Ascii String List Lia Bool.
From Stdlib Require Import Floats.SpecFloat.
From stdpp Require Import base list gmap strings sorting.

Local Open Scope Z_scope.

(** ** Bytes *)

Definition byteVal (b : ascii) : Z := Z.of_N (N_of_ascii b).

Definition toByte (z : Z) : ascii := ascii_of_N (Z.to_N (z mod 256)).

(** ** runes.go *)

Module Runes.

(** [encodeRune(buf, r)] writes the encoding of [r] at the start of [buf]
    and returns the number of bytes written; ASCII capitals are folded
    to lower case. *)
Definition encodeRune (buf : list ascii) (r : Z) : list ascii * nat :=
  if r <? 0x80 then
    if (65 <=? r) && (r <=? 90) then (<[0%nat := toByte (r + 32)]> buf, 1%nat)
    else (<[0%nat := toByte r]> buf, 1%nat)
  else if r <? 0x800 then
    let buf := <[0%nat := toByte (Z.lor 0xC0 (Z.shiftr r 6))]> buf in
    let buf := <[1%nat := toByte (Z.lor 0x80 (Z.land r 0x3F))]> buf in
    (buf, 2%nat)
  else if r <? 0x10000 then
    let buf := <[0%nat := toByte (Z.lor 0xE0 (Z.shiftr r 12))]> buf in
    let buf := <[1%nat := toByte (Z.lor 0x80 (Z.land (Z.shiftr r 6) 0x3F))]> buf in
    let buf := <[2%nat := toByte (Z.lor 0x80 (Z.land r 0x3F))]> buf in
    (buf, 3%nat)
  else
    let buf := <[0%nat := toByte (Z.lor 0xF0 (Z.shiftr r 18))]> buf in
    let buf := <[1%nat := toByte (Z.lor 0x80 (Z.land (Z.shiftr r 12) 0x3F))]> buf in
    let buf := <[2%nat := toByte (Z.lor 0x80 (Z.land (Z.shiftr r 6) 0x3F))]> buf in
    let buf := <[3%nat := toByte (Z.lor 0x80 (Z.land r 0x3F))]> buf in
    (buf, 4%nat).

(** [decodeRune(s)]: the leading byte is classified by the thresholds
    0x80, 0xE0 and 0xF0 only. *)
Definition decodeRune (s : list ascii) : Z * nat :=
  match s with
  | [] => (0, 0%nat)
  | b0 :: s1 =>
    if byteVal b0 <? 0x80 then (byteVal b0, 1%nat)
    else
      match s1 with
      | [] => (0xFFFD, 1%nat)
      | b1 :: s2 =>
        if byteVal b0 <? 0xE0 then
          (Z.lor (Z.shiftl (Z.land (byteVal b0) 0x1F) 6)
                 (Z.land (byteVal b1) 0x3F), 2%nat)
        else
          match s2 with
          | [] => (0xFFFD, 1%nat)
          | b2 :: s3 =>
            if byteVal b0 <? 0xF0 then
              (Z.lor (Z.lor (Z.shiftl (Z.land (byteVal b0) 0x0F) 12)
                            (Z.shiftl (Z.land (byteVal b1) 0x3F) 6))
                     (Z.land (byteVal b2) 0x3F), 3%nat)
            else
              match s3 with
              | [] => (0xFFFD, 1%nat)
              | b3 :: _ =>
                (Z.lor (Z.lor (Z.lor (Z.shiftl (Z.land (byteVal b0) 0x07) 18)
                                     (Z.shiftl (Z.land (byteVal b1) 0x3F) 12))
                              (Z.shiftl (Z.land (byteVal b2) 0x3F) 6))
                       (Z.land (byteVal b3) 0x3F), 4%nat)
              end
          end
      end
  end.

(** The sequence length that [decodeRune] reads off a leading byte. *)
Definition impliedLen (b0 : ascii) : nat :=
  if byteVal b0 <? 0x80 then 1
  else if byteVal b0 <? 0xE0 then 2
  else if byteVal b0 <? 0xF0 then 3
  else 4.

(** The leading-byte patterns of UTF-8: [0xxxxxxx], [110xxxxx],
    [1110xxxx] and [11110xxx].  Continuation bytes (0x80..0xBF) and
    bytes from 0xF8 on match none of them. *)
Definition knownLeadingByte (b0 : ascii) : bool :=
  (byteVal b0 <? 0x80)
  || ((0xC0 <=? byteVal b0) && (byteVal b0 <? 0xE0))
  || ((0xE0 <=? byteVal b0) && (byteVal b0 <? 0xF0))
  || ((0xF0 <=? byteVal b0) && (byteVal b0 <? 0xF8)).

End Runes.

(** ** float32

    Scores are [float32] values.  They are modelled by the binary32
    instance of the Standard Library's specification of IEEE 754
    arithmetic (24 bits of precision, infinities at exponent 128). *)

Module Float32.

Definition float32 : Type := spec_float.

Definition prec : Z := 24.
Definition emax : Z := 128.

Definition zero : float32 := S754_zero false.

(** The conversion [float32(n)] of an integer. *)
Definition ofZ (n : Z) : float32 := binary_normalize prec emax n 0 false.

Definition add (x y : float32) : float32 := SFadd prec emax x y.
Definition mul (x y : float32) : float32 := SFmul prec emax x y.
Definition div (x y : float32) : float32 := SFdiv prec emax x y.

Definition ltb (x y : float32) : bool := SFltb x y.
Definition eqb (x y : float32) : bool := SFeqb x y.

Definition isNaN (x : float32) : bool :=
  match x with S754_nan => true | _ => false end.

(** The constants of the scorer: 2.0, 1.0, 0.5, 0.3 and 0.8, each the
    binary32 value nearest to the decimal. *)
Definition two : float32 := ofZ 2.
Definition one : float32 := ofZ 1.
Definition half : float32 := div (ofZ 1) (ofZ 2).
Definition c03 : float32 := div (ofZ 3) (ofZ 10).
Definition c08 : float32 := div (ofZ 8) (ofZ 10).

End Float32.

Abbreviation float32 := Float32.float32.

(** ** unsafe.go *)

Definition unsafeBytesToString (b : list ascii) : string := string_of_list_ascii b.

Definition unsafeStringToBytes (s : string) : list ascii := list_ascii_of_string s.

(** The Go slice expression [a[lo:hi]]. *)
Definition slice {A} (a : list A) (lo hi : nat) : list A := take (hi - lo) (drop lo a).

#[global] Instance ascii_inhabited : Inhabited ascii := populate zero.

(** The machine word read at [&a[off]]: eight bytes. *)
Definition loadWord (a : list ascii) (off : nat) : list ascii := slice a off (off + 8).

(** [memEqual(a, b, length)]: whole words first, then the remaining
    bytes one at a time. *)
Definition memEqual (a b : list ascii) (length : nat) : bool :=
  if (length =? 0)%nat then true
  else
    let wordSize := 8%nat in
    let wordsToCompare := (length / wordSize)%nat in
    forallb (fun i => bool_decide (loadWord a (i * wordSize) = loadWord b (i * wordSize)))
            (seq 0 wordsToCompare)
    &&
    let remaining := (length mod wordSize)%nat in
    let offset := (wordsToCompare * wordSize)%nat in
    forallb (fun i => Ascii.eqb (a !!! (offset + i)%nat) (b !!! (offset + i)%nat))
            (seq 0 remaining).

(** ** engine.go: tables and byte helpers *)

(** [wordBoundaryLUT]: the table is true at exactly these 22 bytes. *)
Definition wordBoundaryLUT (b : ascii) : bool :=
  existsb (Ascii.eqb b)
    [" "; "009"; "010"; "013"; "."; ","; ";"; ":"; "!"; "?"; "-"; "_"; "/";
     "\"; "("; ")"; "["; "]"; "{"; "}"; "034"; "'"]%char.

(** The index of a byte in a 256-entry table. *)
Definition byteIndex (b : ascii) : nat := Z.to_nat (byteVal b).

Definition containsAnyQueryBytes (doc query : list ascii) : bool :=
  if (length query =? 0)%nat then false
  else
    let queryBytes :=
      foldl (fun tbl b => <[byteIndex b := true]> tbl) (replicate 256 false) query in
    existsb (fun b => queryBytes !!! byteIndex b) doc.

(** ** runtime_search.go: normalisation and tokenisation *)

(** The loop of [normalizeText].  [text] is the unread suffix [text[i:]],
    so that [i < textLen] reads "[text] is not empty".  Every turn
    consumes at least one byte; [fuel] counts the turns left. *)
Fixpoint normalizeLoop (fuel : nat) (text : list ascii) (buffer : list ascii)
    (len : nat) (maxLen : Z) : list ascii * nat :=
  match fuel with
  | O => (buffer, len)
  | S fuel =>
    match text with
    | [] => (buffer, len)
    | r :: rest =>
      if Z.of_nat len <? maxLen then
        if byteVal r <? 128 then
          let b := if (65 <=? byteVal r) && (byteVal r <=? 90)
                   then toByte (byteVal r + 32) else r in
          normalizeLoop fuel rest (<[len := b]> buffer) (S len) maxLen
        else
          let '(rune, size) := Runes.decodeRune text in
          let '(buffer, len) :=
            if Z.of_nat len + 4 <=? maxLen then
              let '(tail, n) := Runes.encodeRune (drop len buffer) rune in
              (take len buffer ++ tail, (len + n)%nat)
            else (buffer, len) in
          normalizeLoop fuel (drop size text) buffer len maxLen
      else (buffer, len)
    end
  end.

(** [normalizeText(text, buffer, &length)]: returns the buffer as written
    and the length. *)
Definition normalizeText (text : string) (buffer : list ascii) : list ascii * nat :=
  let bytes := list_ascii_of_string text in
  normalizeLoop (length bytes) bytes buffer 0 (Z.of_nat (length buffer) - 4).

(** The loop of [splitWords]; [rest] is [normalizedText[i:]].  Returns
    [start], the two arrays and the count. *)
Fixpoint splitLoop (rest : list ascii) (i start : nat) (starts ends : list nat)
    (count maxWords : nat) : nat * list nat * list nat * nat :=
  match rest with
  | [] => (start, starts, ends, count)
  | b :: rest' =>
    if (count <? maxWords)%nat then
      if wordBoundaryLUT b then
        if (start <? i)%nat then
          splitLoop rest' (S i) (S i) (<[count := start]> starts) (<[count := i]> ends)
                    (S count) maxWords
        else splitLoop rest' (S i) (S i) starts ends count maxWords
      else splitLoop rest' (S i) start starts ends count maxWords
    else (start, starts, ends, count)
  end.

Definition splitWords (normalizedText : list ascii) (starts ends : list nat)
    : list nat * list nat * nat :=
  let maxWords := if (length ends <? length starts)%nat then length ends else length starts in
  let textLen := length normalizedText in
  let '(start, starts, ends, count) := splitLoop normalizedText 0 0 starts ends 0 maxWords in
  if (start <? textLen)%nat && (count <? maxWords)%nat then
    (<[count := start]> starts, <[count := textLen]> ends, S count)
  else (starts, ends, count).

(** ** context.go *)

(** One cell of the candidate arrays.  The Go code keeps three parallel
    arrays [candidateIDs], [candidateTexts] and [candidateScores] and
    always reads and writes them at one common index; the embedding
    keeps one array of triples. *)
Record Candidate := mkCandidate {
  candID : string;
  candText : string;
  candScore : float32;
}.

#[global] Instance Candidate_inhabited : Inhabited Candidate :=
  populate (mkCandidate "" "" Float32.zero).

Record Context := mkContext {
  queryNormalized : list ascii;   (* [2048]byte *)
  docNormalized : list ascii;     (* [8192]byte *)
  queryNormLen : nat;
  docNormLen : nat;
  queryWordStarts : list nat;     (* [128]int *)
  queryWordEnds : list nat;       (* [128]int *)
  queryWordCount : nat;
  docWordStarts : list nat;       (* [256]int *)
  docWordEnds : list nat;         (* [256]int *)
  docWordCount : nat;
  candidates : list Candidate;    (* [1024] ids, texts and scores *)
  candidateCount : nat;
  candidateSet : list string;     (* [1024]string *)
  candidateSetLen : nat;
}.

Definition capQuery : nat := Z.to_nat 2048.
Definition capDoc : nat := Z.to_nat 8192.
Definition capQueryWords : nat := Z.to_nat 128.
Definition capDocWords : nat := Z.to_nat 256.
Definition capCandidates : nat := Z.to_nat 1024.
Definition capIndexBuffer : nat := Z.to_nat 4096.

(** [&Context{}]: what the pool's [New] returns. *)
Definition newContext : Context :=
  mkContext (replicate capQuery zero) (replicate capDoc zero) 0 0
            (replicate capQueryWords 0%nat) (replicate capQueryWords 0%nat) 0
            (replicate capDocWords 0%nat) (replicate capDocWords 0%nat) 0
            (replicate capCandidates inhabitant) 0
            (replicate capCandidates ""%string) 0.

Definition reset (ctx : Context) : Context :=
  mkContext (queryNormalized ctx) (docNormalized ctx) 0 0
            (queryWordStarts ctx) (queryWordEnds ctx) 0
            (docWordStarts ctx) (docWordEnds ctx) 0
            (candidates ctx) 0 (candidateSet ctx) 0.

(** Assignments to groups of fields. *)
Definition setQuery (ctx : Context) (buf : list ascii) (n : nat) : Context :=
  mkContext buf (docNormalized ctx) n (docNormLen ctx)
            (queryWordStarts ctx) (queryWordEnds ctx) (queryWordCount ctx)
            (docWordStarts ctx) (docWordEnds ctx) (docWordCount ctx)
            (candidates ctx) (candidateCount ctx) (candidateSet ctx) (candidateSetLen ctx).

Definition setQueryWords (ctx : Context) (starts ends : list nat) (n : nat) : Context :=
  mkContext (queryNormalized ctx) (docNormalized ctx) (queryNormLen ctx) (docNormLen ctx)
            starts ends n
            (docWordStarts ctx) (docWordEnds ctx) (docWordCount ctx)
            (candidates ctx) (candidateCount ctx) (candidateSet ctx) (candidateSetLen ctx).

Definition setDoc (ctx : Context) (buf : list ascii) (n : nat) : Context :=
  mkContext (queryNormalized ctx) buf (queryNormLen ctx) n
            (queryWordStarts ctx) (queryWordEnds ctx) (queryWordCount ctx)
            (docWordStarts ctx) (docWordEnds ctx) (docWordCount ctx)
            (candidates ctx) (candidateCount ctx) (candidateSet ctx) (candidateSetLen ctx).

Definition setDocWords (ctx : Context) (starts ends : list nat) (n : nat) : Context :=
  mkContext (queryNormalized ctx) (docNormalized ctx) (queryNormLen ctx) (docNormLen ctx)
            (queryWordStarts ctx) (queryWordEnds ctx) (queryWordCount ctx)
            starts ends n
            (candidates ctx) (candidateCount ctx) (candidateSet ctx) (candidateSetLen ctx).

Definition setCandidates (ctx : Context) (cs : list Candidate) (n : nat) : Context :=
  mkContext (queryNormalized ctx) (docNormalized ctx) (queryNormLen ctx) (docNormLen ctx)
            (queryWordStarts ctx) (queryWordEnds ctx) (queryWordCount ctx)
            (docWordStarts ctx) (docWordEnds ctx) (docWordCount ctx)
            cs n (candidateSet ctx) (candidateSetLen ctx).

Definition setCandidateSet (ctx : Context) (set : list string) (n : nat) : Context :=
  mkContext (queryNormalized ctx) (docNormalized ctx) (queryNormLen ctx) (docNormLen ctx)
            (queryWordStarts ctx) (queryWordEnds ctx) (queryWordCount ctx)
            (docWordStarts ctx) (docWordEnds ctx) (docWordCount ctx)
            (candidates ctx) (candidateCount ctx) set n.

(** ** runtime_search.go: the scorer *)

(** The bounds of a loop [for i := 0; i <= hi; i += step] with
    [step >= 1]: the values [i] takes. *)
Fixpoint rangeStep (fuel i hi step : nat) : list nat :=
  match fuel with
  | O => []
  | S fuel => if (i <=? hi)%nat then i :: rangeStep fuel (i + step) hi step else []
  end.

Definition word24 (b0 b1 b2 : ascii) : Z :=
  Z.lor (Z.lor (Z.shiftl (byteVal b0) 16) (Z.shiftl (byteVal b1) 8)) (byteVal b2).

Definition containsTrigram (text trigram : list ascii) : bool :=
  if (length text <? 3)%nat || negb (length trigram =? 3)%nat then false
  else
    let trigramWord := word24 (trigram !!! 0%nat) (trigram !!! 1%nat) (trigram !!! 2%nat) in
    existsb (fun i => word24 (text !!! i) (text !!! (i + 1)%nat) (text !!! (i + 2)%nat)
                      =? trigramWord)
            (seq 0 (length text - 3 + 1)).

Definition containsSubsequence (haystack needle : list ascii) : bool :=
  if (length needle =? 0)%nat then true
  else if (length haystack <? length needle)%nat then false
  else
    let quick :=
      if (1 <? length needle)%nat then
        let firstByte := needle !!! 0%nat in
        let lastByte := needle !!! (length needle - 1)%nat in
        match find (fun i => Ascii.eqb (haystack !!! i) firstByte)
                   (seq 0 (length haystack - length needle + 1)) with
        | None => false
        | Some firstPos =>
          let from := (firstPos + length needle - 1)%nat in
          existsb (fun i => Ascii.eqb (haystack !!! i) lastByte)
                  (seq from (length haystack - from))
        end
      else true in
    if negb quick then false
    else
      existsb (fun i => memEqual (drop i haystack) needle (length needle))
              (seq 0 (length haystack - length needle + 1)).

(** The inner loop of the word matching of [scoreDocument], over the
    document words [js]; returns the best score and whether the loop
    left through the exact match. *)
Fixpoint matchDocWords (ctx : Context) (queryStart queryEnd : nat) (js : list nat)
    (best : float32) : float32 * bool :=
  match js with
  | [] => (best, false)
  | j :: js =>
    let queryLen := (queryEnd - queryStart)%nat in
    let queryFirstByte := queryNormalized ctx !!! queryStart in
    let docStart := docWordStarts ctx !!! j in
    let docEnd := docWordEnds ctx !!! j in
    let docLen := (docEnd - docStart)%nat in
    if negb (Ascii.eqb (docNormalized ctx !!! docStart) queryFirstByte)
       && negb (docLen =? queryLen)%nat
    then matchDocWords ctx queryStart queryEnd js best
    else if (queryLen =? docLen)%nat then
      if memEqual (slice (queryNormalized ctx) queryStart queryEnd)
                  (slice (docNormalized ctx) docStart docEnd) queryLen
      then (Float32.two, true)
      else matchDocWords ctx queryStart queryEnd js best
    else
      let prefixScore :=
        if (queryLen <? docLen)%nat then
          if memEqual (slice (queryNormalized ctx) queryStart queryEnd)
                      (slice (docNormalized ctx) docStart (docStart + queryLen)) queryLen
          then Float32.one else Float32.zero
        else if (docLen <? queryLen)%nat then
          if memEqual (slice (queryNormalized ctx) queryStart (queryStart + docLen))
                      (slice (docNormalized ctx) docStart docEnd) docLen
          then Float32.one else Float32.zero
        else Float32.zero in
      matchDocWords ctx queryStart queryEnd js
                    (if Float32.ltb best prefixScore then prefixScore else best)
  end.

(** The outer loop, over the query words [qs]; carries [totalScore] and
    [exactMatches]. *)
Fixpoint matchQueryWords (ctx : Context) (qs : list nat) (totalScore : float32)
    (exactMatches : nat) : float32 * nat :=
  match qs with
  | [] => (totalScore, exactMatches)
  | i :: qs =>
    let queryStart := queryWordStarts ctx !!! i in
    let queryEnd := queryWordEnds ctx !!! i in
    let '(best, exact) :=
      matchDocWords ctx queryStart queryEnd (seq 0 (docWordCount ctx)) Float32.zero in
    matchQueryWords ctx qs (Float32.add totalScore best)
                    (if exact then S exactMatches else exactMatches)
  end.

Definition scoreSubstring (ctx : Context) : float32 :=
  if (queryNormLen ctx <? 3)%nat then Float32.zero
  else
    let queryLen := queryNormLen ctx in
    let stride := Nat.max 1 (queryLen / 10) in
    let matches :=
      length (filter (fun i => containsTrigram (take (docNormLen ctx) (docNormalized ctx))
                                               (slice (queryNormalized ctx) i (i + 3)) = true)
                     (rangeStep (S queryLen) 0 (queryLen - 3) stride)) in
    if (matches =? 0)%nat then Float32.zero
    else
      let maxPossibleMatches := ((queryLen - 2) / stride + 1)%nat in
      Float32.mul (Float32.div (Float32.ofZ (Z.of_nat matches))
                               (Float32.ofZ (Z.of_nat maxPossibleMatches)))
                  Float32.c03.

(** The test [math.Abs(float64(docLen-queryLen)) >
    math.Min(float64(docLen), float64(queryLen))/2]: on these integers
    the float64 operations are exact, so it is the integer test
    [2 * |docLen - queryLen| > min docLen queryLen]. *)
Definition lengthsTooFar (docLen queryLen : nat) : bool :=
  Z.min (Z.of_nat docLen) (Z.of_nat queryLen)
  <? 2 * Z.abs (Z.of_nat docLen - Z.of_nat queryLen).

Definition scoreReversedWords (ctx : Context) : float32 :=
  if (queryWordCount ctx <? 2)%nat then Float32.zero
  else
    let matchCount :=
      length (filter (fun i =>
        let queryStart := queryWordStarts ctx !!! i in
        let queryEnd := queryWordEnds ctx !!! i in
        let queryLen := (queryEnd - queryStart)%nat in
        (if (queryLen <? 3)%nat then false
         else
           existsb (fun j =>
             let docStart := docWordStarts ctx !!! j in
             let docEnd := docWordEnds ctx !!! j in
             let docLen := (docEnd - docStart)%nat in
             if lengthsTooFar docLen queryLen then false
             else
               containsSubsequence (slice (docNormalized ctx) docStart docEnd)
                                   (slice (queryNormalized ctx) queryStart queryEnd)
               || containsSubsequence (slice (queryNormalized ctx) queryStart queryEnd)
                                      (slice (docNormalized ctx) docStart docEnd))
             (seq 0 (docWordCount ctx))) = true)
        (seq 0 (queryWordCount ctx))) in
    if (2 <=? matchCount)%nat then
      Float32.mul (Float32.div (Float32.ofZ (Z.of_nat matchCount))
                               (Float32.ofZ (Z.of_nat (queryWordCount ctx))))
                  Float32.c08
    else Float32.zero.

(** [scoreDocument(text, ctx)]: the score, and the context with the
    document buffers as the call leaves them. *)
Definition scoreDocument (text : string) (ctx : Context) : float32 * Context :=
  if (String.length text =? 0)%nat || (queryWordCount ctx =? 0)%nat then (Float32.zero, ctx)
  else
    let '(buf, n) := normalizeText text (docNormalized ctx) in
    let ctx := setDoc ctx buf n in
    if negb (containsAnyQueryBytes (take (docNormLen ctx) (docNormalized ctx))
                                   (take (queryNormLen ctx) (queryNormalized ctx)))
    then (Float32.zero, ctx)
    else
      let '(starts, ends, count) :=
        splitWords (take (docNormLen ctx) (docNormalized ctx))
                   (docWordStarts ctx) (docWordEnds ctx) in
      let ctx := setDocWords ctx starts ends count in
      let '(totalScore, exactMatches) :=
        matchQueryWords ctx (seq 0 (queryWordCount ctx)) Float32.zero 0 in
      let bonus := Float32.mul (Float32.ofZ (Z.of_nat exactMatches - 1)) Float32.half in
      if (exactMatches =? queryWordCount ctx)%nat then (Float32.add totalScore bonus, ctx)
      else
        let totalScore :=
          if (1 <? exactMatches)%nat then Float32.add totalScore bonus else totalScore in
        let totalScore :=
          if (3 <=? queryNormLen ctx)%nat && (exactMatches =? 0)%nat
             && Float32.eqb totalScore Float32.zero
          then Float32.add totalScore (scoreSubstring ctx) else totalScore in
        let totalScore :=
          if (2 <=? queryWordCount ctx)%nat && (exactMatches <? queryWordCount ctx)%nat
             && Float32.ltb totalScore (Float32.ofZ (Z.of_nat (queryWordCount ctx)))
          then Float32.add totalScore (scoreReversedWords ctx) else totalScore in
        (totalScore, ctx).

(** ** engine.go: the engine state *)

Record SearchResult := mkSearchResult {
  ID : string;
  Text : string;
  Score : float32;
}.

#[global] Instance SearchResult_inhabited : Inhabited SearchResult :=
  populate (mkSearchResult "" "" Float32.zero).

(** [RuntimeSearch] without its lock: one search runs at a time in this
    embedding.  [cachedData] is [None] for the nil map. *)
Record RuntimeSearch := mkRuntimeSearch {
  cachedData : option (gmap string string);
  cachedWordMap : gmap string (list string);
  cachedTrigrams : gmap string (list string);
  indexBuffer : list ascii;       (* [4096]byte *)
  indexBufferLen : nat;
}.

Definition NewRuntimeSearch : RuntimeSearch :=
  mkRuntimeSearch None ∅ ∅ (replicate capIndexBuffer zero) 0.

(** ** runtime_search.go: candidate discovery *)

Definition hasLongWords (ctx : Context) : bool :=
  existsb (fun i => (10 <? queryWordEnds ctx !!! i - queryWordStarts ctx !!! i)%nat)
          (seq 0 (queryWordCount ctx)).

(** The cell [candidateCount] of the three arrays is assigned and the
    count incremented. *)
Definition pushCandidate (ctx : Context) (id text : string) (score : float32) : Context :=
  setCandidates ctx (<[candidateCount ctx := mkCandidate id text score]> (candidates ctx))
                (S (candidateCount ctx)).

Fixpoint searchDirectLoop (data : list (string * string)) (long : bool) (ctx : Context)
    : Context :=
  match data with
  | [] => ctx
  | (id, text) :: data =>
    if (length (candidates ctx) <=? candidateCount ctx)%nat then ctx
    else if long && (String.length text <? queryNormLen ctx / 2)%nat
    then searchDirectLoop data long ctx
    else
      let '(score, ctx) := scoreDocument text ctx in
      if Float32.ltb Float32.zero score
      then searchDirectLoop data long (pushCandidate ctx id text score)
      else searchDirectLoop data long ctx
  end.

Definition searchDirect (data : list (string * string)) (ctx : Context) : Context :=
  searchDirectLoop data (hasLongWords ctx) ctx.

(** The binary search inlined in [addToCandidateSet]; the interval
    halves at every turn, [fuel] counts the turns left. *)
Fixpoint lowerBound (fuel : nat) (set : list string) (docID : string) (left right : nat)
    : nat :=
  match fuel with
  | O => left
  | S fuel =>
    if (left <? right)%nat then
      let mid := ((left + right) / 2)%nat in
      if String.ltb (set !!! mid) docID
      then lowerBound fuel set docID (mid + 1) right
      else lowerBound fuel set docID left mid
    else left
  end.

(** The builtin [copy(dst[off:off+len(src)], src)]. *)
Definition copyInto {A} (dst : list A) (off : nat) (src : list A) : list A :=
  take (length dst) (take off dst ++ src ++ drop (off + length src) dst).

Fixpoint addToCandidateSet (docIDs : list string) (ctx : Context) : Context :=
  match docIDs with
  | [] => ctx
  | docID :: docIDs =>
    let set := candidateSet ctx in
    let n := candidateSetLen ctx in
    if (length set <=? n)%nat then ctx
    else
      let left := lowerBound n set docID 0 n in
      if (left <? n)%nat && String.eqb (set !!! left) docID
      then addToCandidateSet docIDs ctx
      else if (n <? length set)%nat then
        let set := copyInto set (left + 1) (slice set left n) in
        let set := <[left := docID]> set in
        addToCandidateSet docIDs (setCandidateSet ctx set (S n))
      else addToCandidateSet docIDs ctx
  end.

Definition queryWord (ctx : Context) (i : nat) : string :=
  unsafeBytesToString
    (slice (queryNormalized ctx) (queryWordStarts ctx !!! i) (queryWordEnds ctx !!! i)).

(** The largest [int]. *)
Definition maxInt : Z := 9223372036854775807.

(** The first loop of [findCandidates]: the query word with the
    shortest posting list. *)
Fixpoint findRarest (rs : RuntimeSearch) (ctx : Context) (qs : list nat)
    (rarest : string) (minCount : Z) : string :=
  match qs with
  | [] => rarest
  | i :: qs =>
    match cachedWordMap rs !! queryWord ctx i with
    | Some docIDs =>
      if Z.of_nat (length docIDs) <? minCount
      then findRarest rs ctx qs (queryWord ctx i) (Z.of_nat (length docIDs))
      else findRarest rs ctx qs rarest minCount
    | None => findRarest rs ctx qs rarest minCount
    end
  end.

(** The prefix scan over the word index for one query word. *)
Fixpoint prefixScan (words : list (string * list string)) (start end_ : nat) (ctx : Context)
    : Context :=
  match words with
  | [] => ctx
  | (word, docIDs) :: words =>
    let prefixLen := (end_ - start)%nat in
    let wordLen := String.length word in
    let ctx :=
      if (prefixLen <? wordLen)%nat && (wordLen - prefixLen <=? 10)%nat then
        if memEqual (unsafeStringToBytes word) (slice (queryNormalized ctx) start end_) prefixLen
        then addToCandidateSet docIDs ctx else ctx
      else if (wordLen <? prefixLen)%nat && (prefixLen - wordLen <=? 10)%nat then
        if memEqual (slice (queryNormalized ctx) start (start + wordLen))
                    (unsafeStringToBytes word) wordLen
        then addToCandidateSet docIDs ctx else ctx
      else ctx in
    prefixScan words start end_ ctx
  end.

(** The second loop of [findCandidates].  [range rs.cachedWordMap] is
    taken in the order of [map_to_list]. *)
Fixpoint addWordMatches (rs : RuntimeSearch) (rarest : string) (qs : list nat) (ctx : Context)
    : Context :=
  match qs with
  | [] => ctx
  | i :: qs =>
    if String.eqb (queryWord ctx i) rarest then addWordMatches rs rarest qs ctx
    else
      let ctx :=
        match cachedWordMap rs !! queryWord ctx i with
        | Some docIDs => addToCandidateSet docIDs ctx
        | None => ctx
        end in
      let ctx := prefixScan (map_to_list (cachedWordMap rs))
                            (queryWordStarts ctx !!! i) (queryWordEnds ctx !!! i) ctx in
      addWordMatches rs rarest qs ctx
  end.

(** The trigram fallback, over the offsets [offs] = 0, 2, 4, ... *)
Fixpoint trigramFallback (rs : RuntimeSearch) (offs : list nat) (ctx : Context) : Context :=
  match offs with
  | [] => ctx
  | i :: offs =>
    let trigram := unsafeBytesToString (slice (queryNormalized ctx) i (i + 3)) in
    match cachedTrigrams rs !! trigram with
    | Some docIDs =>
      let ctx := addToCandidateSet docIDs ctx in
      if (100 <? candidateSetLen ctx)%nat then ctx else trigramFallback rs offs ctx
    | None => trigramFallback rs offs ctx
    end
  end.

Definition findCandidates (rs : RuntimeSearch) (ctx : Context) : Context :=
  let ctx := setCandidateSet ctx (candidateSet ctx) 0 in
  let rarest := findRarest rs ctx (seq 0 (queryWordCount ctx)) "" maxInt in
  let ctx :=
    if negb (String.eqb rarest "") then
      match cachedWordMap rs !! rarest with
      | Some docIDs => addToCandidateSet docIDs ctx
      | None => ctx
      end
    else ctx in
  let ctx := addWordMatches rs rarest (seq 0 (queryWordCount ctx)) ctx in
  if (candidateSetLen ctx =? 0)%nat && (3 <=? queryNormLen ctx)%nat
     && (queryNormLen ctx <=? 100)%nat
  then trigramFallback rs (rangeStep (S (queryNormLen ctx)) 0 (queryNormLen ctx - 3) 2) ctx
  else ctx.

(** The loop of [scoreCandidates], over the indices [idxs] of the
    candidate set. *)
Fixpoint scoreCandidatesLoop (rs : RuntimeSearch) (idxs : list nat) (ctx : Context) : Context :=
  match idxs with
  | [] => ctx
  | i :: idxs =>
    if (candidateCount ctx <? length (candidates ctx))%nat then
      let docID := candidateSet ctx !!! i in
      match cachedData rs ≫= (.!! docID) with
      | Some text =>
        let '(score, ctx) := scoreDocument text ctx in
        if Float32.ltb Float32.zero score
        then scoreCandidatesLoop rs idxs (pushCandidate ctx docID text score)
        else scoreCandidatesLoop rs idxs ctx
      | None => scoreCandidatesLoop rs idxs ctx
      end
    else ctx
  end.

Definition scoreCandidates (rs : RuntimeSearch) (ctx : Context) : Context :=
  let ctx := setCandidates ctx (candidates ctx) 0 in
  scoreCandidatesLoop rs (seq 0 (candidateSetLen ctx)) ctx.

(** ** runtime_search.go: the index *)

(** [m[key] = append(m[key], docID)], or a new one-element list. *)
Definition appendPosting (m : gmap string (list string)) (key docID : string)
    : gmap string (list string) :=
  match m !! key with
  | Some existingIDs => <[key := existingIDs ++ [docID]]> m
  | None => <[key := [docID]]> m
  end.

(** The word loop of [buildIndex] for one document. *)
Fixpoint indexWords (buf : list ascii) (bufLen : nat) (wordStarts wordEnds : list nat)
    (idxs : list nat) (docID : string) (m : gmap string (list string))
    : gmap string (list string) :=
  match idxs with
  | [] => m
  | i :: idxs =>
    let start := wordStarts !!! i in
    let end_ := wordEnds !!! i in
    let m :=
      if (start <? end_)%nat && (end_ <=? bufLen)%nat
      then appendPosting m (string_of_list_ascii (slice buf start end_)) docID
      else m in
    indexWords buf bufLen wordStarts wordEnds idxs docID m
  end.

(** The trigram loop of [buildIndex] for one document. *)
Fixpoint indexTrigrams (buf : list ascii) (offs : list nat) (docID : string)
    (m : gmap string (list string)) : gmap string (list string) :=
  match offs with
  | [] => m
  | i :: offs =>
    indexTrigrams buf offs docID
                  (appendPosting m (string_of_list_ascii (slice buf i (i + 3))) docID)
  end.

(** The body of the document loop of [buildIndex]. *)
Definition indexDocument (rs : RuntimeSearch) (docID text : string) : RuntimeSearch :=
  let data := <[docID := text]> (default ∅ (cachedData rs)) in
  let '(buf, n) := normalizeText text (indexBuffer rs) in
  let '(wordStarts, wordEnds, wordCount) :=
    splitWords (take n buf) (replicate (Z.to_nat 256) 0%nat) (replicate (Z.to_nat 256) 0%nat) in
  let words := indexWords buf n wordStarts wordEnds (seq 0 wordCount) docID (cachedWordMap rs) in
  let trigrams :=
    if (3 <=? n)%nat then
      let stride := Nat.max 1 (n / 100) in
      indexTrigrams buf (rangeStep (S n) 0 (n - 3) stride) docID (cachedTrigrams rs)
    else cachedTrigrams rs in
  mkRuntimeSearch (Some data) words trigrams buf n.

Fixpoint buildIndexLoop (data : list (string * string)) (rs : RuntimeSearch) : RuntimeSearch :=
  match data with
  | [] => rs
  | (docID, text) :: data =>
    buildIndexLoop data (indexDocument rs docID text)
  end.

(** [buildIndex(data)]: the three maps are emptied, then filled. *)
Definition buildIndex (rs : RuntimeSearch) (data : list (string * string)) : RuntimeSearch :=
  buildIndexLoop data
    (mkRuntimeSearch (Some ∅) ∅ ∅ (indexBuffer rs) (indexBufferLen rs)).

(** The sampling loop of [searchWithCache]: true when a sampled entry is
    missing from the cache or differs. *)
Fixpoint sampleStale (data : list (string * string)) (cached : gmap string string)
    (checkCount : Z) (maxCheck : Z) : bool :=
  match data with
  | [] => false
  | (id, text) :: data =>
    match cached !! id with
    | Some cachedText =>
      if negb (String.eqb cachedText text) then true
      else
        let checkCount := checkCount + 1 in
        if maxCheck <=? checkCount then false
        else sampleStale data cached checkCount maxCheck
    | None => true
    end
  end.

Definition needsRebuild (rs : RuntimeSearch) (data : list (string * string)) : bool :=
  match cachedData rs with
  | None => true
  | Some cached =>
    if negb (size cached =? length data)%nat then true
    else sampleStale data cached 0 (Z.min (Z.of_nat (length data) / 10) 5)
  end.

Definition searchWithCache (rs : RuntimeSearch) (data : list (string * string))
    (ctx : Context) : RuntimeSearch * Context :=
  let rs := if needsRebuild rs data then buildIndex rs data else rs in
  let ctx := findCandidates rs ctx in
  let ctx := scoreCandidates rs ctx in
  (rs, ctx).

(** ** runtime_search.go: ranking *)

(** The test of the two shifting loops:
    [scores[j] < score || (scores[j] == score && ids[j] > id)] where
    [x] is the cell [j] and [saved] carries [score] and [id]. *)
Definition outOfOrder (x saved : Candidate) : bool :=
  Float32.ltb (candScore x) (candScore saved)
  || (Float32.eqb (candScore x) (candScore saved)
      && String.ltb (candID saved) (candID x)).

(** engine.go: [compareScoreAndID]. *)
Definition compareScoreAndID (score1 : float32) (id1 : string) (score2 : float32)
    (id2 : string) : Z :=
  if Float32.ltb score2 score1 then 1
  else if Float32.ltb score1 score2 then -1
  else if String.ltb id1 id2 then 1
  else if String.ltb id2 id1 then -1
  else 0.

(** The inner loop of [insertionSort].  [k] is [j + 1]: in the second
    branch [j] is the Go variable, and [k = 0] is [j = -1], where the
    loop leaves because [j >= left] fails. *)
Fixpoint shiftDown (a : list Candidate) (left k : nat) (saved : Candidate)
    : list Candidate :=
  match k with
  | O => <[0%nat := saved]> a
  | S j =>
    if (left <=? j)%nat && outOfOrder (a !!! j) saved
    then shiftDown (<[S j := a !!! j]> a) left j saved
    else <[S j := saved]> a
  end.

(** [insertionSort(ctx, left, right)] on the candidate array. *)
Definition insertionSort (a : list Candidate) (left right : nat) : list Candidate :=
  foldl (fun a i => shiftDown a left i (a !!! i)) a (seq (left + 1) (right - left)).

(** The inner loop of [shellSort]; [j] falls by [gap] at every turn. *)
Fixpoint gapShift (fuel : nat) (a : list Candidate) (gap j : nat) (saved : Candidate)
    : list Candidate :=
  match fuel with
  | O => <[j := saved]> a
  | S fuel =>
    if (gap <=? j)%nat && outOfOrder (a !!! (j - gap)%nat) saved
    then gapShift fuel (<[j := a !!! (j - gap)%nat]> a) gap (j - gap) saved
    else <[j := saved]> a
  end.

Definition gapPass (n : nat) (a : list Candidate) (gap : nat) : list Candidate :=
  foldl (fun a i => gapShift i a gap i (a !!! i)) a (seq gap (n - gap)).

Definition shellSort (a : list Candidate) (n : nat) : list Candidate :=
  foldl (gapPass n) a [5; 3; 1]%nat.

Definition swapCandidates (a : list Candidate) (i j : nat) : list Candidate :=
  <[j := a !!! i]> (<[i := a !!! j]> a).

(** The loop of [partition3Way]; [gt - i] falls at every turn. *)
Fixpoint partitionLoop (fuel : nat) (a : list Candidate) (pivot : Candidate)
    (lt i gt : nat) : list Candidate * nat * nat :=
  match fuel with
  | O => (a, lt, gt)
  | S fuel =>
    if (i <? gt)%nat then
      let cmp := compareScoreAndID (candScore (a !!! i)) (candID (a !!! i))
                                   (candScore pivot) (candID pivot) in
      if 0 <? cmp then partitionLoop fuel (swapCandidates a lt i) pivot (lt + 1) (i + 1) gt
      else if cmp <? 0 then partitionLoop fuel (swapCandidates a i (gt - 1)) pivot lt i (gt - 1)
      else partitionLoop fuel a pivot lt (i + 1) gt
    else (a, lt, gt)
  end.

(** [partition3Way(ctx, low, high)] returns [lt] and [gt - 1]. *)
Definition partition3Way (a : list Candidate) (low high : nat) : list Candidate * nat * nat :=
  let '(a, lt, gt) := partitionLoop (high - low) a (a !!! low) low (low + 1) (high + 1) in
  (a, lt, (gt - 1)%nat).

(** [quickSort(ctx, low, high)].  [low] and [high] are integers: the
    call [quickSort(ctx, low, lt-1)] passes -1 when [lt] is 0.  A turn
    of the loop after the recursive call is the second call here; the
    range shrinks at every call, [fuel] bounds the depth. *)
Fixpoint quickSort (fuel : nat) (a : list Candidate) (low high : Z) : list Candidate :=
  match fuel with
  | O => a
  | S fuel =>
    if low <? high then
      if high - low <? 10 then insertionSort a (Z.to_nat low) (Z.to_nat high)
      else
        let '(a, lt, gt) := partition3Way a (Z.to_nat low) (Z.to_nat high) in
        let lt := Z.of_nat lt in
        let gt := Z.of_nat gt in
        if lt - low <? high - gt then
          let a := quickSort fuel a low (lt - 1) in
          quickSort fuel a (gt + 1) high
        else
          let a := quickSort fuel a (gt + 1) high in
          quickSort fuel a low (lt - 1)
    else a
  end.

Definition sortCandidates (ctx : Context) : Context :=
  let n := candidateCount ctx in
  if (n <=? 1)%nat then ctx
  else if (n <=? 10)%nat then
    setCandidates ctx (insertionSort (candidates ctx) 0 (n - 1)) n
  else if (n <=? 50)%nat then
    setCandidates ctx (shellSort (candidates ctx) n) n
  else
    setCandidates ctx (quickSort n (candidates ctx) 0 (Z.of_nat n - 1)) n.

(** ** runtime_search.go: results *)

Definition toResult (c : Candidate) : SearchResult :=
  mkSearchResult (candID c) (candText c) (candScore c).

(** [convertToResultsOneAlloc].  [None] is the run-time panic of
    [make] on a negative length. *)
Definition convertToResultsOneAlloc (ctx : Context) (maxResults : Z)
    : option (list SearchResult) :=
  let limit := Z.min (Z.of_nat (candidateCount ctx)) maxResults in
  if limit =? 0 then Some []
  else if limit <? 0 then None
  else Some (map (fun i => toResult (candidates ctx !!! i)) (seq 0 (Z.to_nat limit))).

(** A store into [resultBuffer[i]], bounds-checked against the length
    of the slice. *)
Definition storeResult (resultBuffer : list SearchResult) (i : nat) (r : SearchResult)
    : option (list SearchResult) :=
  if (i <? length resultBuffer)%nat then Some (<[i := r]> resultBuffer) else None.

Fixpoint copyResults (ctx : Context) (idxs : list nat) (resultBuffer : list SearchResult)
    : option (list SearchResult) :=
  match idxs with
  | [] => Some resultBuffer
  | i :: idxs =>
    match storeResult resultBuffer i (toResult (candidates ctx !!! i)) with
    | Some resultBuffer => copyResults ctx idxs resultBuffer
    | None => None
    end
  end.

(** [convertToResultsZeroAlloc].  The caller's memory is [backing]; the
    argument [resultBuffer] is its slice [backing[:K]], whose length is
    [K].  Returns the slice handed back (the view [resultBuffer[:limit]])
    and the caller's memory after the call, or [None] for a run-time
    panic (an index out of the slice's range, or a negative slice
    bound). *)
Definition convertToResultsZeroAlloc (ctx : Context) (maxResults : Z)
    (backing : list SearchResult) (K : nat)
    : option (list SearchResult * list SearchResult) :=
  let resultBuffer := take K backing in
  let limit := Z.min (Z.of_nat (candidateCount ctx)) maxResults in
  let limit := if Z.of_nat (length resultBuffer) <? limit
               then Z.of_nat (length resultBuffer) else limit in
  if limit =? 0 then Some ([], backing)
  else
    match copyResults ctx (seq 0 (Z.to_nat limit)) resultBuffer with
    | Some resultBuffer =>
      if limit <? 0 then None
      else Some (take (Z.to_nat limit) resultBuffer,
                 resultBuffer ++ drop K backing)
    | None => None
    end.

(** The head shared by [performSearchOneAlloc] and
    [performSearchZeroAlloc]: the query is normalised and split, the
    candidates found and sorted.  [ctx] is the context taken from the
    pool. *)
Definition prepareQuery (query : string) (ctx : Context) : Context :=
  let '(buf, n) := normalizeText query (queryNormalized ctx) in
  let ctx := setQuery ctx buf n in
  let '(starts, ends, count) :=
    splitWords (take (queryNormLen ctx) (queryNormalized ctx))
               (queryWordStarts ctx) (queryWordEnds ctx) in
  setQueryWords ctx starts ends count.

Definition rankedSearch (rs : RuntimeSearch) (ctx : Context) (data : list (string * string))
    (query : string) (useCache : bool) : RuntimeSearch * Context :=
  let ctx := prepareQuery query ctx in
  let '(rs, ctx) :=
    if useCache then searchWithCache rs data ctx else (rs, searchDirect data ctx) in
  (rs, sortCandidates ctx).

Definition performSearchOneAlloc (rs : RuntimeSearch) (ctx : Context)
    (data : list (string * string)) (query : string) (maxResults : Z) (useCache : bool)
    : RuntimeSearch * option (list SearchResult) :=
  let '(rs, ctx) := rankedSearch rs ctx data query useCache in
  (rs, convertToResultsOneAlloc ctx maxResults).

Definition performSearchZeroAlloc (rs : RuntimeSearch) (ctx : Context)
    (data : list (string * string)) (query : string) (maxResults : Z) (useCache : bool)
    (backing : list SearchResult) (K : nat)
    : RuntimeSearch * option (list SearchResult * list SearchResult) :=
  let '(rs, ctx) := rankedSearch rs ctx data query useCache in
  (rs, convertToResultsZeroAlloc ctx maxResults backing K).

(** ** engine.go: the entry points

    [rs] is the engine's [RuntimeSearch] (for the two [QuickSearch]
    functions, the one taken from [runtimeSearchPool]) and [ctx] the
    context taken from [contextPool]. *)

Definition cacheThreshold : nat := Z.to_nat 1000.

Definition Search (rs : RuntimeSearch) (ctx : Context) (data : list (string * string))
    (query : string) (maxResults : Z) : RuntimeSearch * option (list SearchResult) :=
  if (maxResults <=? 0) || (length data =? 0)%nat || (String.length query =? 0)%nat
  then (rs, Some [])
  else if (length data <=? cacheThreshold)%nat
  then performSearchOneAlloc rs ctx data query maxResults false
  else performSearchOneAlloc rs ctx data query maxResults true.

Definition SearchInto (rs : RuntimeSearch) (ctx : Context) (data : list (string * string))
    (query : string) (backing : list SearchResult) (K : nat)
    : RuntimeSearch * option (list SearchResult * list SearchResult) :=
  let resultBuffer := take K backing in
  if (length resultBuffer =? 0)%nat || (length data =? 0)%nat
     || (String.length query =? 0)%nat
  then (rs, Some ([], backing))
  else
    let maxResults := Z.of_nat (length resultBuffer) in
    if (length data <=? cacheThreshold)%nat
    then performSearchZeroAlloc rs ctx data query maxResults false backing K
    else performSearchZeroAlloc rs ctx data query maxResults true backing K.

Definition QuickSearch (rs : RuntimeSearch) (ctx : Context) (data : list (string * string))
    (query : string) (maxResults : Z) : RuntimeSearch * option (list SearchResult) :=
  if (maxResults <=? 0) || (length data =? 0)%nat || (String.length query =? 0)%nat
  then (rs, Some [])
  else performSearchOneAlloc rs ctx data query maxResults false.

Definition QuickSearchInto (rs : RuntimeSearch) (ctx : Context)
    (data : list (string * string)) (query : string) (backing : list SearchResult) (K : nat)
    : RuntimeSearch * option (list SearchResult * list SearchResult) :=
  let resultBuffer := take K backing in
  if (length resultBuffer =? 0)%nat || (length data =? 0)%nat
     || (String.length query =? 0)%nat
  then (rs, Some ([], backing))
  else
    let maxResults := Z.of_nat (length resultBuffer) in
    performSearchZeroAlloc rs ctx data query maxResults false backing K.


(** * Part II: the vocabulary of the specifications

    Pure views of the buffer-writing loops, the ranking order of the
    candidates, and the predicates the theorems are stated with. *)

(** ** Views of normalizeText

    [writeAt buffer len out] is [buffer] with [out] stored from index
    [len] on. *)
Definition writeAt {A} (buffer : list A) (len : nat) (out : list A) : list A :=
  take len buffer ++ out ++ drop (len + length out) buffer.

(** The ASCII branch of [normalizeText]: capitals are folded. *)
Definition lower (r : ascii) : ascii :=
  if (65 <=? byteVal r) && (byteVal r <=? 90) then toByte (byteVal r + 32) else r.

(** The bytes [encodeRune] writes for the rune [r]. *)
Definition runeBytes (r : Z) : list ascii :=
  if r <? 0x80 then
    if (65 <=? r) && (r <=? 90) then [toByte (r + 32)] else [toByte r]
  else if r <? 0x800 then
    [toByte (Z.lor 0xC0 (Z.shiftr r 6)); toByte (Z.lor 0x80 (Z.land r 0x3F))]
  else if r <? 0x10000 then
    [toByte (Z.lor 0xE0 (Z.shiftr r 12));
     toByte (Z.lor 0x80 (Z.land (Z.shiftr r 6) 0x3F));
     toByte (Z.lor 0x80 (Z.land r 0x3F))]
  else
    [toByte (Z.lor 0xF0 (Z.shiftr r 18));
     toByte (Z.lor 0x80 (Z.land (Z.shiftr r 12) 0x3F));
     toByte (Z.lor 0x80 (Z.land (Z.shiftr r 6) 0x3F));
     toByte (Z.lor 0x80 (Z.land r 0x3F))].

(** The bytes the loop of [normalizeText] appends, from buffer length
    [len] on: the loop itself without the buffer. *)
Fixpoint normBytes (fuel : nat) (text : list ascii) (len : nat) (maxLen : Z) : list ascii :=
  match fuel with
  | O => []
  | S fuel =>
    match text with
    | [] => []
    | r :: rest =>
      if Z.of_nat len <? maxLen then
        if byteVal r <? 128 then lower r :: normBytes fuel rest (S len) maxLen
        else
          let out := if Z.of_nat len + 4 <=? maxLen
                     then runeBytes (fst (Runes.decodeRune text)) else [] in
          out ++ normBytes fuel (drop (snd (Runes.decodeRune text)) text)
                           (len + length out) maxLen
      else []
    end
  end.

(** Every byte is below 0x80. *)
Definition isASCII (bytes : list ascii) : Prop := Forall (fun b => byteVal b < 128) bytes.

(** ** The ranking order

    The place of a float32 in the order that [<] and [==] induce: sign
    class, exponent and mantissa, compared lexicographically.  Both
    zeros have the same rank. *)
Definition floatRank (x : float32) : Z * Z * Z :=
  match x with
  | S754_zero _ => (0, 0, 0)
  | S754_infinity s => (if s then -2 else 2, 0, 0)
  | S754_nan => (3, 0, 0)
  | S754_finite s m e => if s then (-1, - e, Zneg m) else (1, e, Zpos m)
  end.

(** The lexicographic order on ranks. *)
Definition rankLt (a b : Z * Z * Z) : Prop :=
  a.1.1 < b.1.1 \/ (a.1.1 = b.1.1 /\ (a.1.2 < b.1.2 \/ (a.1.2 = b.1.2 /\ a.2 < b.2))).

(** The score of a candidate is a number. *)
Definition validScore (c : Candidate) : Prop := Float32.isNaN (candScore c) = false.

(** [x] ranks strictly before [y]: higher score, or the same score and
    the smaller identifier. *)
Definition before (x y : Candidate) : Prop :=
  rankLt (floatRank (candScore y)) (floatRank (candScore x))
  \/ (floatRank (candScore x) = floatRank (candScore y)
      /\ String.compare (candID x) (candID y) = Lt).

(** The test of the sorting loops lets [x] stand before [y]. *)
Definition inOrder (x y : Candidate) : Prop := outOfOrder x y = false.

(** Two candidates that neither ranks before the other have the same
    score (up to the sign of zero) and the same identifier. *)
Definition tied (x y : Candidate) : Prop :=
  floatRank (candScore x) = floatRank (candScore y) /\ candID x = candID y.

Local Close Scope Z_scope.
Local Open Scope nat_scope.

(** Insertion of [x] into the reversed list [rs], scanning from its head. *)
Fixpoint insertRev (rs : list Candidate) (x : Candidate) : list Candidate :=
  match rs with
  | [] => [x]
  | y :: rs' => if outOfOrder y x then y :: insertRev rs' x else x :: y :: rs'
  end.

(** Insertion of [x] into [s] from its right end, as the inner loop of
    [insertionSort] does it. *)
Definition insertRight (s : list Candidate) (x : Candidate) : list Candidate :=
  reverse (insertRev (reverse s) x).

(** The list-level insertion sort: the elements are inserted one after
    the other, each from the right end of what is sorted so far. *)
Definition sortedInsertions (sorted rest : list Candidate) : list Candidate :=
  foldl insertRight sorted rest.

(** The invariant of the loop of [partition3Way] on [a[low..high]]
    with pivot [p]: the cells below [lt] rank before the pivot, those
    from [lt] to [i] tie with it, those from [gt] on rank after it. *)
Definition PartInv (a0 a : list Candidate) (p : Candidate) (low high lt i gt : nat) : Prop :=
  a ≡ₚ a0 /\ (forall k, k < low \/ high < k -> a !! k = a0 !! k) /\
  low <= lt /\ lt < i /\ i <= gt /\ gt <= S high /\ high < length a /\
  (forall k, low <= k <= high -> validScore (a !!! k)) /\
  (forall k, low <= k < lt -> before (a !!! k) p) /\
  (forall k, lt <= k < i -> tied (a !!! k) p) /\
  (forall k, gt <= k <= high -> before p (a !!! k)).

(** [x] may stand before [y] in the ranking: its score is higher, or the
    scores are equal and its identifier is not the larger one. *)
Definition rankedNoLater (x y : Candidate) : Prop :=
  Float32.ltb (candScore y) (candScore x) = true
  \/ (Float32.eqb (candScore x) (candScore y) = true
      /\ String.leb (candID x) (candID y) = true).

(** [out] holds the first [n] cells of [a] in ranking order and the
    other cells as they were. *)
Definition sortsPrefix (n : nat) (a out : list Candidate) : Prop :=
  take n out ≡ₚ take n a /\ drop n out = drop n a
  /\ StronglySorted rankedNoLater (take n out).

(** ** The candidate set *)

Definition idLt (s1 s2 : string) : Prop := String.ltb s1 s2 = true.

(** The invariant of the candidate set: within its length the array is
    strictly increasing. *)
Definition candidateSetSorted (ctx : Context) : Prop :=
  candidateSetLen ctx <= length (candidateSet ctx)
  /\ StronglySorted idLt (take (candidateSetLen ctx) (candidateSet ctx)).

(** The identifiers in the set. *)
Definition liveSet (ctx : Context) : list string :=
  take (candidateSetLen ctx) (candidateSet ctx).

(** ** The index

    The posting list of a word, empty when the word is absent. *)
Definition postings (m : gmap string (list string)) (word : string) : list string :=
  default [] (m !! word).

(** The keys under which the word loop of [buildIndex] files a
    document, in the order of its word spans. *)
Definition spanKeys (buf : list ascii) (bufLen : nat) (wordStarts wordEnds : list nat)
    (idxs : list nat) : list string :=
  flat_map (fun i =>
    let start := wordStarts !!! i in
    let end_ := wordEnds !!! i in
    if (start <? end_) && (end_ <=? bufLen)
    then [string_of_list_ascii (slice buf start end_)] else []) idxs.

(** The words a rebuild files a text under, for an index buffer of
    [cap] bytes. *)
Definition indexedWords (cap : nat) (text : string) : list string :=
  let '(buf, n) := normalizeText text (replicate cap zero) in
  let '(wordStarts, wordEnds, wordCount) :=
    splitWords (take n buf) (replicate (Z.to_nat 256) 0) (replicate (Z.to_nat 256) 0) in
  spanKeys buf n wordStarts wordEnds (seq 0 wordCount).

(** The number of times [x] occurs in [l]. *)
Definition occurrences (x : string) (l : list string) : nat := count_occ string_dec l x.

(** ** Views of splitWords

    The spans the loop of [splitWords] records, and the start of the
    word that is open when the loop ends. *)
Fixpoint splitSpans (rest : list ascii) (i start count maxWords : nat)
    : nat * list (nat * nat) :=
  match rest with
  | [] => (start, [])
  | b :: rest' =>
    if count <? maxWords then
      if wordBoundaryLUT b then
        if start <? i then
          let '(start', spans) := splitSpans rest' (S i) (S i) (S count) maxWords in
          (start', (start, i) :: spans)
        else splitSpans rest' (S i) (S i) count maxWords
      else splitSpans rest' (S i) start count maxWords
    else (start, [])
  end.

(** The spans [splitWords] records, the last word included. *)
Definition wordSpans (text : list ascii) (maxWords : nat) : list (nat * nat) :=
  let '(start, spans) := splitSpans text 0 0 0 maxWords in
  if (start <? length text) && (length spans <? maxWords)
  then spans ++ [(start, length text)] else spans.

(** A span is not empty and lies within [lo, hi]. *)
Definition validSpan (lo hi : nat) (p : nat * nat) : Prop :=
  lo <= p.1 /\ p.1 < p.2 /\ p.2 <= hi.

(** ** Scores

    The exact value of a finite float32. *)
Definition toQ (x : float32) : option Q :=
  match x with
  | S754_zero _ => Some 0%Q
  | S754_finite s m e =>
    Some (inject_Z (if s then Zneg m else Zpos m) * Qpower 2 e)%Q
  | _ => None
  end.

(** The context as [scoreDocument] leaves it once the text is
    normalised and split. *)
Definition prepareDoc (text : string) (ctx : Context) : Context :=
  let '(buf, n) := normalizeText text (docNormalized ctx) in
  let ctx := setDoc ctx buf n in
  let '(starts, ends, count) :=
    splitWords (take (docNormLen ctx) (docNormalized ctx))
               (docWordStarts ctx) (docWordEnds ctx) in
  setDocWords ctx starts ends count.

(** Query word [i] and document word [j] have the same length and the
    same bytes. *)
Definition exactWordMatch (ctx : Context) (i j : nat) : Prop :=
  queryWordEnds ctx !!! i - queryWordStarts ctx !!! i
    = docWordEnds ctx !!! j - docWordStarts ctx !!! j
  /\ slice (queryNormalized ctx) (queryWordStarts ctx !!! i) (queryWordEnds ctx !!! i)
     = slice (docNormalized ctx) (docWordStarts ctx !!! j) (docWordEnds ctx !!! j).

(** The arrays of a context have the capacities of the Go struct. *)
Definition contextShape (ctx : Context) : Prop :=
  length (queryNormalized ctx) = capQuery
  /\ length (docNormalized ctx) = capDoc
  /\ length (queryWordStarts ctx) = capQueryWords
  /\ length (queryWordEnds ctx) = capQueryWords
  /\ length (docWordStarts ctx) = capDocWords
  /\ length (docWordEnds ctx) = capDocWords
  /\ length (candidates ctx) = capCandidates
  /\ length (candidateSet ctx) = capCandidates.

(** [total] after [k] exact matches, each adding 2.0. *)
Fixpoint addTwos (k : nat) (total : float32) : float32 :=
  match k with
  | O => total
  | S k => addTwos k (Float32.add total Float32.two)
  end.

#[global] Instance spec_float_eq_dec : EqDecision spec_float.
Proof. solve_decision. Defined.

(** The float32 value of [2.0 * W + float32(W - 1) * 0.5]. *)
Definition exactScore (W : nat) : float32 :=
  Float32.add (Float32.ofZ (2 * Z.of_nat W))
              (Float32.mul (Float32.ofZ (Z.of_nat W - 1)) Float32.half).

(** The query part of a context after [prepareQuery]: the spans lie
    within the normalised query and fit the span arrays. *)
Definition queryReady (ctx : Context) : Prop :=
  queryNormLen ctx <= length (queryNormalized ctx)
  /\ queryWordCount ctx <= Nat.min (length (queryWordStarts ctx)) (length (queryWordEnds ctx))
  /\ forall i, i < queryWordCount ctx ->
       queryWordStarts ctx !!! i < queryWordEnds ctx !!! i <= queryNormLen ctx.

(** Two contexts hold the same query, and document buffers that agree
    on what [scoreDocument] has written. *)
Definition docViewEq (A B : Context) : Prop :=
  queryNormalized A = queryNormalized B /\ queryNormLen A = queryNormLen B
  /\ queryWordStarts A = queryWordStarts B /\ queryWordEnds A = queryWordEnds B
  /\ queryWordCount A = queryWordCount B
  /\ docNormLen A = docNormLen B /\ docWordCount A = docWordCount B
  /\ take (docNormLen A) (docNormalized A) = take (docNormLen B) (docNormalized B)
  /\ take (docWordCount A) (docWordStarts A) = take (docWordCount B) (docWordStarts B)
  /\ take (docWordCount A) (docWordEnds A) = take (docWordCount B) (docWordEnds B)
  /\ (forall j, j < docWordCount A ->
        docWordStarts A !!! j < docWordEnds A !!! j <= docNormLen A).

(** Two contexts hold the same query and have document buffers of the
    same capacities. *)
Definition sameQuery (A B : Context) : Prop :=
  queryNormalized A = queryNormalized B /\ queryNormLen A = queryNormLen B
  /\ queryWordStarts A = queryWordStarts B /\ queryWordEnds A = queryWordEnds B
  /\ queryWordCount A = queryWordCount B
  /\ length (docNormalized A) = length (docNormalized B)
  /\ length (docWordStarts A) = length (docWordStarts B)
  /\ length (docWordEnds A) = length (docWordEnds B).

(** The score that [scoreDocument] computes once both early exits are
    passed, from the context with the document normalised and split. *)
Definition preparedScore (ctxd : Context) : float32 :=
  let '(totalScore, exactMatches) :=
    matchQueryWords ctxd (seq 0 (queryWordCount ctxd)) Float32.zero 0 in
  let bonus := Float32.mul (Float32.ofZ (Z.of_nat exactMatches - 1)) Float32.half in
  if (exactMatches =? queryWordCount ctxd) then Float32.add totalScore bonus
  else
    let totalScore :=
      if (1 <? exactMatches) then Float32.add totalScore bonus else totalScore in
    let totalScore :=
      if (3 <=? queryNormLen ctxd) && (exactMatches =? 0)
         && Float32.eqb totalScore Float32.zero
      then Float32.add totalScore (scoreSubstring ctxd) else totalScore in
    if (2 <=? queryWordCount ctxd) && (exactMatches <? queryWordCount ctxd)
       && Float32.ltb totalScore (Float32.ofZ (Z.of_nat (queryWordCount ctxd)))
    then Float32.add totalScore (scoreReversedWords ctxd) else totalScore.

(** ** Search results *)

Definition positiveScore (x : float32) : Prop := Float32.ltb Float32.zero x = true.

(** The candidates found so far. *)
Definition liveCandidates (ctx : Context) : list Candidate :=
  take (candidateCount ctx) (candidates ctx).

(** A candidate is a known document, carries the score that
    [scoreDocument] gives its text for the query held in [q], and that
    score is positive. *)
Definition scoredFor (known : string -> string -> Prop) (q : Context) (c : Candidate) : Prop :=
  known (candID c) (candText c)
  /\ candScore c = (scoreDocument (candText c) q).1
  /\ positiveScore (candScore c).

(** What the two search loops keep: the query [q], room in the array,
    and live candidates that are scored documents. *)
Definition searchInv (known : string -> string -> Prop) (q : Context) (ctx : Context)
    : Prop :=
  sameQuery q ctx /\ candidateCount ctx <= length (candidates ctx)
  /\ Forall (scoredFor known q) (liveCandidates ctx).

(** [ctx'] is [ctx] with another candidate set. *)
Definition setOnly (ctx ctx' : Context) : Prop :=
  exists set n, ctx' = setCandidateSet ctx set n.

(** The cached entries are entries of the corpus. *)
Definition cacheSound (rs : RuntimeSearch) (data : list (string * string)) : Prop :=
  forall id text, cachedData rs ≫= (.!! id) = Some text -> (id, text) ∈ data.

(** The score of a result is strictly above zero. *)
Definition positiveResult (r : SearchResult) : Prop :=
  Float32.ltb Float32.zero (Score r) = true.

(** A result is an entry of the corpus, scored by [scoreDocument] for
    the query held in [q], with a positive score. *)
Definition scoredResult (data : list (string * string)) (q : Context) (r : SearchResult)
    : Prop :=
  (ID r, Text r) ∈ data
  /\ Score r = (scoreDocument (Text r) q).1
  /\ positiveResult r.

(** What a zero-allocation call may do to the caller's memory. *)
Definition withinBuffer (maxResults : Z) (backing : list SearchResult) (K : nat)
    (view backing' : list SearchResult) : Prop :=
  (Z.of_nat (length view) <= Z.min (Z.of_nat K) maxResults)%Z
  /\ length backing' = length backing
  /\ forall i, K <= i -> backing' !! i = backing !! i.

(** ** Sample inputs

    A corpus, a candidate array and a caller's buffer. *)
Definition sampleCorpus : list (string * string) :=
  [("user1", "Zephen Blakewood fictional software architect");
   ("user2", "Zeph Blake fictional engineer")]%string.

Definition sampleCandidates : list Candidate :=
  [mkCandidate "b"%string "beta"%string Float32.one;
   mkCandidate "c"%string "gamma"%string Float32.two;
   mkCandidate "a"%string "alpha"%string Float32.one].

Definition sampleBacking : list SearchResult :=
  replicate 3 (mkSearchResult EmptyString EmptyString Float32.zero).

(** ** Runes, words, hits and the index

    What the theorems of Part IV are stated with. *)

Local Close Scope nat_scope.
Local Open Scope Z_scope.

(** The rune [encodeRune] stores for [r]: an ASCII capital is stored as
    its lower-case letter. *)
Definition foldRune (r : Z) : Z := if (65 <=? r) && (r <=? 90) then r + 32 else r.

(** An ASCII capital letter. *)
Definition isCapital (b : ascii) : bool := (65 <=? byteVal b) && (byteVal b <=? 90).

Local Close Scope Z_scope.
Local Open Scope nat_scope.

(** [needle] occurs in [haystack] as a contiguous run of bytes. *)
Definition occursIn (needle haystack : list ascii) : Prop :=
  exists pre post, haystack = pre ++ needle ++ post.

(** A word of [text]: a maximal run of bytes that are not word
    boundaries, from index [p.1] up to index [p.2]. *)
Definition isWord (text : list ascii) (p : nat * nat) : Prop :=
  p.1 < p.2 <= length text
  /\ (forall k, p.1 <= k < p.2 -> wordBoundaryLUT (text !!! k) = false)
  /\ (p.1 = 0 \/ wordBoundaryLUT (text !!! (p.1 - 1)) = true)
  /\ (p.2 = length text \/ wordBoundaryLUT (text !!! p.2) = true).

(** The candidates of the direct search for the query held in [q], in
    the order of the corpus: the documents the length filter lets
    through and [scoreDocument] scores above zero. *)
Definition directHits (q : Context) (data : list (string * string)) : list Candidate :=
  flat_map (fun '(id, text) =>
    if hasLongWords q && (String.length text <? queryNormLen q / 2) then []
    else if Float32.ltb Float32.zero (scoreDocument text q).1
         then [mkCandidate id text (scoreDocument text q).1] else []) data.

(** The result [x] may stand before the result [y]: its score is
    higher, or the scores are equal and its identifier is not the larger
    one. *)
Definition resultNoLater (x y : SearchResult) : Prop :=
  Float32.ltb (Score y) (Score x) = true
  \/ (Float32.eqb (Score x) (Score y) = true /\ String.leb (ID x) (ID y) = true).

(** The context of a ranked search before [sortCandidates] is run. *)
Definition searched (rs : RuntimeSearch) (ctx : Context) (data : list (string * string))
    (query : string) (useCache : bool) : Context :=
  if useCache then (searchWithCache rs data (prepareQuery query ctx)).2
  else searchDirect data (prepareQuery query ctx).

(** Each of the four entry points returns, and what it returns (the
    slice handed back, for the two [Into] functions) has the property
    [P]. *)
Definition everyResult (P : list SearchResult -> Prop) (rs : RuntimeSearch) (ctx : Context)
    (data : list (string * string)) (query : string) (maxResults : Z)
    (backing : list SearchResult) (K : nat) : Prop :=
  (exists res, (Search rs ctx data query maxResults).2 = Some res /\ P res)
  /\ (exists res, (QuickSearch rs ctx data query maxResults).2 = Some res /\ P res)
  /\ (exists view backing',
        (SearchInto rs ctx data query backing K).2 = Some (view, backing') /\ P view)
  /\ (exists view backing',
        (QuickSearchInto rs ctx data query backing K).2 = Some (view, backing') /\ P view).

(** The live candidates of a ranked search over this corpus and query,
    or none at all. *)
Definition rankedLive (rs : RuntimeSearch) (ctx : Context) (data : list (string * string))
    (query : string) (live : list Candidate) : Prop :=
  live = [] \/ exists useCache, live = liveCandidates (rankedSearch rs ctx data query useCache).2.

(** The identifier [x] stands in some posting list of the word index or
    of the trigram index. *)
Definition fromIndex (rs : RuntimeSearch) (x : string) : Prop :=
  exists key, x ∈ postings (cachedWordMap rs) key \/ x ∈ postings (cachedTrigrams rs) key.

(** A step of [findCandidates] from [ctx] to [ctx']: only the candidate
    set changes, it stays sorted and loses nothing, and what it gains
    comes from the index. *)
Definition indexStep (rs : RuntimeSearch) (ctx ctx' : Context) : Prop :=
  setOnly ctx ctx' /\ candidateSetSorted ctx'
  /\ length (candidateSet ctx') = length (candidateSet ctx)
  /\ candidateSetLen ctx <= candidateSetLen ctx'
  /\ (forall x, x ∈ liveSet ctx -> x ∈ liveSet ctx')
  /\ (forall x, x ∈ liveSet ctx' -> x ∈ liveSet ctx \/ fromIndex rs x).

(** The candidates of the cached search for the query held in [q], in
    the order of the identifiers [ids]: those the cache has a text for
    that [scoreDocument] scores above zero. *)
Definition cachedHits (rs : RuntimeSearch) (q : Context) (ids : list string)
    : list Candidate :=
  flat_map (fun id =>
    match cachedData rs ≫= (.!! id) with
    | Some text =>
      if Float32.ltb Float32.zero (scoreDocument text q).1
      then [mkCandidate id text (scoreDocument text q).1] else []
    | None => []
    end) ids.

(** The result of [compareScoreAndID] on two candidates. *)
Definition compareCandidates (x y : Candidate) : Z :=
  compareScoreAndID (candScore x) (candID x) (candScore y) (candID y).

(** The bytes [normalizeText] writes for [text] into a buffer of [cap]
    bytes. *)
Definition normalized (cap : nat) (text : string) : list ascii :=
  let '(buf, n) := normalizeText text (replicate cap zero) in take n buf.

(** The bytes [lo] to [hi] of [text], as a map key. *)
Definition keyAt (text : list ascii) (lo hi : nat) : string :=
  string_of_list_ascii (slice text lo hi).

(** The number of words [buildIndex] finds in a normalised text; its
    two span arrays hold 256 words. *)
Definition indexedWordCount (norm : list ascii) : nat :=
  (splitWords norm (replicate (Z.to_nat 256) 0) (replicate (Z.to_nat 256) 0)).2.

(** The offsets at which the trigram loop of [buildIndex] reads three
    bytes of a normalised text: the multiples of the stride that leave
    room for them. *)
Definition sampled (norm : list ascii) (i : nat) : Prop :=
  i + 3 <= length norm /\ exists k, i = k * Nat.max 1 (length norm / 100).

(** Two texts are the same up to the case of their ASCII letters. *)
Definition sameUpToCase (t1 t2 : string) : Prop :=
  isASCII (list_ascii_of_string t1) /\ isASCII (list_ascii_of_string t2)
  /\ map lower (list_ascii_of_string t1) = map lower (list_ascii_of_string t2).

(** * Part III: lemmas and theorems *)

Local Close Scope nat_scope.
Local Open Scope Z_scope.

(** ** Bytes, encodeRune and normalizeText *)

Lemma byteVal_range (b : ascii) : 0 <= byteVal b < 256.
Proof.
  unfold byteVal. pose proof (N_ascii_bounded b). lia.
Qed.

Lemma toByte_byteVal (b : ascii) : toByte (byteVal b) = b.
Proof.
  unfold toByte. pose proof (byteVal_range b).
  rewrite Z.mod_small by lia. unfold byteVal.
  rewrite N2Z.id. apply ascii_N_embedding.
Qed.

Lemma byteVal_toByte (z : Z) : 0 <= z < 256 -> byteVal (toByte z) = z.
Proof.
  intros Hz. unfold toByte, byteVal.
  rewrite Z.mod_small by lia.
  rewrite N_ascii_embedding by lia. lia.
Qed.

Section WriteAt.

Context {A : Type}.
Implicit Types (b out : list A).

Lemma writeAt_nil b len : writeAt b len [] = b.
Proof. unfold writeAt. simpl. rewrite Nat.add_0_r. apply take_drop. Qed.

Lemma writeAt_insert b len x :
  (len < length b)%nat -> <[len := x]> b = writeAt b len [x].
Proof.
  intros H. unfold writeAt. simpl.
  rewrite insert_take_drop by done. by rewrite Nat.add_1_r.
Qed.

Lemma length_writeAt b len out :
  (len + length out <= length b)%nat -> length (writeAt b len out) = length b.
Proof.
  intros H. unfold writeAt. rewrite !length_app, length_take, length_drop. lia.
Qed.

Lemma writeAt_writeAt b len o1 o2 :
  (len + length o1 <= length b)%nat ->
  writeAt (writeAt b len o1) (len + length o1) o2 = writeAt b len (o1 ++ o2).
Proof.
  intros H. unfold writeAt.
  assert (Hl : length (take len b) = len) by (rewrite length_take; lia).
  rewrite (app_assoc (take len b) o1).
  rewrite take_app_length' by (rewrite length_app; lia).
  rewrite <- !app_assoc. do 2 f_equal. f_equal.
  rewrite (app_assoc (take len b) o1).
  rewrite drop_app_ge by (rewrite length_app; lia).
  rewrite length_app, Hl, drop_drop, length_app. f_equal. lia.
Qed.

Lemma take_writeAt b len out :
  (len <= length b)%nat -> take (len + length out) (writeAt b len out) = take len b ++ out.
Proof.
  intros H. unfold writeAt. rewrite app_assoc.
  apply take_app_length'. rewrite length_app, length_take. lia.
Qed.

Lemma drop_writeAt b len out :
  (len + length out <= length b)%nat ->
  drop (len + length out) (writeAt b len out) = drop (len + length out) b.
Proof.
  intros H. unfold writeAt. rewrite app_assoc.
  rewrite drop_app_length'; [done|]. rewrite length_app, length_take. lia.
Qed.

End WriteAt.

Lemma take_writeAt0 {A} (b out : list A) : take (length out) (writeAt b 0 out) = out.
Proof. unfold writeAt. simpl. by rewrite take_app_length. Qed.

Lemma length_runeBytes r : (1 <= length (runeBytes r) <= 4)%nat.
Proof. unfold runeBytes. repeat case_match; simpl; lia. Qed.

Lemma encodeRune_spec buf r :
  (4 <= length buf)%nat ->
  Runes.encodeRune buf r = (runeBytes r ++ drop (length (runeBytes r)) buf, length (runeBytes r)).
Proof.
  intros H. destruct buf as [|b0 [|b1 [|b2 [|b3 buf]]]]; simpl in H; try lia.
  unfold Runes.encodeRune, runeBytes. repeat case_match; reflexivity.
Qed.

Lemma normalizeLoop_spec fuel : forall text buffer len maxLen,
  maxLen <= Z.of_nat (length buffer) - 4 ->
  normalizeLoop fuel text buffer len maxLen =
    (writeAt buffer len (normBytes fuel text len maxLen),
     (len + length (normBytes fuel text len maxLen))%nat)
  /\ (Z.of_nat len <= Z.max maxLen (Z.of_nat len) ->
      Z.of_nat (len + length (normBytes fuel text len maxLen)) <= Z.max maxLen (Z.of_nat len)).
Proof.
  induction fuel as [|fuel IH]; intros text buffer len maxLen Hmax; simpl.
  { rewrite writeAt_nil, Nat.add_0_r. split; [done|lia]. }
  destruct text as [|r rest].
  { rewrite writeAt_nil, Nat.add_0_r. split; [done|lia]. }
  destruct (Z.ltb_spec (Z.of_nat len) maxLen) as [Hlt|Hge].
  2:{ rewrite writeAt_nil, Nat.add_0_r. split; [done|lia]. }
  destruct (Z.ltb_spec (byteVal r) 128) as [Hascii|Huni].
  - fold (lower r).
    destruct (IH rest (<[len := lower r]> buffer) (S len) maxLen) as [IH1 IH2].
    { rewrite length_insert. lia. }
    rewrite IH1. split.
    + f_equal; [|simpl; lia].
      rewrite writeAt_insert by lia.
      replace (S len) with (len + length [lower r])%nat by (simpl; lia).
      rewrite writeAt_writeAt by (simpl; lia). done.
    + intros _. simpl. specialize (IH2 ltac:(lia)). lia.
  - destruct (Runes.decodeRune (r :: rest)) as [rune size] eqn:Hdec. simpl fst; simpl snd.
    destruct (Z.leb_spec (Z.of_nat len + 4) maxLen) as [Hroom|Hnoroom].
    + rewrite encodeRune_spec by (rewrite length_drop; lia).
      pose proof (length_runeBytes rune) as Hrb.
      rewrite drop_drop.
      change (take len buffer ++ runeBytes rune ++ drop (len + length (runeBytes rune)) buffer)
        with (writeAt buffer len (runeBytes rune)).
      destruct (IH (drop size (r :: rest)) (writeAt buffer len (runeBytes rune))
                   (len + length (runeBytes rune))%nat maxLen) as [IH1 IH2].
      { rewrite length_writeAt by lia. lia. }
      rewrite IH1. split.
      * f_equal; [|rewrite length_app; lia].
        rewrite writeAt_writeAt by lia. done.
      * intros _. rewrite length_app. specialize (IH2 ltac:(lia)). lia.
    + destruct (IH (drop size (r :: rest)) buffer len maxLen Hmax) as [IH1 IH2].
      simpl. rewrite Nat.add_0_r. rewrite IH1. split; [done|]. intros _. lia.
Qed.

Lemma lower_ascii b : byteVal b < 128 -> byteVal (lower b) < 128.
Proof.
  intros H. unfold lower. pose proof (byteVal_range b).
  destruct (Z.leb_spec 65 (byteVal b)), (Z.leb_spec (byteVal b) 90); simpl; try done.
  rewrite byteVal_toByte; lia.
Qed.

Lemma lower_lower b : byteVal b < 128 -> lower (lower b) = lower b.
Proof.
  intros H. unfold lower at 2. pose proof (byteVal_range b).
  destruct (Z.leb_spec 65 (byteVal b)), (Z.leb_spec (byteVal b) 90); simpl; try done;
    unfold lower; try rewrite byteVal_toByte by lia;
    repeat match goal with |- context [Z.leb ?a ?b] => destruct (Z.leb_spec a b) end;
    simpl; try done; lia.
Qed.

Lemma normBytes_ascii text : forall fuel len maxLen,
  isASCII text -> (length text <= fuel)%nat ->
  normBytes fuel text len maxLen = map lower (take (Z.to_nat (maxLen - Z.of_nat len)) text).
Proof.
  induction text as [|r rest IH]; intros fuel len maxLen Hasc Hfuel.
  { destruct fuel; simpl; by rewrite take_nil. }
  destruct fuel as [|fuel]; [simpl in Hfuel; lia|]. simpl in Hfuel.
  inversion Hasc as [|? ? Hr Hrest]; subst. simpl.
  destruct (Z.ltb_spec (Z.of_nat len) maxLen) as [Hlt|Hge].
  - destruct (Z.ltb_spec (byteVal r) 128); [|lia].
    rewrite IH by (done || lia).
    replace (Z.to_nat (maxLen - Z.of_nat len)) with (S (Z.to_nat (maxLen - Z.of_nat (S len)))) by lia.
    done.
  - replace (Z.to_nat (maxLen - Z.of_nat len)) with 0%nat by lia. done.
Qed.

Lemma normalizeText_spec text buffer :
  let out := normBytes (String.length text) (list_ascii_of_string text) 0
                       (Z.of_nat (length buffer) - 4) in
  normalizeText text buffer = (writeAt buffer 0 out, length out)
  /\ (length out <= length buffer - 4)%nat.
Proof.
  intros out. unfold normalizeText.
  assert (Hlen : length (list_ascii_of_string text) = String.length text).
  { clear. induction text; simpl; congruence. }
  rewrite Hlen.
  destruct (normalizeLoop_spec (String.length text) (list_ascii_of_string text) buffer 0
              (Z.of_nat (length buffer) - 4)) as [H1 H2]; [lia|].
  rewrite H1. fold out. split; [done|].
  specialize (H2 ltac:(lia)). fold out in H2. simpl in H2. lia.
Qed.

(** C8: normalisation is idempotent on ASCII text.  Normalising
    [text] into [buffer] leaves [n1] bytes; normalising those bytes
    again, into any buffer with room for them ([n1 <= len - 4], the
    bound the loop itself enforces), yields the same length and the same
    bytes.  A second buffer of the size of the first always has room. *)
Theorem normalizeText_idempotent_ascii (text : string) (buffer buffer' : list ascii) :
  isASCII (list_ascii_of_string text) ->
  (length buffer' = length buffer
   \/ snd (normalizeText text buffer) <= length buffer' - 4)%nat ->
  let '(buf1, n1) := normalizeText text buffer in
  let '(buf2, n2) := normalizeText (string_of_list_ascii (take n1 buf1)) buffer' in
  n2 = n1 /\ take n2 buf2 = take n1 buf1.
Proof.
  intros Hasc Hroom.
  destruct (normalizeText_spec text buffer) as [E1 B1]. rewrite E1 in *.
  set (cap := Z.of_nat (length buffer) - 4) in *.
  assert (Hlen' : forall s, length (list_ascii_of_string s) = String.length s).
  { clear. induction s; simpl; congruence. }
  rewrite normBytes_ascii in * by (done || rewrite Hlen'; lia).
  set (out := map lower (take (Z.to_nat (cap - Z.of_nat 0)) (list_ascii_of_string text))) in *.
  rewrite take_writeAt0.
  destruct (normalizeText_spec (string_of_list_ascii out) buffer') as [E2 B2]. rewrite E2.
  rewrite list_ascii_of_string_of_list_ascii in *.
  set (cap' := Z.of_nat (length buffer') - 4) in *.
  assert (Hfit : (length out <= Z.to_nat (cap' - Z.of_nat 0))%nat).
  { simpl in Hroom. subst cap'. destruct Hroom as [Hroom|Hroom]; lia. }
  assert (Hout_ascii : isASCII out).
  { subst out. apply Forall_fmap. eapply Forall_impl; [by apply Forall_take|].
    intros b Hb. simpl. by apply lower_ascii. }
  assert (Hidem : normBytes (String.length (string_of_list_ascii out)) out 0 cap' = out).
  { rewrite normBytes_ascii; [|done|].
    2:{ rewrite <- (Hlen' (string_of_list_ascii out)), list_ascii_of_string_of_list_ascii. lia. }
    rewrite take_ge by exact Hfit.
    subst out. rewrite <- list_fmap_compose. apply list_fmap_ext.
    intros i b Hb. simpl. apply lower_lower.
    apply lookup_take_Some in Hb as [Hb _].
    unfold isASCII in Hasc. rewrite Forall_lookup in Hasc. by eapply Hasc. }
  rewrite Hidem. split; [done|]. apply take_writeAt0.
Qed.

(** On [Hello, World], with a second buffer of sixteen bytes that are
    not all zero. *)
Lemma normalizeText_idempotent_ascii_witness :
  let '(buf1, n1) := normalizeText "Hello, World" (replicate 32 zero) in
  let '(buf2, n2) := normalizeText (string_of_list_ascii (take n1 buf1))
                                   (replicate 8 zero ++ replicate 8 one) in
  n2 = n1 /\ take n2 buf2 = take n1 buf1.
Proof.
  apply (normalizeText_idempotent_ascii "Hello, World" (replicate 32 zero)
           (replicate 8 zero ++ replicate 8 one)).
  - unfold isASCII. simpl. repeat (constructor; [reflexivity|]). constructor.
  - right. vm_compute. lia.
Defined.

(** C4, amended: on an input shorter than the length its leading byte
    implies, [decodeRune] returns U+FFFD and consumes one byte.  (A
    leading byte outside the known patterns is given no such treatment:
    see [decodeRune_unknown_leading_byte].) *)
Theorem decodeRune_short_input (b0 : ascii) (rest : list ascii) :
  (length (b0 :: rest) < Runes.impliedLen b0)%nat ->
  Runes.decodeRune (b0 :: rest) = (0xFFFD, 1%nat).
Proof.
  unfold Runes.impliedLen, Runes.decodeRune. intros H.
  destruct (byteVal b0 <? 0x80); [simpl in H; lia|].
  destruct rest as [|b1 rest]; [done|].
  destruct (byteVal b0 <? 0xE0); [simpl in H; lia|].
  destruct rest as [|b2 rest]; [done|].
  destruct (byteVal b0 <? 0xF0); [simpl in H; lia|].
  destruct rest as [|b3 rest]; [done|]. simpl in H. lia.
Qed.

(** The leading byte 0xC3 alone. *)
Lemma decodeRune_short_input_witness :
  Runes.decodeRune ["195"%char] = (0xFFFD, 1%nat).
Proof. apply (decodeRune_short_input "195"%char []). vm_compute. lia. Defined.

(** [decodeRune] always moves forward, and by the implied length when
    the input has that many bytes. *)
Lemma decodeRune_progress (b0 : ascii) (rest : list ascii) :
  (1 <= snd (Runes.decodeRune (b0 :: rest)) <= length (b0 :: rest))%nat
  /\ ((Runes.impliedLen b0 <= length (b0 :: rest))%nat ->
      snd (Runes.decodeRune (b0 :: rest)) = Runes.impliedLen b0).
Proof.
  unfold Runes.impliedLen, Runes.decodeRune.
  destruct (byteVal b0 <? 0x80); [simpl; lia|].
  destruct rest as [|b1 rest]; [simpl; destruct (byteVal b0 <? 0xE0), (byteVal b0 <? 0xF0); lia|].
  destruct (byteVal b0 <? 0xE0); [simpl; lia|].
  destruct rest as [|b2 rest]; [simpl; destruct (byteVal b0 <? 0xF0); lia|].
  destruct (byteVal b0 <? 0xF0); [simpl; lia|].
  destruct rest as [|b3 rest]; simpl; lia.
Qed.

(** C4, counterexample: a continuation byte 0x80 and a byte 0xF8 in
    leading position, on inputs long enough, decode as a three-byte and
    as a four-byte sequence would: the rune is 0, not U+FFFD, and two
    and four bytes are consumed. *)
Lemma decodeRune_unknown_leading_byte :
  Runes.knownLeadingByte "128"%char = false
  /\ Runes.decodeRune ["128"; "128"]%char = (0, 2%nat)
  /\ Runes.knownLeadingByte "248"%char = false
  /\ Runes.decodeRune ["248"; "128"; "128"; "128"]%char = (0, 4%nat).
Proof. repeat split; reflexivity. Qed.

(** ** The order of the ranking *)

Lemma SFcompare_rank (a b : float32) :
  Float32.isNaN a = false -> Float32.isNaN b = false ->
  SFcompare a b =
    Some (match (floatRank a).1.1 ?= (floatRank b).1.1 with
          | Eq => match (floatRank a).1.2 ?= (floatRank b).1.2 with
                  | Eq => (floatRank a).2 ?= (floatRank b).2
                  | c => c
                  end
          | c => c
          end).
Proof.
  intros Ha Hb.
  destruct a as [sa|sa| |sa ma ea], b as [sb|sb| |sb mb eb]; try discriminate;
    try destruct sa; try destruct sb; try reflexivity.
  all: simpl; try rewrite Z.compare_opp, (Z.compare_antisym ea eb);
    destruct (ea ?= eb); reflexivity.
Qed.

Lemma float_ltb_rank (a b : float32) :
  Float32.isNaN a = false -> Float32.isNaN b = false ->
  Float32.ltb a b = true <-> rankLt (floatRank a) (floatRank b).
Proof.
  intros Ha Hb. unfold Float32.ltb, SFltb, rankLt. rewrite SFcompare_rank by done.
  destruct (floatRank a) as [[a1 a2] a3], (floatRank b) as [[b1 b2] b3]. simpl.
  destruct (Z.compare_spec a1 b1); [destruct (Z.compare_spec a2 b2);
    [destruct (Z.compare_spec a3 b3)|..] |..]; split; (done || lia).
Qed.

Lemma float_eqb_rank (a b : float32) :
  Float32.isNaN a = false -> Float32.isNaN b = false ->
  Float32.eqb a b = true <-> floatRank a = floatRank b.
Proof.
  intros Ha Hb. unfold Float32.eqb, SFeqb. rewrite SFcompare_rank by done.
  destruct (floatRank a) as [[a1 a2] a3], (floatRank b) as [[b1 b2] b3]. simpl.
  destruct (Z.compare_spec a1 b1); [destruct (Z.compare_spec a2 b2);
    [destruct (Z.compare_spec a3 b3)|..] |..]; split; intros; simplify_eq; (done || lia).
Qed.

Lemma string_compare_refl (s : string) : String.compare s s = Eq.
Proof.
  induction s as [|c s IH]; simpl; [done|].
  unfold Ascii.compare. by rewrite N.compare_refl.
Qed.

Lemma string_compare_trans (s1 s2 s3 : string) :
  String.compare s1 s2 = Lt -> String.compare s2 s3 = Lt -> String.compare s1 s3 = Lt.
Proof.
  revert s2 s3. induction s1 as [|c1 s1 IH]; intros [|c2 s2] [|c3 s3]; simpl; try done.
  unfold Ascii.compare.
  destruct (N.compare_spec (N_of_ascii c1) (N_of_ascii c2)) as [E12|L12|G12]; try done;
    destruct (N.compare_spec (N_of_ascii c2) (N_of_ascii c3)) as [E23|L23|G23]; try done;
    intros H12 H23.
  - rewrite E12, E23, N.compare_refl. eauto.
  - rewrite E12. by apply N.compare_lt_iff in L23 as ->.
  - rewrite <- E23. by apply N.compare_lt_iff in L12 as ->.
  - assert (N_of_ascii c1 < N_of_ascii c3)%N as ->%N.compare_lt_iff by lia. done.
Qed.

Lemma string_ltb_compare (s1 s2 : string) :
  String.ltb s1 s2 = true <-> String.compare s1 s2 = Lt.
Proof. unfold String.ltb. destruct (String.compare s1 s2); split; done. Qed.

Lemma string_compare_Gt (s1 s2 : string) :
  String.compare s1 s2 = Gt <-> String.compare s2 s1 = Lt.
Proof.
  rewrite (String.compare_antisym s2 s1). destruct (String.compare s1 s2); split; done.
Qed.

Lemma rankLt_trans a b c : rankLt a b -> rankLt b c -> rankLt a c.
Proof. unfold rankLt. lia. Qed.

Lemma rankLt_irrefl a : ~ rankLt a a.
Proof. unfold rankLt. lia. Qed.

Lemma rank_trichotomy (a b : Z * Z * Z) : rankLt a b \/ a = b \/ rankLt b a.
Proof.
  destruct a as [[a1 a2] a3], b as [[b1 b2] b3]. unfold rankLt. simpl.
  destruct (Z.lt_trichotomy a1 b1) as [|[|]], (Z.lt_trichotomy a2 b2) as [|[|]],
    (Z.lt_trichotomy a3 b3) as [|[|]]; subst; auto 10.
Qed.

Lemma before_trans x y z : before x y -> before y z -> before x z.
Proof.
  unfold before. intros [H1|[E1 S1]] [H2|[E2 S2]].
  - left. eauto using rankLt_trans.
  - left. by rewrite <- E2.
  - left. by rewrite E1.
  - right. split; [congruence|]. eauto using string_compare_trans.
Qed.

Lemma before_irrefl x : ~ before x x.
Proof.
  unfold before. intros [H|[_ H]].
  - by apply rankLt_irrefl in H.
  - by rewrite string_compare_refl in H.
Qed.

Lemma before_asym x y : before x y -> ~ before y x.
Proof. intros H1 H2. exact (before_irrefl x (before_trans _ _ _ H1 H2)). Qed.

Lemma before_total x y : before x y \/ tied x y \/ before y x.
Proof.
  unfold before, tied.
  destruct (rank_trichotomy (floatRank (candScore x)) (floatRank (candScore y))) as [H|[H|H]];
    [by auto|idtac|by auto].
  destruct (String.compare (candID x) (candID y)) eqn:Hc.
  - apply String.compare_eq_iff in Hc. auto.
  - auto.
  - apply string_compare_Gt in Hc. auto.
Qed.

Lemma before_tied_l x x' y : tied x x' -> before x y -> before x' y.
Proof. unfold tied, before. intros [-> ->]. done. Qed.

Lemma before_tied_r x y y' : tied y y' -> before x y -> before x y'.
Proof. unfold tied, before. intros [-> ->]. done. Qed.

Lemma tied_sym x y : tied x y -> tied y x.
Proof. unfold tied. intros [-> ->]. done. Qed.

Lemma outOfOrder_before x y :
  validScore x -> validScore y -> outOfOrder y x = true <-> before x y.
Proof.
  intros Hx Hy. unfold outOfOrder, before.
  rewrite orb_true_iff, andb_true_iff, float_ltb_rank, float_eqb_rank,
    string_ltb_compare by done.
  split; (intros [H|[H1 H2]]; [by left|right; done]).
Qed.

Lemma inOrder_not_before x y :
  validScore x -> validScore y -> inOrder x y <-> ~ before y x.
Proof.
  intros Hx Hy. unfold inOrder. rewrite <- outOfOrder_before by done.
  destruct (outOfOrder x y); split; (done || congruence).
Qed.

Lemma inOrder_trans x y z :
  validScore x -> validScore y -> validScore z ->
  inOrder x y -> inOrder y z -> inOrder x z.
Proof.
  intros Hx Hy Hz. rewrite !inOrder_not_before by done. intros Hyx Hzy Hzx.
  destruct (before_total z y) as [H|[H|H]]; [done| |].
  - apply Hyx. eauto using before_tied_l.
  - apply Hyx. eauto using before_trans.
Qed.

Lemma before_inOrder x y : validScore x -> validScore y -> before x y -> inOrder x y.
Proof. intros Hx Hy H. apply inOrder_not_before; [done..|]. by apply before_asym. Qed.

Lemma tied_inOrder x y : validScore x -> validScore y -> tied x y -> inOrder x y.
Proof.
  intros Hx Hy H. apply inOrder_not_before; [done..|]. intros Hb.
  apply (before_irrefl y). eauto using before_tied_r, tied_sym.
Qed.

Lemma inOrder_total x y : validScore x -> validScore y -> inOrder x y \/ inOrder y x.
Proof.
  intros Hx Hy. destruct (before_total x y) as [H|[H|H]];
    eauto using before_inOrder, tied_inOrder.
Qed.

(** [compareScoreAndID] against the order. *)
Lemma compare_pos x p :
  validScore x -> validScore p ->
  0 < compareScoreAndID (candScore x) (candID x) (candScore p) (candID p) <-> before x p.
Proof.
  intros Hx Hp. unfold compareScoreAndID, before.
  destruct (Float32.ltb (candScore p) (candScore x)) eqn:H1.
  { apply float_ltb_rank in H1; [|done..]. split; [auto|lia]. }
  destruct (Float32.ltb (candScore x) (candScore p)) eqn:H2.
  { apply float_ltb_rank in H2; [|done..]. split; [lia|].
    intros [H|[H _]].
    - exfalso. eapply rankLt_irrefl, rankLt_trans; eauto.
    - rewrite H in H2. by apply rankLt_irrefl in H2. }
  assert (Heq : floatRank (candScore x) = floatRank (candScore p)).
  { destruct (rank_trichotomy (floatRank (candScore x)) (floatRank (candScore p)))
      as [H|[H|H]]; [|done|].
    - apply float_ltb_rank in H; [|done..]. congruence.
    - apply float_ltb_rank in H; [|done..]. congruence. }
  destruct (String.ltb (candID x) (candID p)) eqn:H3.
  { apply string_ltb_compare in H3. split; [auto|lia]. }
  assert (String.compare (candID x) (candID p) <> Lt).
  { intros H%string_ltb_compare. congruence. }
  split.
  - destruct (String.ltb (candID p) (candID x)); lia.
  - intros [H'|[_ H']]; [|done]. rewrite Heq in H'. by apply rankLt_irrefl in H'.
Qed.

Lemma compare_neg x p :
  validScore x -> validScore p ->
  compareScoreAndID (candScore x) (candID x) (candScore p) (candID p) < 0 <-> before p x.
Proof.
  intros Hx Hp. unfold compareScoreAndID, before.
  destruct (Float32.ltb (candScore p) (candScore x)) eqn:H1.
  { apply float_ltb_rank in H1; [|done..]. split; [lia|].
    intros [H|[H _]].
    - exfalso. eapply rankLt_irrefl, rankLt_trans; eauto.
    - rewrite H in H1. by apply rankLt_irrefl in H1. }
  destruct (Float32.ltb (candScore x) (candScore p)) eqn:H2.
  { apply float_ltb_rank in H2; [|done..]. split; [auto|lia]. }
  assert (Heq : floatRank (candScore x) = floatRank (candScore p)).
  { destruct (rank_trichotomy (floatRank (candScore x)) (floatRank (candScore p)))
      as [H|[H|H]]; [|done|].
    - apply float_ltb_rank in H; [|done..]. congruence.
    - apply float_ltb_rank in H; [|done..]. congruence. }
  destruct (String.ltb (candID x) (candID p)) eqn:H3.
  { apply string_ltb_compare in H3. split; [lia|].
    intros [H'|[_ H']].
    - rewrite Heq in H'. by apply rankLt_irrefl in H'.
    - apply string_compare_Gt in H'. congruence. }
  destruct (String.ltb (candID p) (candID x)) eqn:H4.
  { apply string_ltb_compare in H4. split; [auto|lia]. }
  split; [lia|].
  intros [H'|[_ H']].
  - rewrite Heq in H'. by apply rankLt_irrefl in H'.
  - apply string_ltb_compare in H'. congruence.
Qed.

Lemma compare_zero x p :
  validScore x -> validScore p ->
  ~ 0 < compareScoreAndID (candScore x) (candID x) (candScore p) (candID p) ->
  ~ compareScoreAndID (candScore x) (candID x) (candScore p) (candID p) < 0 ->
  tied x p.
Proof.
  intros Hx Hp H1 H2. rewrite compare_pos in H1 by done. rewrite compare_neg in H2 by done.
  destruct (before_total x p) as [H|[H|H]]; done.
Qed.

Local Close Scope Z_scope.
Local Open Scope nat_scope.

(** ** insertionSort *)

Lemma insertRight_nil x : insertRight [] x = [x].
Proof. done. Qed.

Lemma insertRight_snoc s y x :
  insertRight (s ++ [y]) x =
    if outOfOrder y x then insertRight s x ++ [y] else s ++ [y; x].
Proof.
  unfold insertRight. rewrite reverse_snoc. simpl.
  destruct (outOfOrder y x).
  - by rewrite reverse_cons.
  - rewrite !reverse_cons, reverse_involutive, <- app_assoc. done.
Qed.

Lemma length_insertRight s x : length (insertRight s x) = S (length s).
Proof.
  induction s as [|y s IH] using rev_ind; [done|].
  rewrite insertRight_snoc. destruct (outOfOrder y x); rewrite !length_app; simpl; lia.
Qed.

Lemma insertRight_perm s x : insertRight s x ≡ₚ x :: s.
Proof.
  induction s as [|y s IH] using rev_ind; [done|].
  rewrite insertRight_snoc. destruct (outOfOrder y x).
  - by rewrite IH.
  - change (s ++ [y; x]) with (s ++ [y] ++ [x]). rewrite app_assoc.
    apply (Permutation_app_comm (s ++ [y]) [x]).
Qed.

Lemma insertRight_sorted s x :
  Forall validScore s -> validScore x ->
  StronglySorted inOrder s -> StronglySorted inOrder (insertRight s x).
Proof.
  induction s as [|y s IH] using rev_ind; intros Hv Hx Hs.
  { repeat constructor. }
  rewrite Forall_app, Forall_singleton in Hv. destruct Hv as [Hvs Hvy].
  apply StronglySorted_app in Hs as (Hsy & Hs & _).
  rewrite insertRight_snoc. destruct (outOfOrder y x) eqn:Hyx.
  - apply StronglySorted_app_2; [|by apply IH|repeat constructor].
    intros u v Hu Hv'. apply list_elem_of_singleton in Hv' as ->.
    rewrite insertRight_perm in Hu. apply elem_of_cons in Hu as [->|Hu].
    + apply before_inOrder; [done..|]. by apply outOfOrder_before.
    + apply Hsy; [done|]. by apply list_elem_of_singleton.
  - apply StronglySorted_app_2; [|done|].
    + intros u v Hu Hv'. apply elem_of_cons in Hv' as [->|Hv'].
      * apply Hsy; [done|]. by apply list_elem_of_singleton.
      * apply list_elem_of_singleton in Hv' as ->.
        rewrite Forall_forall in Hvs.
        apply (inOrder_trans u y x); auto.
        apply Hsy; [done|]. by apply list_elem_of_singleton.
    + repeat constructor. done.
Qed.

Lemma shiftDown_S a left j saved :
  shiftDown a left (S j) saved =
    if (left <=? j) && outOfOrder (a !!! j) saved
    then shiftDown (<[S j := a !!! j]> a) left j saved
    else <[S j := saved]> a.
Proof. done. Qed.

Lemma insert_middle {A} (pre : list A) h post x :
  <[length pre := x]> (pre ++ h :: post) = pre ++ x :: post.
Proof.
  rewrite insert_app_r_alt by lia. by rewrite Nat.sub_diag.
Qed.

Lemma lookup_total_middle {A} `{!Inhabited A} (pre : list A) h post :
  (pre ++ h :: post) !!! length pre = h.
Proof. apply list_lookup_total_middle. done. Qed.

Lemma shiftDown_spec s : forall pre h post saved,
  shiftDown (pre ++ s ++ h :: post) (length pre) (length pre + length s) saved
  = pre ++ insertRight s saved ++ post.
Proof.
  induction s as [|y s IH] using rev_ind; intros pre h post saved.
  - simpl. rewrite Nat.add_0_r. destruct pre as [|p pre]; [done|].
    simpl length. rewrite shiftDown_S.
    replace (S (length pre) <=? length pre) with false by (symmetry; apply Nat.leb_gt; lia).
    simpl andb. cbv iota.
    change (S (length pre)) with (length (p :: pre)). by rewrite insert_middle.
  - rewrite length_app. simpl length.
    replace (length pre + (length s + 1)) with (S (length (pre ++ s)))
      by (rewrite length_app; lia).
    rewrite shiftDown_S.
    replace (length pre <=? length (pre ++ s)) with true
      by (symmetry; apply Nat.leb_le; rewrite length_app; lia).
    simpl andb.
    assert (Ha : pre ++ (s ++ [y]) ++ h :: post = (pre ++ s) ++ y :: h :: post).
    { by rewrite <- !app_assoc. }
    rewrite Ha, lookup_total_middle, insertRight_snoc.
    assert (Hb : (pre ++ s) ++ y :: h :: post = (pre ++ s ++ [y]) ++ h :: post).
    { by rewrite <- !app_assoc. }
    assert (Hl : S (length (pre ++ s)) = length (pre ++ s ++ [y])).
    { rewrite !length_app. simpl. lia. }
    destruct (outOfOrder y saved).
    + rewrite Hb, Hl, insert_middle. rewrite <- !app_assoc. simpl.
      rewrite length_app. by rewrite IH.
    + rewrite Hb, Hl, insert_middle. by rewrite <- !app_assoc.
Qed.

Lemma insertionSort_steps rest : forall sorted pre post,
  foldl (fun a i => shiftDown a (length pre) i (a !!! i))
        (pre ++ sorted ++ rest ++ post)
        (seq (length pre + length sorted) (length rest))
  = pre ++ sortedInsertions sorted rest ++ post.
Proof.
  induction rest as [|x rest IH]; intros sorted pre post; [done|].
  simpl.
  assert (Hx : (pre ++ sorted ++ x :: rest ++ post) !!! (length pre + length sorted) = x).
  { rewrite app_assoc, <- length_app. apply lookup_total_middle. }
  rewrite Hx, shiftDown_spec.
  replace (S (length pre + length sorted)) with (length pre + length (insertRight sorted x))
    by (rewrite length_insertRight; lia).
  apply IH.
Qed.

Lemma insertionSort_spec x mid pre post :
  insertionSort (pre ++ x :: mid ++ post) (length pre) (length pre + length mid)
  = pre ++ sortedInsertions [x] mid ++ post.
Proof.
  unfold insertionSort.
  replace (length pre + length mid - length pre) with (length mid) by lia.
  replace (length pre + 1) with (length pre + length [x]) by (simpl; lia).
  apply (insertionSort_steps mid [x] pre post).
Qed.

Lemma sortedInsertions_perm rest : forall sorted,
  sortedInsertions sorted rest ≡ₚ sorted ++ rest.
Proof.
  induction rest as [|x rest IH]; intros sorted; simpl.
  - by rewrite app_nil_r.
  - unfold sortedInsertions in *. simpl. rewrite IH, insertRight_perm.
    simpl. apply Permutation_middle.
Qed.

Lemma sortedInsertions_sorted rest : forall sorted,
  Forall validScore sorted -> Forall validScore rest ->
  StronglySorted inOrder sorted -> StronglySorted inOrder (sortedInsertions sorted rest).
Proof.
  induction rest as [|x rest IH]; intros sorted Hv1 Hv2 Hs; [done|].
  inversion Hv2; subst. unfold sortedInsertions in *. simpl.
  apply IH; [|done|by apply insertRight_sorted].
  rewrite insertRight_perm. by constructor.
Qed.

(** ** Arrays: permutations that leave the cells outside a range alone *)

Lemma slice_split {A} (a : list A) lo e :
  lo <= e -> a = take lo a ++ slice a lo e ++ drop e a.
Proof.
  intros H. unfold slice.
  replace (drop e a) with (drop (e - lo) (drop lo a)) by (rewrite drop_drop; f_equal; lia).
  by rewrite take_drop, take_drop.
Qed.

Lemma length_slice {A} (a : list A) lo e :
  lo <= e <= length a -> length (slice a lo e) = e - lo.
Proof. intros H. unfold slice. rewrite length_take, length_drop. lia. Qed.

Lemma perm_frame_split {A} (a a' : list A) lo e :
  a' ≡ₚ a -> (forall k, k < lo \/ e <= k -> a' !! k = a !! k) -> lo <= e ->
  take lo a' = take lo a /\ drop e a' = drop e a /\ slice a' lo e ≡ₚ slice a lo e.
Proof.
  intros Hp Hf Hle.
  assert (Ht : take lo a' = take lo a).
  { apply list_eq. intros k. rewrite !lookup_take.
    case_decide; [|done]. apply Hf. lia. }
  assert (Hd : drop e a' = drop e a).
  { apply list_eq. intros k. rewrite !lookup_drop. apply Hf. lia. }
  split; [done|]. split; [done|].
  assert (Hp' : take lo a ++ slice a' lo e ++ drop e a
                ≡ₚ take lo a ++ slice a lo e ++ drop e a).
  { rewrite <- (slice_split a lo e Hle). rewrite <- Ht, <- Hd.
    by rewrite <- (slice_split a' lo e Hle). }
  apply Permutation_app_inv_l in Hp'. by apply Permutation_app_inv_r in Hp'.
Qed.

(** ** shellSort *)

Lemma gapShift_length fuel : forall a gap j saved,
  length (gapShift fuel a gap j saved) = length a.
Proof.
  induction fuel as [|fuel IH]; intros a gap j saved; simpl.
  - by rewrite length_insert.
  - destruct (_ && _); [rewrite IH|]; by rewrite length_insert.
Qed.

Lemma gapShift_frame fuel : forall a gap j saved k,
  j < k -> gapShift fuel a gap j saved !! k = a !! k.
Proof.
  induction fuel as [|fuel IH]; intros a gap j saved k Hk; simpl.
  - rewrite list_lookup_insert_ne by lia. done.
  - destruct (_ && _).
    + rewrite IH by lia. rewrite list_lookup_insert_ne by lia. done.
    + rewrite list_lookup_insert_ne by lia. done.
Qed.

Lemma gapShift_perm fuel : forall a gap j saved,
  j < length a -> gapShift fuel a gap j saved ≡ₚ <[j := saved]> a.
Proof.
  induction fuel as [|fuel IH]; intros a gap j saved Hj; simpl; [done|].
  destruct (gap <=? j) eqn:Hg; simpl; [|done].
  destruct (outOfOrder _ _); [|done].
  apply Nat.leb_le in Hg.
  rewrite IH by (rewrite length_insert; lia).
  destruct (decide (gap = 0)) as [->|Hne].
  { rewrite Nat.sub_0_r, list_insert_insert_eq. done. }
  set (b := <[j := saved]> a).
  assert (Hb1 : b !! j = Some saved).
  { subst b. apply list_lookup_insert_eq. done. }
  assert (Hb2 : b !! (j - gap) = Some (a !!! (j - gap))).
  { subst b. rewrite list_lookup_insert_ne by lia.
    apply list_lookup_lookup_total_lt. lia. }
  rewrite <- (Permutation_insert_swap b j (j - gap) _ _ Hb1 Hb2).
  subst b. rewrite list_insert_insert_eq. done.
Qed.

Lemma gapPass_steps gap n idxs : forall a,
  Forall (fun i => i < n) idxs -> n <= length a ->
  let a' := foldl (fun a i => gapShift i a gap i (a !!! i)) a idxs in
  a' ≡ₚ a /\ length a' = length a /\ forall k, n <= k -> a' !! k = a !! k.
Proof.
  induction idxs as [|i idxs IH]; intros a Hi Hn; simpl; [done|].
  inversion Hi as [|? ? Hin Hi']; subst.
  assert (Hlen : length (gapShift i a gap i (a !!! i)) = length a)
    by apply gapShift_length.
  destruct (IH (gapShift i a gap i (a !!! i)) Hi' ltac:(lia)) as (Hp & Hl & Hf).
  split; [|split].
  - rewrite Hp, gapShift_perm by lia.
    rewrite list_insert_id; [done|]. apply list_lookup_lookup_total_lt. lia.
  - lia.
  - intros k Hk. rewrite Hf by done. apply gapShift_frame. lia.
Qed.

Lemma gapPass_spec n a gap :
  n <= length a ->
  gapPass n a gap ≡ₚ a /\ length (gapPass n a gap) = length a
  /\ forall k, n <= k -> gapPass n a gap !! k = a !! k.
Proof.
  intros Hn. unfold gapPass. apply gapPass_steps; [|done].
  apply Forall_forall. intros i Hi%elem_of_seq. lia.
Qed.

Lemma gapShift_one j : forall fuel a saved,
  j <= fuel -> gapShift fuel a 1 j saved = shiftDown a 0 j saved.
Proof.
  induction j as [|j IH]; intros fuel a saved Hf.
  - destruct fuel; done.
  - destruct fuel as [|fuel]; [lia|]. simpl.
    rewrite Nat.sub_0_r. destruct (outOfOrder (a !!! j) saved); [|done].
    apply IH. lia.
Qed.

Lemma gapPass_one n a : gapPass n a 1 = insertionSort a 0 (n - 1).
Proof.
  unfold gapPass, insertionSort. rewrite Nat.sub_0_r. simpl Nat.add.
  generalize (seq 1 (n - 1)). intros idxs. revert a.
  induction idxs as [|i idxs IH]; intros a; simpl; [done|].
  rewrite gapShift_one by done. apply IH.
Qed.

(** [shellSort] on the first [n] cells: the passes with gaps 5 and 3
    permute them, the pass with gap 1 is the insertion sort. *)
Lemma shellSort_spec mid post :
  mid <> [] -> Forall validScore mid ->
  exists mid', shellSort (mid ++ post) (length mid) = mid' ++ post
    /\ mid' ≡ₚ mid /\ StronglySorted inOrder mid'.
Proof.
  intros Hne Hv. unfold shellSort. simpl foldl.
  set (a := mid ++ post). set (n := length mid).
  assert (Hn : n <= length a) by (subst a n; rewrite length_app; lia).
  destruct (gapPass_spec n a 5 Hn) as (Hp5 & Hl5 & Hf5).
  set (a5 := gapPass n a 5) in *.
  destruct (gapPass_spec n a5 3 ltac:(lia)) as (Hp3 & Hl3 & Hf3).
  set (a3 := gapPass n a5 3) in *.
  rewrite gapPass_one.
  assert (Hp : a3 ≡ₚ a) by (by rewrite Hp3).
  assert (Hf : forall k, k < 0 \/ n <= k -> a3 !! k = a !! k).
  { intros k [?|?]; [lia|]. rewrite Hf3, Hf5 by done. done. }
  destruct (perm_frame_split a a3 0 n Hp Hf ltac:(lia)) as (_ & Hd & Hs).
  unfold slice in Hs. rewrite !drop_0, Nat.sub_0_r in Hs.
  assert (Hta : take n a = mid) by (subst a n; apply take_app_length).
  assert (Hda : drop n a = post) by (subst a n; apply drop_app_length).
  rewrite Hta in Hs. rewrite Hda in Hd.
  assert (Ha3 : a3 = take n a3 ++ post).
  { rewrite <- Hd. symmetry. apply take_drop. }
  clearbody a3 a5 a. clear Hp5 Hl5 Hf5 Hp3 Hl3 Hf3 Hp Hf Hda Hd.
  remember (take n a3) as t3 eqn:Hm3. clear Hm3 Hta.
  destruct t3 as [|x m3].
  { apply Permutation_nil in Hs. done. }
  assert (Hlen : length (x :: m3) = n) by (by rewrite Hs).
  exists (sortedInsertions [x] m3).
  assert (Hv3 : Forall validScore (x :: m3)) by (by rewrite Hs).
  apply Forall_cons in Hv3 as [Hvx Hvm].
  split; [|split].
  - rewrite Ha3.
    pose proof (insertionSort_spec x m3 [] post) as H. simpl in H.
    simpl in Hlen. replace (n - 1) with (length m3) by lia. exact H.
  - rewrite sortedInsertions_perm. done.
  - apply sortedInsertions_sorted; [by repeat constructor|done|repeat constructor].
Qed.

(** ** quickSort *)

Lemma swapCandidates_length a i j : length (swapCandidates a i j) = length a.
Proof. unfold swapCandidates. by rewrite !length_insert. Qed.

Lemma swapCandidates_lookup_total a i j k :
  i < length a -> j < length a ->
  swapCandidates a i j !!! k =
    if decide (k = j) then a !!! i else if decide (k = i) then a !!! j else a !!! k.
Proof.
  intros Hi Hj. unfold swapCandidates.
  destruct (decide (k = j)) as [->|Hkj].
  { rewrite list_lookup_total_insert_eq by (rewrite length_insert; lia). done. }
  rewrite list_lookup_total_insert_ne by done.
  destruct (decide (k = i)) as [->|Hki].
  { rewrite list_lookup_total_insert_eq by lia. done. }
  rewrite list_lookup_total_insert_ne by done. done.
Qed.

Lemma swapCandidates_lookup_ne a i j k :
  k <> i -> k <> j -> swapCandidates a i j !! k = a !! k.
Proof.
  intros Hi Hj. unfold swapCandidates. by rewrite !list_lookup_insert_ne by done.
Qed.

Lemma swapCandidates_perm a i j :
  i < length a -> j < length a -> swapCandidates a i j ≡ₚ a.
Proof.
  intros Hi Hj. unfold swapCandidates.
  apply Permutation_insert_swap; by apply list_lookup_lookup_total_lt.
Qed.

Ltac swap_index :=
  intros;
  rewrite swapCandidates_lookup_total by lia;
  repeat case_decide; subst; try lia; eauto with lia.

Lemma partitionLoop_spec a0 p low high fuel : forall a lt i gt,
  validScore p -> PartInv a0 a p low high lt i gt -> gt - i <= fuel ->
  exists a' lt' gt', partitionLoop fuel a p lt i gt = (a', lt', gt')
    /\ PartInv a0 a' p low high lt' gt' gt'.
Proof.
  induction fuel as [|fuel IH]; intros a lt i gt Hp Hinv Hfuel.
  { simpl. exists a, lt, gt. split; [done|].
    destruct Hinv as (?&?&?&?&?&?&?&?&?&?&?).
    assert (gt = i) as -> by lia. unfold PartInv. split_and!; auto. }
  simpl. destruct (Nat.ltb_spec i gt) as [Hlt|Hge].
  2:{ exists a, lt, gt. split; [done|].
      destruct Hinv as (?&?&?&?&?&?&?&?&?&?&?).
      assert (gt = i) as -> by lia. unfold PartInv. split_and!; auto. }
  destruct Hinv as (Hperm & Hframe & H1 & H2 & H3 & H4 & H5 & Hval & Hz1 & Hz2 & Hz3).
  assert (Hvi : validScore (a !!! i)) by (apply Hval; lia).
  destruct (Z.ltb_spec 0 (compareScoreAndID (candScore (a !!! i)) (candID (a !!! i))
                                            (candScore p) (candID p))) as [Hpos|Hnpos].
  - apply compare_pos in Hpos; [|done..].
    apply IH; [done| |lia].
    unfold PartInv. split_and!; try lia.
    + rewrite swapCandidates_perm by lia. done.
    + intros k Hk. rewrite swapCandidates_lookup_ne by lia. by apply Hframe.
    + by rewrite swapCandidates_length.
    + swap_index.
    + swap_index.
    + swap_index.
    + swap_index.
  - destruct (Z.ltb_spec (compareScoreAndID (candScore (a !!! i)) (candID (a !!! i))
                                            (candScore p) (candID p)) 0) as [Hneg|Hnneg].
    + apply compare_neg in Hneg; [|done..].
      apply IH; [done| |lia].
      unfold PartInv. split_and!; try lia.
      * rewrite swapCandidates_perm by lia. done.
      * intros k Hk. rewrite swapCandidates_lookup_ne by lia. by apply Hframe.
      * by rewrite swapCandidates_length.
      * swap_index.
      * swap_index.
      * swap_index.
      * swap_index.
    + assert (Htied : tied (a !!! i) p) by (apply compare_zero; (done || lia)).
      apply IH; [done| |lia].
      unfold PartInv. split_and!; try lia; auto.
      intros k Hk. destruct (decide (k = i)) as [->|]; [done|]. apply Hz2. lia.
Qed.

Lemma tied_refl x : tied x x.
Proof. done. Qed.

Lemma partition3Way_spec a low high :
  low <= high -> high < length a ->
  (forall k, low <= k <= high -> validScore (a !!! k)) ->
  exists a' lt gt, partition3Way a low high = (a', lt, gt)
    /\ a' ≡ₚ a /\ (forall k, k < low \/ high < k -> a' !! k = a !! k)
    /\ low <= lt <= gt /\ gt <= high
    /\ validScore (a !!! low)
    /\ (forall k, low <= k < lt -> before (a' !!! k) (a !!! low))
    /\ (forall k, lt <= k <= gt -> tied (a' !!! k) (a !!! low))
    /\ (forall k, gt < k <= high -> before (a !!! low) (a' !!! k)).
Proof.
  intros Hlh Hhigh Hval. unfold partition3Way.
  assert (Hp : validScore (a !!! low)) by (apply Hval; lia).
  destruct (partitionLoop_spec a (a !!! low) low high (high - low) a low (low + 1) (high + 1))
    as (a' & lt & gt & Heq & Hinv); [done| |lia|].
  { unfold PartInv. split_and!; try lia; auto; intros k Hk; try lia.
    replace k with low by lia. apply tied_refl. }
  rewrite Heq. exists a', lt, (gt - 1).
  destruct Hinv as (Hperm & Hframe & H1 & H2 & H3 & H4 & H5 & Hval' & Hz1 & Hz2 & Hz3).
  split; [done|]. split_and!; try lia; auto.
  - intros k Hk. apply Hz2. lia.
  - intros k Hk. apply Hz3. lia.
Qed.

Lemma Forall_slice_lookup {A} `{!Inhabited A} (P : A -> Prop) (l : list A) lo e :
  e <= length l -> (forall k, lo <= k < e -> P (l !!! k)) -> Forall P (slice l lo e).
Proof.
  intros He H. unfold slice. apply Forall_lookup_2.
  intros i x Hi. pose proof (lookup_lt_Some _ _ _ Hi) as Hlt.
  rewrite length_take, length_drop in Hlt.
  rewrite lookup_take_lt, lookup_drop in Hi by lia.
  apply list_lookup_total_correct in Hi as <-. apply H. lia.
Qed.

Lemma lookup_total_middle_part {A} `{!Inhabited A} (pre mid post : list A) k :
  length pre <= k < length pre + length mid ->
  (pre ++ mid ++ post) !!! k = mid !!! (k - length pre).
Proof.
  intros Hk. rewrite lookup_total_app_r by lia. rewrite lookup_total_app_l by lia. done.
Qed.

(** [partition3Way] on a middle segment: three runs, the candidates
    before the pivot, those tied with it, those after it. *)
Lemma partition3Way_decomp pre mid post :
  mid <> [] -> Forall validScore mid ->
  exists L E G p,
    partition3Way (pre ++ mid ++ post) (length pre) (length pre + length mid - 1)
      = (pre ++ (L ++ E ++ G) ++ post, length pre + length L,
         length pre + length L + length E - 1)
    /\ E <> [] /\ L ++ E ++ G ≡ₚ mid /\ validScore p
    /\ Forall (fun x => before x p) L /\ Forall (fun x => tied x p) E
    /\ Forall (before p) G.
Proof.
  intros Hne Hv.
  assert (Hlen : 0 < length mid) by (destruct mid; simpl; [done|lia]).
  set (a := pre ++ mid ++ post).
  set (high := length pre + length mid - 1). set (low := length pre).
  assert (Hla : length a = length pre + length mid + length post).
  { subst a. rewrite !length_app. lia. }
  destruct (partition3Way_spec a low high) as
    (a' & lt & gt & Heq & Hperm & Hframe & Hb1 & Hb2 & Hvp & Hz1 & Hz2 & Hz3).
  { subst low high. lia. }
  { subst low high. lia. }
  { intros k Hk. subst a low high. rewrite lookup_total_middle_part by lia.
    apply Forall_lookup_total_1; [done|lia]. }
  assert (Hframe' : forall k, k < low \/ S high <= k -> a' !! k = a !! k).
  { intros k Hk. apply Hframe. lia. }
  destruct (perm_frame_split a a' low (S high) Hperm Hframe' ltac:(subst low high; lia))
    as (Ht & Hd & Hs).
  assert (Hta : take low a = pre) by (subst a low; apply take_app_length).
  assert (Hda : drop (S high) a = post).
  { subst a high low. rewrite app_assoc. apply drop_app_length'. rewrite length_app. lia. }
  assert (Hsa : slice a low (S high) = mid).
  { subst a high low. unfold slice. rewrite drop_app_length.
    apply take_app_length'. lia. }
  rewrite Hta in Ht. rewrite Hda in Hd. rewrite Hsa in Hs.
  set (M := slice a' low (S high)) in *.
  assert (Ha' : a' = pre ++ M ++ post).
  { rewrite (slice_split a' low (S high)) at 1 by (subst low high; lia).
    by rewrite Ht, Hd. }
  assert (HlM : length M = length mid) by (by rewrite Hs).
  assert (HM : forall k, k < length M -> M !!! k = a' !!! (low + k)).
  { intros k Hk. rewrite Ha'. subst low. rewrite lookup_total_middle_part by lia.
    f_equal. lia. }
  exists (take (lt - low) M), (slice M (lt - low) (S gt - low)), (drop (S gt - low) M),
    (a !!! low).
  assert (HMsplit : take (lt - low) M ++ slice M (lt - low) (S gt - low)
                    ++ drop (S gt - low) M = M).
  { symmetry. apply slice_split. lia. }
  assert (HlE : length (slice M (lt - low) (S gt - low)) = S gt - lt).
  { rewrite length_slice; subst low high; lia. }
  split; [|split; [|split; [|split; [|split; [|split]]]]].
  - rewrite Heq, HMsplit, <- Ha'. f_equal; [f_equal|].
    + rewrite length_take. subst low high. lia.
    + rewrite length_take, HlE. subst low high. lia.
  - intros HE. rewrite HE in HlE. simpl in HlE. lia.
  - by rewrite HMsplit.
  - done.
  - replace (take (lt - low) M) with (slice M 0 (lt - low))
      by (unfold slice; by rewrite drop_0, Nat.sub_0_r).
    apply Forall_slice_lookup; [subst low high; lia|].
    intros k Hk. rewrite HM by (subst low high; lia). apply Hz1. lia.
  - apply Forall_slice_lookup; [subst low high; lia|].
    intros k Hk. rewrite HM by (subst low high; lia). apply Hz2. lia.
  - replace (drop (S gt - low) M) with (slice M (S gt - low) (length M)).
    2:{ unfold slice. apply take_ge. rewrite length_drop. lia. }
    apply Forall_slice_lookup; [lia|].
    intros k Hk. rewrite HM by lia. apply Hz3. subst low high. lia.
Qed.

Lemma three_way_sorted (p : Candidate) (L E G : list Candidate) :
  validScore p ->
  Forall validScore L -> Forall validScore E -> Forall validScore G ->
  Forall (fun x => before x p) L -> Forall (fun x => tied x p) E -> Forall (before p) G ->
  StronglySorted inOrder L -> StronglySorted inOrder G ->
  StronglySorted inOrder (L ++ E ++ G).
Proof.
  rewrite !Forall_forall. intros Hp HvL HvE HvG HL HE HG HsL HsG.
  apply StronglySorted_app_2; [|done|apply StronglySorted_app_2; [|idtac|done]].
  - intros x y Hx [Hy|Hy]%elem_of_app.
    + apply before_inOrder; auto. eapply before_tied_r; [apply tied_sym; eauto|auto].
    + apply before_inOrder; auto. eapply before_trans; eauto.
  - intros x y Hx Hy. apply before_inOrder; auto.
    eapply before_tied_l; [apply tied_sym; eauto|auto].
  - assert (Hall : forall x y, x ∈ E -> y ∈ E -> inOrder x y).
    { intros x y Hx Hy. apply tied_inOrder; auto.
      destruct (HE x Hx) as [E1 E2], (HE y Hy) as [E3 E4]. split; congruence. }
    clear -Hall. induction E as [|e E IH]; constructor.
    + apply IH. intros x y Hx Hy. apply Hall; by right.
    + apply Forall_forall. intros y Hy. apply Hall; [by left|by right].
Qed.

Lemma short_sorted (mid : list Candidate) :
  Forall validScore mid -> length mid <= 1 -> StronglySorted inOrder mid.
Proof.
  intros Hv Hl. destruct mid as [|x [|y mid]]; simpl in Hl; try lia; repeat constructor.
Qed.

Lemma quickSort_S fuel a low high :
  quickSort (S fuel) a low high =
    if (low <? high)%Z then
      if (high - low <? 10)%Z then insertionSort a (Z.to_nat low) (Z.to_nat high)
      else
        let '(a, lt, gt) := partition3Way a (Z.to_nat low) (Z.to_nat high) in
        let lt := Z.of_nat lt in
        let gt := Z.of_nat gt in
        if (lt - low <? high - gt)%Z then
          let a := quickSort fuel a low (lt - 1)%Z in
          quickSort fuel a (gt + 1)%Z high
        else
          let a := quickSort fuel a (gt + 1)%Z high in
          quickSort fuel a low (lt - 1)%Z
    else a.
Proof. done. Qed.

Lemma quickSort_spec fuel : forall mid pre post,
  length mid <= fuel -> Forall validScore mid ->
  exists mid',
    quickSort fuel (pre ++ mid ++ post) (Z.of_nat (length pre))
              (Z.of_nat (length pre + length mid) - 1)
      = pre ++ mid' ++ post
    /\ mid' ≡ₚ mid /\ StronglySorted inOrder mid'.
Proof.
  induction fuel as [|fuel IH]; intros mid pre post Hlen Hv.
  { destruct mid; [|simpl in Hlen; lia]. exists []. simpl. repeat split; constructor. }
  rewrite quickSort_S.
  destruct (Z.ltb_spec (Z.of_nat (length pre)) (Z.of_nat (length pre + length mid) - 1))
    as [Hlt|Hge].
  2:{ exists mid. split; [done|]. split; [done|]. apply short_sorted; [done|lia]. }
  destruct (Z.ltb_spec (Z.of_nat (length pre + length mid) - 1 - Z.of_nat (length pre)) 10)
    as [Hsmall|Hbig].
  { destruct mid as [|x mid0]; [simpl in Hlt; lia|].
    exists (sortedInsertions [x] mid0).
    apply Forall_cons in Hv as [Hvx Hv0].
    split; [|split].
    - rewrite Nat2Z.id.
      replace (Z.to_nat (Z.of_nat (length pre + length (x :: mid0)) - 1))
        with (length pre + length mid0) by (simpl; lia).
      apply insertionSort_spec.
    - apply sortedInsertions_perm.
    - apply sortedInsertions_sorted; [by repeat constructor|done|repeat constructor]. }
  rewrite Nat2Z.id.
  replace (Z.to_nat (Z.of_nat (length pre + length mid) - 1))
    with (length pre + length mid - 1) by lia.
  destruct (partition3Way_decomp pre mid post) as
    (L & E & G & p & Heq & HE & Hperm & Hp & HL & HEt & HG); [|done|].
  { intros ->. simpl in Hlt. lia. }
  rewrite Heq.
  assert (HlE : 0 < length E) by (destruct E; simpl; [done|lia]).
  assert (Hlm : length mid = length L + length E + length G).
  { rewrite <- Hperm, !length_app. lia. }
  assert (Hvall : Forall validScore (L ++ E ++ G)) by (by rewrite Hperm).
  rewrite !Forall_app in Hvall. destruct Hvall as (HvL & HvE & HvG).
  destruct (IH L pre (E ++ G ++ post) ltac:(lia) HvL) as (L' & HqL & HpL & HsL).
  assert (HlL' : length L' = length L) by (by rewrite HpL).
  destruct (IH G (pre ++ L' ++ E) post ltac:(lia) HvG) as (G' & HqG & HpG & HsG).
  destruct (IH G (pre ++ L ++ E) post ltac:(lia) HvG) as (G2 & HqG2 & HpG2 & HsG2).
  assert (HlG2 : length G2 = length G) by (by rewrite HpG2).
  destruct (IH L pre (E ++ G2 ++ post) ltac:(lia) HvL) as (L2 & HqL2 & HpL2 & HsL2).
  cbv zeta.
  destruct (_ <? _)%Z.
  - exists (L' ++ E ++ G'). split; [|split].
    + replace (pre ++ (L ++ E ++ G) ++ post) with (pre ++ L ++ E ++ G ++ post)
        by (by rewrite <- !app_assoc).
      rewrite HqL.
      replace (pre ++ L' ++ E ++ G ++ post) with ((pre ++ L' ++ E) ++ G ++ post)
        by (by rewrite <- !app_assoc).
      replace (Z.of_nat (length pre + length L + length E - 1) + 1)%Z
        with (Z.of_nat (length (pre ++ L' ++ E))) by (rewrite !length_app; lia).
      replace (Z.of_nat (length pre + length mid) - 1)%Z
        with (Z.of_nat (length (pre ++ L' ++ E) + length G) - 1)%Z
        by (rewrite !length_app; lia).
      rewrite HqG. by rewrite <- !app_assoc.
    + by rewrite HpL, HpG.
    + apply (three_way_sorted p); try done.
      * by rewrite HpL.
      * by rewrite HpG.
      * by rewrite HpL.
      * by rewrite HpG.
  - exists (L2 ++ E ++ G2). split; [|split].
    + replace (pre ++ (L ++ E ++ G) ++ post) with ((pre ++ L ++ E) ++ G ++ post)
        by (by rewrite <- !app_assoc).
      replace (Z.of_nat (length pre + length L + length E - 1) + 1)%Z
        with (Z.of_nat (length (pre ++ L ++ E))) by (rewrite !length_app; lia).
      replace (Z.of_nat (length pre + length mid) - 1)%Z
        with (Z.of_nat (length (pre ++ L ++ E) + length G) - 1)%Z
        by (rewrite !length_app; lia).
      rewrite HqG2.
      replace ((pre ++ L ++ E) ++ G2 ++ post) with (pre ++ L ++ E ++ G2 ++ post)
        by (by rewrite <- !app_assoc).
      rewrite HqL2. by rewrite <- !app_assoc.
    + by rewrite HpL2, HpG2.
    + apply (three_way_sorted p); try done.
      * by rewrite HpL2.
      * by rewrite HpG2.
      * by rewrite HpL2.
      * by rewrite HpG2.
Qed.

Lemma inOrder_rankedNoLater x y :
  validScore x -> validScore y -> inOrder x y -> rankedNoLater x y.
Proof.
  intros Hx Hy H. apply inOrder_not_before in H; [|done..].
  unfold rankedNoLater. rewrite float_ltb_rank, float_eqb_rank by done.
  destruct (before_total x y) as [Hb|[Ht|Hb]]; [| |done].
  - destruct Hb as [Hb|[Hb1 Hb2]]; [by left|right]. split; [done|].
    unfold String.leb. by rewrite Hb2.
  - destruct Ht as [Ht1 Ht2]. right. split; [done|].
    unfold String.leb. by rewrite Ht2, string_compare_refl.
Qed.

Lemma sorted_rankedNoLater l :
  Forall validScore l -> StronglySorted inOrder l -> StronglySorted rankedNoLater l.
Proof.
  intros Hv Hs. induction Hs as [|x l Hs IH Hx]; [constructor|].
  apply Forall_cons in Hv as [Hvx Hvl]. constructor; [by apply IH|].
  rewrite Forall_forall in *. intros y Hy. apply inOrder_rankedNoLater; auto.
Qed.

Lemma rankedNoLater_antisym x y :
  validScore x -> validScore y ->
  rankedNoLater x y -> rankedNoLater y x -> candID x = candID y.
Proof.
  intros Hx Hy. unfold rankedNoLater.
  rewrite !float_ltb_rank, !float_eqb_rank by done.
  intros [H1|[H1 H1']] [H2|[H2 H2']].
  - exfalso. eapply rankLt_irrefl, rankLt_trans; eauto.
  - rewrite H2 in H1. by apply rankLt_irrefl in H1.
  - rewrite H1 in H2. by apply rankLt_irrefl in H2.
  - by apply String.leb_antisym.
Qed.

Lemma sortsPrefix_intro n a mid' :
  n <= length a -> Forall validScore (take n a) ->
  mid' ≡ₚ take n a -> StronglySorted inOrder mid' ->
  sortsPrefix n a (mid' ++ drop n a).
Proof.
  intros Hn Hv Hp Hs.
  assert (Hl : length mid' = n) by (rewrite Hp, length_take; lia).
  unfold sortsPrefix. rewrite take_app_length', drop_app_length' by done.
  split; [done|]. split; [done|]. apply sorted_rankedNoLater; [|done]. by rewrite Hp.
Qed.

Lemma insertionSort_sortsPrefix n a :
  n <= length a -> Forall validScore (take n a) ->
  sortsPrefix n a (insertionSort a 0 (n - 1)).
Proof.
  intros Hn Hv. rewrite <- (take_drop n a) at 2.
  destruct (take n a) as [|x mid0] eqn:Hmid.
  { assert (n = 0) as -> by (apply (f_equal length) in Hmid; rewrite length_take in Hmid;
      simpl in Hmid; lia).
    apply (sortsPrefix_intro 0 a []); try done. constructor. }
  assert (Hl : n = S (length mid0)).
  { apply (f_equal length) in Hmid. rewrite length_take in Hmid. simpl in Hmid. lia. }
  pose proof (insertionSort_spec x mid0 [] (drop n a)) as H. simpl in H.
  replace (n - 1) with (length mid0) by lia. simpl. rewrite H.
  apply Forall_cons in Hv as [Hvx Hv0].
  apply sortsPrefix_intro; [done|by rewrite Hmid; constructor| |].
  - by rewrite sortedInsertions_perm, Hmid.
  - apply sortedInsertions_sorted; [by repeat constructor|done|repeat constructor].
Qed.

Lemma shellSort_sortsPrefix n a :
  n <= length a -> Forall validScore (take n a) ->
  sortsPrefix n a (shellSort a n).
Proof.
  intros Hn Hv.
  destruct (decide (n = 0)) as [->|Hne].
  { apply (sortsPrefix_intro 0 a []); try done. constructor. }
  assert (Hl : length (take n a) = n) by (rewrite length_take; lia).
  destruct (shellSort_spec (take n a) (drop n a)) as (mid' & Heq & Hp & Hs); [|done|].
  { intros H. rewrite H in Hl. simpl in Hl. lia. }
  rewrite take_drop, Hl in Heq. rewrite Heq. by apply sortsPrefix_intro.
Qed.

Lemma quickSort_sortsPrefix n a :
  n <= length a -> Forall validScore (take n a) ->
  sortsPrefix n a (quickSort n a 0 (Z.of_nat n - 1)).
Proof.
  intros Hn Hv.
  assert (Hl : length (take n a) = n) by (rewrite length_take; lia).
  destruct (quickSort_spec n (take n a) [] (drop n a)) as (mid' & Heq & Hp & Hs);
    [lia|done|].
  simpl in Heq. change (Z.of_nat 0) with 0%Z in Heq.
  rewrite take_drop, Hl in Heq. rewrite Heq. by apply sortsPrefix_intro.
Qed.

Lemma NoDup_fmap_inj_on {A B} (f : A -> B) (l : list A) x y :
  NoDup (f <$> l) -> x ∈ l -> y ∈ l -> f x = f y -> x = y.
Proof.
  intros Hnd [i Hi]%list_elem_of_lookup [j Hj]%list_elem_of_lookup Hf.
  assert (i = j) as ->; [|congruence].
  eapply NoDup_lookup; [exact Hnd| |]; rewrite list_lookup_fmap.
  - by rewrite Hi.
  - rewrite Hj. simpl. by rewrite Hf.
Qed.

Lemma sortsPrefix_unique n a out1 out2 :
  Forall validScore (take n a) -> NoDup (candID <$> take n a) ->
  sortsPrefix n a out1 -> sortsPrefix n a out2 -> out1 = out2.
Proof.
  intros Hv Hnd (Hp1 & Hd1 & Hs1) (Hp2 & Hd2 & Hs2).
  rewrite <- (take_drop n out1), <- (take_drop n out2), Hd1, Hd2. f_equal.
  apply (StronglySorted_unique_strong rankedNoLater); [|done|done|by rewrite Hp1, Hp2].
  intros x y Hx Hy Hxy Hyx. rewrite Hp1 in Hx. rewrite Hp2 in Hy.
  rewrite Forall_forall in Hv.
  eapply (NoDup_fmap_inj_on candID); eauto.
  apply rankedNoLater_antisym; auto.
Qed.

Lemma sortCandidates_sortsPrefix (ctx : Context) :
  candidateCount ctx <= length (candidates ctx) ->
  Forall validScore (take (candidateCount ctx) (candidates ctx)) ->
  candidateCount (sortCandidates ctx) = candidateCount ctx
  /\ sortsPrefix (candidateCount ctx) (candidates ctx) (candidates (sortCandidates ctx)).
Proof.
  intros Hn Hv. set (n := candidateCount ctx) in *. set (a := candidates ctx) in *.
  pose proof (insertionSort_sortsPrefix n a Hn Hv) as Hi.
  pose proof (shellSort_sortsPrefix n a Hn Hv) as Hs.
  pose proof (quickSort_sortsPrefix n a Hn Hv) as Hq.
  split.
  - unfold sortCandidates. fold n. repeat case_match; done.
  - unfold sortCandidates. fold n a.
    destruct (Nat.leb_spec n 1) as [H1|H1].
    { assert (Hl : length (take n a) <= 1) by (rewrite length_take; lia).
      pose proof (sortsPrefix_intro n a (take n a) Hn Hv (reflexivity _)
                    (short_sorted _ Hv Hl)) as H.
      by rewrite take_drop in H. }
    repeat case_match; done.
Qed.

(** C2: [sortCandidates] leaves the candidate count alone and
    rearranges the first [n] candidates into a permutation of
    themselves in which no candidate is followed by one that ranks
    strictly before it (a higher score, or an equal score and a smaller
    identifier); the cells from [n] on are untouched.  Each of the three
    algorithms does so on every array, whatever the count, and when the
    identifiers are pairwise distinct the three produce the very same
    array.  Scores are assumed not to be NaN. *)
Theorem sortCandidates_ranking (ctx : Context) :
  candidateCount ctx <= length (candidates ctx) ->
  Forall validScore (take (candidateCount ctx) (candidates ctx)) ->
  let n := candidateCount ctx in
  let a := candidates ctx in
  candidateCount (sortCandidates ctx) = n
  /\ sortsPrefix n a (candidates (sortCandidates ctx))
  /\ sortsPrefix n a (insertionSort a 0 (n - 1))
  /\ sortsPrefix n a (shellSort a n)
  /\ sortsPrefix n a (quickSort n a 0 (Z.of_nat n - 1))
  /\ (NoDup (candID <$> take n a) ->
      insertionSort a 0 (n - 1) = shellSort a n
      /\ shellSort a n = quickSort n a 0 (Z.of_nat n - 1)).
Proof.
  intros Hn Hv n a.
  pose proof (insertionSort_sortsPrefix n a Hn Hv) as Hi.
  pose proof (shellSort_sortsPrefix n a Hn Hv) as Hs.
  pose proof (quickSort_sortsPrefix n a Hn Hv) as Hq.
  destruct (sortCandidates_sortsPrefix ctx Hn Hv) as [Hc Hp].
  split_and!; try done.
  intros Hnd. split; eapply sortsPrefix_unique; eauto.
Qed.

(** ** The candidate set *)

Lemma idLt_trans a b c : idLt a b -> idLt b c -> idLt a c.
Proof. unfold idLt. rewrite !string_ltb_compare. apply string_compare_trans. Qed.

Lemma idLt_irrefl a : ~ idLt a a.
Proof. unfold idLt. rewrite string_ltb_compare, string_compare_refl. done. Qed.

Lemma idLt_trichotomy a b : idLt a b \/ a = b \/ idLt b a.
Proof.
  unfold idLt. rewrite !string_ltb_compare.
  destruct (String.compare a b) eqn:H.
  - apply String.compare_eq_iff in H. auto.
  - auto.
  - apply string_compare_Gt in H. auto.
Qed.

Lemma string_eqb_eq (a b : string) : String.eqb a b = true <-> a = b.
Proof. apply String.eqb_eq. Qed.

Lemma sorted_lookup (l : list string) i j :
  StronglySorted idLt l -> i < j -> j < length l -> idLt (l !!! i) (l !!! j).
Proof.
  intros Hs. revert i j. induction Hs as [|x l Hs IH Hx]; intros i j Hij Hj.
  { simpl in Hj. lia. }
  destruct j as [|j]; [lia|]. simpl in Hj. destruct i as [|i].
  - simpl. rewrite Forall_forall in Hx. apply Hx.
    apply list_elem_of_lookup_total_2. lia.
  - simpl. apply IH; lia.
Qed.

Lemma lowerBound_S fuel set docID left right :
  lowerBound (S fuel) set docID left right =
    if left <? right then
      if String.ltb (set !!! ((left + right) / 2)) docID
      then lowerBound fuel set docID ((left + right) / 2 + 1) right
      else lowerBound fuel set docID left ((left + right) / 2)
    else left.
Proof. done. Qed.

Lemma lowerBound_spec (set : list string) (docID : string) (n : nat) :
  n <= length set -> StronglySorted idLt (take n set) ->
  forall fuel left right,
    left <= right <= n -> right - left <= fuel ->
    (forall k, k < left -> idLt (set !!! k) docID) ->
    (forall k, right <= k < n -> ~ idLt (set !!! k) docID) ->
    let pos := lowerBound fuel set docID left right in
    pos <= n
    /\ (forall k, k < pos -> idLt (set !!! k) docID)
    /\ (forall k, pos <= k < n -> ~ idLt (set !!! k) docID).
Proof.
  intros Hn Hs.
  assert (Hord : forall i j, i < j -> j < n -> idLt (set !!! i) (set !!! j)).
  { intros i j Hij Hj.
    rewrite <- (lookup_total_take_lt set n i), <- (lookup_total_take_lt set n j) by lia.
    apply sorted_lookup; [done|done|]. rewrite length_take. lia. }
  induction fuel as [|fuel IH]; intros left right Hlr Hfuel Hlo Hhi.
  { simpl. assert (left = right) as -> by lia. split; [lia|]. split; done. }
  rewrite lowerBound_S.
  destruct (Nat.ltb_spec left right) as [Hlt|Hge].
  2:{ assert (left = right) as -> by lia. split; [lia|]. split; done. }
  assert (Hmid : left <= (left + right) / 2 < right).
  { split; [apply Nat.div_le_lower_bound; lia|apply Nat.Div0.div_lt_upper_bound; lia]. }
  destruct (String.ltb (set !!! ((left + right) / 2)) docID) eqn:Hcmp.
  - apply IH; [lia|lia| |done].
    intros k Hk. destruct (decide (k = (left + right) / 2)) as [->|Hne]; [done|].
    apply (idLt_trans _ (set !!! ((left + right) / 2))); [|done].
    apply Hord; lia.
  - apply IH; [lia|lia|done|].
    intros k Hk Hlt'. destruct (decide (k = (left + right) / 2)) as [->|Hne].
    { unfold idLt in Hlt'. congruence. }
    destruct (decide (k < right)) as [Hkr|Hkr]; [|apply (Hhi k); [lia|done]].
    assert (idLt (set !!! ((left + right) / 2)) docID).
    { apply (idLt_trans _ (set !!! k)); [|done]. apply Hord; lia. }
    unfold idLt in *. congruence.
Qed.

Lemma copyInto_shift (set : list string) left n d :
  left <= n -> n < length set ->
  <[left := d]> (copyInto set (left + 1) (slice set left n))
  = take left set ++ d :: slice set left n ++ drop (S n) set.
Proof.
  intros Hl Hn. unfold copyInto.
  assert (Hls : length (slice set left n) = n - left).
  { unfold slice. rewrite length_take, length_drop. lia. }
  rewrite take_ge.
  2:{ rewrite !length_app, length_take, length_drop, Hls. lia. }
  rewrite Hls.
  replace (left + 1 + (n - left)) with (S n) by lia.
  replace (left + 1) with (S left) by lia.
  rewrite (take_S_r set left (set !!! left)) by (apply list_lookup_lookup_total_lt; lia).
  rewrite <- app_assoc. simpl.
  assert (Hlt : length (take left set) = left) by (rewrite length_take; lia).
  rewrite insert_app_r_alt by lia. by rewrite Hlt, Nat.sub_diag.
Qed.

Lemma slice_prefix_split {A} (l : list A) left n :
  left <= n -> take n l = take left l ++ slice l left n.
Proof.
  intros H. unfold slice. rewrite <- (take_drop left (take n l)).
  rewrite take_take, Nat.min_l by lia. f_equal.
  rewrite take_drop_commute. do 2 f_equal. lia.
Qed.

Lemma Forall_take_lookup {A} `{!Inhabited A} (P : A -> Prop) (l : list A) n :
  n <= length l -> (forall k, k < n -> P (l !!! k)) -> Forall P (take n l).
Proof.
  intros Hn H. apply Forall_lookup_2. intros i x Hi.
  pose proof (lookup_lt_Some _ _ _ Hi) as Hlt. rewrite length_take in Hlt.
  rewrite lookup_take_lt in Hi by lia.
  apply list_lookup_total_correct in Hi as <-. apply H. lia.
Qed.

Lemma sorted_insert_middle (pre mid : list string) (d : string) :
  StronglySorted idLt (pre ++ mid) ->
  Forall (fun x => idLt x d) pre -> Forall (idLt d) mid ->
  StronglySorted idLt (pre ++ d :: mid).
Proof.
  intros Hs Hpre Hmid. apply StronglySorted_app in Hs as (Hpm & Hsp & Hsm).
  rewrite Forall_forall in Hpre, Hmid.
  apply StronglySorted_app_2; [|done|].
  - intros x y Hx [->|Hy]%elem_of_cons; [auto|]. auto.
  - constructor; [done|]. by apply Forall_forall.
Qed.

(** One turn of the loop of [addToCandidateSet] that inserts. *)
Lemma candidateSet_insert (set : list string) (n : nat) (docID : string) :
  n < length set -> StronglySorted idLt (take n set) ->
  let left := lowerBound n set docID 0 n in
  ~ (left < n /\ set !!! left = docID) ->
  let set' := <[left := docID]> (copyInto set (left + 1) (slice set left n)) in
  length set' = length set
  /\ take (S n) set' = take left set ++ docID :: slice set left n
  /\ StronglySorted idLt (take (S n) set').
Proof.
  intros Hn Hs left Hnew set'.
  destruct (lowerBound_spec set docID n ltac:(lia) Hs n 0 n) as (Hpos & Hlo & Hhi);
    [lia|lia|intros; lia|intros; lia|].
  fold left in Hpos, Hlo, Hhi.
  assert (Heq : set' = take left set ++ docID :: slice set left n ++ drop (S n) set).
  { subst set'. by apply copyInto_shift. }
  assert (Hls : length (slice set left n) = n - left).
  { unfold slice. rewrite length_take, length_drop. lia. }
  assert (Htake : take (S n) set' = take left set ++ docID :: slice set left n).
  { rewrite Heq. rewrite app_comm_cons, app_assoc. apply take_app_length'.
    rewrite length_app, length_take. simpl. lia. }
  split; [|split; [done|]].
  - subst set'. rewrite length_insert. unfold copyInto.
    rewrite length_take, !length_app, length_take, length_drop, Hls. lia.
  - rewrite Htake. apply sorted_insert_middle.
    + by rewrite <- slice_prefix_split.
    + apply Forall_take_lookup; [lia|]. intros k Hk. by apply Hlo.
    + apply Forall_slice_lookup; [lia|]. intros k Hk.
      assert (Hleft : idLt docID (set !!! left)).
      { destruct (idLt_trichotomy docID (set !!! left)) as [H|[H|H]]; [done| |].
        - exfalso. apply Hnew. split; [lia|done].
        - exfalso. apply (Hhi left); [lia|done]. }
      destruct (decide (k = left)) as [->|Hne]; [done|].
      apply (idLt_trans _ (set !!! left)); [done|].
      rewrite <- (lookup_total_take_lt set n left), <- (lookup_total_take_lt set n k) by lia.
      apply sorted_lookup; [done|lia|]. rewrite length_take. lia.
Qed.

Lemma addToCandidateSet_fields docIDs : forall ctx,
  exists set n, addToCandidateSet docIDs ctx = setCandidateSet ctx set n.
Proof.
  induction docIDs as [|d docIDs IH]; intros ctx; simpl.
  { exists (candidateSet ctx), (candidateSetLen ctx). by destruct ctx. }
  repeat case_match; try apply IH;
    try (exists (candidateSet ctx), (candidateSetLen ctx); by destruct ctx).
  edestruct IH as (set & n & ->). eexists _, _. reflexivity.
Qed.

(** [addToCandidateSet] keeps the invariant and the array's length; it
    adds identifiers of [docIDs] only, loses none, and takes them all
    unless the set fills up. *)
Lemma addToCandidateSet_spec (docIDs : list string) (ctx : Context) :
  candidateSetSorted ctx ->
  let ctx' := addToCandidateSet docIDs ctx in
  candidateSetSorted ctx'
  /\ length (candidateSet ctx') = length (candidateSet ctx)
  /\ (forall x, x ∈ liveSet ctx' -> x ∈ liveSet ctx \/ x ∈ docIDs)
  /\ (forall x, x ∈ liveSet ctx -> x ∈ liveSet ctx')
  /\ (candidateSetLen ctx' < length (candidateSet ctx') ->
      forall x, x ∈ docIDs -> x ∈ liveSet ctx').
Proof.
  revert ctx. induction docIDs as [|d docIDs IH]; intros ctx [Hlen Hs]; simpl.
  { split_and!; auto. - done. - intros _ x Hx. by apply elem_of_nil in Hx. }
  destruct (Nat.leb_spec (length (candidateSet ctx)) (candidateSetLen ctx)) as [Hfull|Hroom].
  { split_and!; auto. - done. - lia. }
  set (left := lowerBound (candidateSetLen ctx) (candidateSet ctx) d 0 (candidateSetLen ctx)).
  destruct ((left <? candidateSetLen ctx) && String.eqb (candidateSet ctx !!! left) d)
    eqn:Hfound.
  { apply andb_true_iff in Hfound as [Hl%Nat.ltb_lt Heq%String.eqb_eq].
    destruct (IH ctx (conj Hlen Hs)) as (H1 & H2 & H3 & H4 & H5).
    split_and!; auto.
    - intros x Hx. destruct (H3 x Hx); [by left|right; by right].
    - intros Hr x [->|Hx]%elem_of_cons; [|by apply H5].
      apply H4. unfold liveSet.
      rewrite <- Heq, <- (lookup_total_take_lt _ (candidateSetLen ctx)) by lia.
      apply list_elem_of_lookup_total_2. rewrite length_take. lia. }
  destruct (Nat.ltb_spec (candidateSetLen ctx) (length (candidateSet ctx))) as [_|?]; [|lia].
  assert (Hnew : ~ (left < candidateSetLen ctx /\ candidateSet ctx !!! left = d)).
  { intros [Hl Heq]. apply andb_false_iff in Hfound as [Hf|Hf].
    - apply Nat.ltb_ge in Hf. lia.
    - apply String.eqb_neq in Hf. done. }
  destruct (candidateSet_insert (candidateSet ctx) (candidateSetLen ctx) d Hroom Hs Hnew)
    as (Hl' & Htake & Hs').
  fold left in Hl', Htake, Hs'.
  set (set' := <[left := d]> (copyInto (candidateSet ctx) (left + 1)
                                (slice (candidateSet ctx) left (candidateSetLen ctx)))) in *.
  assert (Hleft : left <= candidateSetLen ctx).
  { destruct (lowerBound_spec (candidateSet ctx) d (candidateSetLen ctx) ltac:(lia) Hs
                (candidateSetLen ctx) 0 (candidateSetLen ctx)) as (Hpos & _);
      [lia|lia|intros; lia|intros; lia|]. done. }
  assert (Hmem : forall x, x ∈ take (S (candidateSetLen ctx)) set'
                           <-> x = d \/ x ∈ liveSet ctx).
  { intros x. rewrite Htake. unfold liveSet.
    rewrite (slice_prefix_split (candidateSet ctx) left (candidateSetLen ctx)) by done.
    rewrite !elem_of_app, elem_of_cons. tauto. }
  destruct (IH (setCandidateSet ctx set' (S (candidateSetLen ctx)))) as (H1 & H2 & H3 & H4 & H5).
  { split; simpl; [lia|done]. }
  simpl in H2. unfold liveSet in H3, H4 at 1. simpl in H3, H4.
  split_and!; auto.
  - lia.
  - intros x Hx. destruct (H3 x Hx) as [Hx'|Hx']; [|right; by right].
    apply Hmem in Hx' as [->|Hx']; [right; by left|by left].
  - intros x Hx. apply H4, Hmem. by right.
  - intros Hr x [->|Hx]%elem_of_cons; [|by apply H5].
    apply H4, Hmem. by left.
Qed.

Lemma addToCandidateSet_keeps docIDs ctx :
  candidateSetSorted ctx -> candidateSetSorted (addToCandidateSet docIDs ctx).
Proof. intros H. by destruct (addToCandidateSet_spec docIDs ctx H) as [H' _]. Qed.

Lemma prefixScan_sorted words start end_ : forall ctx,
  candidateSetSorted ctx -> candidateSetSorted (prefixScan words start end_ ctx).
Proof.
  induction words as [|[word docIDs] words IH]; intros ctx H; [done|].
  cbn [prefixScan]. apply IH.
  repeat case_match; auto using addToCandidateSet_keeps.
Qed.

Lemma addWordMatches_sorted rs rarest qs : forall ctx,
  candidateSetSorted ctx -> candidateSetSorted (addWordMatches rs rarest qs ctx).
Proof.
  induction qs as [|i qs IH]; intros ctx H; [done|].
  cbn [addWordMatches]. destruct (String.eqb _ _); [by apply IH|].
  apply IH, prefixScan_sorted.
  case_match; auto using addToCandidateSet_keeps.
Qed.

Lemma trigramFallback_sorted rs offs : forall ctx,
  candidateSetSorted ctx -> candidateSetSorted (trigramFallback rs offs ctx).
Proof.
  induction offs as [|i offs IH]; intros ctx H; [done|].
  cbn [trigramFallback]. case_match; [|by apply IH].
  case_match; [by apply addToCandidateSet_keeps|].
  by apply IH, addToCandidateSet_keeps.
Qed.

Lemma reset_sorted ctx : candidateSetSorted (reset ctx).
Proof. split; simpl; [lia|constructor]. Qed.

(** [findCandidates] empties the set and then changes it through
    [addToCandidateSet] only. *)
Lemma findCandidates_sorted rs ctx : candidateSetSorted (findCandidates rs ctx).
Proof.
  unfold findCandidates.
  assert (H0 : candidateSetSorted (setCandidateSet ctx (candidateSet ctx) 0)).
  { split; simpl; [lia|constructor]. }
  set (ctx0 := setCandidateSet ctx (candidateSet ctx) 0) in *.
  set (rarest := findRarest rs ctx0 _ _ _).
  set (ctx1 := if negb (String.eqb rarest EmptyString) then _ else ctx0).
  assert (H1 : candidateSetSorted ctx1).
  { subst ctx1. repeat case_match; auto using addToCandidateSet_keeps. }
  set (ctx2 := addWordMatches rs rarest _ ctx1).
  assert (H2 : candidateSetSorted ctx2) by by apply addWordMatches_sorted.
  case_match; auto using trigramFallback_sorted.
Qed.

(** C9: the live part of the candidate set (its first
    [candidateSetLen] cells) is strictly increasing, hence free of
    repeats, and within the array: it is so in a reset context and
    after [findCandidates], and every call of [addToCandidateSet] keeps
    it so.  Such a call leaves the length of the array alone; the live
    identifiers afterwards are old ones or inserted ones, no old one is
    lost, and if the set did not fill up every inserted identifier is
    in it: identifiers are dropped only at full capacity, and the call
    returns all the same. *)
Theorem addToCandidateSet_sorted (rs : RuntimeSearch) (ctx0 : Context)
    (docIDs : list string) (ctx : Context) :
  candidateSetSorted (reset ctx0)
  /\ candidateSetSorted (findCandidates rs ctx0)
  /\ (candidateSetSorted ctx ->
      let ctx' := addToCandidateSet docIDs ctx in
      candidateSetSorted ctx'
      /\ length (candidateSet ctx') = length (candidateSet ctx)
      /\ (forall x, x ∈ liveSet ctx' -> x ∈ liveSet ctx \/ x ∈ docIDs)
      /\ (forall x, x ∈ liveSet ctx -> x ∈ liveSet ctx')
      /\ (candidateSetLen ctx' < length (candidateSet ctx') ->
          forall x, x ∈ docIDs -> x ∈ liveSet ctx')).
Proof.
  split; [apply reset_sorted|]. split; [apply findCandidates_sorted|].
  apply addToCandidateSet_spec.
Qed.

(** ** The word index *)

Lemma postings_appendPosting m key d w :
  postings (appendPosting m key d) w =
    if decide (w = key) then postings m w ++ [d] else postings m w.
Proof.
  unfold postings, appendPosting. destruct (m !! key) as [ids|] eqn:Hk.
  - case_decide as Hw.
    + subst. by rewrite lookup_insert_eq, Hk.
    + by rewrite lookup_insert_ne.
  - case_decide as Hw.
    + subst. by rewrite lookup_insert_eq, Hk.
    + by rewrite lookup_insert_ne.
Qed.

Lemma occurrences_app x l1 l2 : occurrences x (l1 ++ l2) = occurrences x l1 + occurrences x l2.
Proof. apply count_occ_app. Qed.

Lemma occurrences_replicate x y k :
  occurrences x (replicate k y) = if decide (y = x) then k else 0.
Proof.
  unfold occurrences. induction k as [|k IH]; simpl.
  - by case_decide.
  - rewrite IH. destruct (string_dec y x); case_decide; done.
Qed.

Lemma indexWords_postings buf n ws we idxs d : forall m w,
  postings (indexWords buf n ws we idxs d m) w
  = postings m w ++ replicate (occurrences w (spanKeys buf n ws we idxs)) d.
Proof.
  induction idxs as [|i idxs IH]; intros m w; simpl.
  { by rewrite app_nil_r. }
  rewrite IH. unfold spanKeys in *. simpl.
  destruct ((ws !!! i <? we !!! i) && (we !!! i <=? n)); simpl; [|done].
  rewrite postings_appendPosting. unfold occurrences. simpl.
  destruct (string_dec _ w) as [->|Hne].
  - rewrite decide_True by done. by rewrite <- app_assoc.
  - rewrite decide_False by done. done.
Qed.

Lemma slice_writeAt0 {A} (buf out : list A) s e :
  e <= length out -> slice (writeAt buf 0 out) s e = slice out s e.
Proof.
  intros He. unfold writeAt, slice. simpl.
  destruct (decide (s <= length out)) as [Hs|Hs].
  - rewrite drop_app_le by done. rewrite take_app_le; [done|].
    rewrite length_drop. lia.
  - replace (e - s) with 0 by lia. done.
Qed.

Lemma spanKeys_view buf out n ws we idxs :
  n = length out ->
  spanKeys (writeAt buf 0 out) n ws we idxs = spanKeys out n ws we idxs.
Proof.
  intros ->. unfold spanKeys. induction idxs as [|i idxs IH]; simpl; [done|].
  rewrite IH. f_equal.
  destruct (ws !!! i <? we !!! i); simpl; [|done].
  destruct (Nat.leb_spec (we !!! i) (length out)); [|done].
  by rewrite slice_writeAt0.
Qed.

(** What [indexDocument] does to the word index. *)
Lemma indexDocument_words rs d text w :
  postings (cachedWordMap (indexDocument rs d text)) w
  = postings (cachedWordMap rs) w
    ++ replicate (occurrences w (indexedWords (length (indexBuffer rs)) text)) d
  /\ length (indexBuffer (indexDocument rs d text)) = length (indexBuffer rs).
Proof.
  unfold indexDocument, indexedWords.
  destruct (normalizeText_spec text (indexBuffer rs)) as [E1 B1].
  destruct (normalizeText_spec text (replicate (length (indexBuffer rs)) zero)) as [E2 B2].
  rewrite length_replicate in E2, B2.
  rewrite E1, E2, !take_writeAt0.
  set (out := normBytes _ _ _ _) in *.
  destruct (splitWords out _ _) as [[ws we] wc]. simpl.
  rewrite indexWords_postings, !spanKeys_view by done. split; [done|].
  apply length_writeAt. simpl. lia.
Qed.

Lemma buildIndexLoop_postings data : forall rs w d,
  NoDup data.*1 ->
  occurrences d (postings (cachedWordMap (buildIndexLoop data rs)) w)
  = occurrences d (postings (cachedWordMap rs) w)
    + match list_to_map (M := gmap string string) data !! d with
      | Some text => occurrences w (indexedWords (length (indexBuffer rs)) text)
      | None => 0
      end.
Proof.
  induction data as [|[d' text'] data IH]; intros rs w d Hnd; simpl.
  { rewrite lookup_empty. lia. }
  apply NoDup_cons in Hnd as [Hnotin Hnd].
  destruct (indexDocument_words rs d' text' w) as [Hw Hl].
  rewrite IH, Hw, Hl, occurrences_app by done.
  rewrite <- Nat.add_assoc. f_equal.
  destruct (decide (d' = d)) as [->|Hne].
  - rewrite lookup_insert_eq.
    rewrite (not_elem_of_list_to_map_1 _ d) by done.
    rewrite occurrences_replicate, decide_True by done. lia.
  - rewrite lookup_insert_ne by done.
    rewrite occurrences_replicate, decide_False by done. lia.
Qed.

(** C3, amended: after [buildIndex] on a corpus without repeated
    identifiers, a document appears in the posting list of a word
    exactly as many times as the word occurs among the word spans of the
    document's normalised text. *)
Theorem buildIndex_posting_multiplicity (rs : RuntimeSearch) (data : list (string * string))
    (docID text word : string) :
  NoDup data.*1 -> (docID, text) ∈ data ->
  occurrences docID (postings (cachedWordMap (buildIndex rs data)) word)
  = occurrences word (indexedWords (length (indexBuffer rs)) text).
Proof.
  intros Hnd Hin. unfold buildIndex.
  rewrite buildIndexLoop_postings by done. simpl.
  rewrite (elem_of_list_to_map_1 data docID text) by done.
  unfold postings. by rewrite lookup_empty.
Qed.

(** C3, counterexample: the document [d] with text [a a] is listed
    twice under the word [a]. *)
Lemma buildIndex_duplicate_posting :
  cachedWordMap (buildIndex NewRuntimeSearch [("d", "a a")]%string) !! "a"%string
  = Some ["d"; "d"]%string.
Proof. vm_compute. reflexivity. Qed.

(** ** splitWords: the spans, apart from the arrays that hold them *)

Lemma splitLoop_spec rest : forall i start starts ends count maxWords,
  maxWords <= length starts -> maxWords <= length ends -> start <= i ->
  let '(start', spans) := splitSpans rest i start count maxWords in
  splitLoop rest i start starts ends count maxWords
    = (start', writeAt starts count spans.*1, writeAt ends count spans.*2,
       count + length spans)
  /\ (count <= maxWords -> count + length spans <= maxWords)
  /\ start <= start' <= i + length rest
  /\ Forall (validSpan start (i + length rest)) spans.
Proof.
  induction rest as [|b rest IH]; intros i start starts ends count maxWords Hs He Hi;
    cbn [splitLoop splitSpans].
  { cbn [fmap list_fmap length]. rewrite !writeAt_nil, Nat.add_0_r. split_and!; auto; lia. }
  destruct (Nat.ltb_spec count maxWords) as [Hc|Hc].
  2:{ cbn [fmap list_fmap length]. rewrite !writeAt_nil, Nat.add_0_r.
      split_and!; auto; lia. }
  destruct (wordBoundaryLUT b).
  - destruct (Nat.ltb_spec start i) as [Hsi|Hsi].
    + specialize (IH (S i) (S i) (<[count := start]> starts) (<[count := i]> ends)
                     (S count) maxWords).
      destruct (splitSpans rest (S i) (S i) (S count) maxWords) as [start' spans].
      destruct IH as (IH1 & IH2 & IH3 & IH4);
        [by rewrite length_insert|by rewrite length_insert|lia|].
      rewrite IH1. cbn [length fmap list_fmap fst snd].
      split; [|split; [|split]].
      * f_equal; [f_equal; [f_equal|]|].
        -- rewrite writeAt_insert by lia.
           replace (S count) with (count + length [start]) by (simpl; lia).
           rewrite writeAt_writeAt by (simpl; lia). done.
        -- rewrite writeAt_insert by lia.
           replace (S count) with (count + length [i]) by (simpl; lia).
           rewrite writeAt_writeAt by (simpl; lia). done.
        -- lia.
      * lia.
      * lia.
      * constructor.
        -- unfold validSpan. simpl. lia.
        -- eapply Forall_impl; [exact IH4|]. unfold validSpan. intros [s e]. simpl. lia.
    + specialize (IH (S i) (S i) starts ends count maxWords Hs He ltac:(lia)).
      destruct (splitSpans rest (S i) (S i) count maxWords) as [start' spans].
      destruct IH as (IH1 & IH2 & IH3 & IH4). cbn [length].
      split; [done|split; [done|split; [lia|]]].
      eapply Forall_impl; [exact IH4|]. unfold validSpan. intros [s e]. simpl. lia.
  - specialize (IH (S i) start starts ends count maxWords Hs He ltac:(lia)).
    destruct (splitSpans rest (S i) start count maxWords) as [start' spans].
    destruct IH as (IH1 & IH2 & IH3 & IH4). cbn [length].
    split; [done|split; [done|split; [lia|]]].
    eapply Forall_impl; [exact IH4|]. unfold validSpan. intros [s e]. simpl. lia.
Qed.

Lemma splitWords_spec text starts ends :
  let maxWords := Nat.min (length starts) (length ends) in
  let spans := wordSpans text maxWords in
  splitWords text starts ends
    = (writeAt starts 0 spans.*1, writeAt ends 0 spans.*2, length spans)
  /\ length spans <= maxWords
  /\ Forall (validSpan 0 (length text)) spans.
Proof.
  intros maxWords spans. unfold splitWords, wordSpans in *.
  assert (Hmw : (if length ends <? length starts then length ends else length starts)
                = maxWords).
  { subst maxWords. destruct (Nat.ltb_spec (length ends) (length starts)); lia. }
  rewrite Hmw.
  pose proof (splitLoop_spec text 0 0 starts ends 0 maxWords
                ltac:(subst maxWords; lia) ltac:(subst maxWords; lia) ltac:(lia)) as H.
  destruct (splitSpans text 0 0 0 maxWords) as [start sp].
  destruct H as (H1 & H2 & H3 & H4). rewrite H1. simpl in *.
  specialize (H2 ltac:(lia)).
  destruct (Nat.ltb_spec start (length text)) as [Hst|Hst]; simpl.
  2:{ subst spans. split_and!; auto. }
  destruct (Nat.ltb_spec (length sp) maxWords) as [Hc|Hc]; simpl.
  2:{ subst spans. split_and!; auto. }
  subst spans. cbn [andb]. split_and!.
  - f_equal; [f_equal|].
    + rewrite writeAt_insert.
      2:{ rewrite length_writeAt; rewrite ?length_fmap; subst maxWords; lia. }
      pose proof (writeAt_writeAt starts 0 sp.*1 [start]) as Hw. simpl in Hw.
      rewrite length_fmap in Hw. rewrite Hw by (subst maxWords; lia).
      by rewrite fmap_app.
    + rewrite writeAt_insert.
      2:{ rewrite length_writeAt; rewrite ?length_fmap; subst maxWords; lia. }
      pose proof (writeAt_writeAt ends 0 sp.*2 [length text]) as Hw. simpl in Hw.
      rewrite length_fmap in Hw. rewrite Hw by (subst maxWords; lia).
      by rewrite fmap_app.
    + rewrite length_app. simpl. lia.
  - rewrite length_app. simpl. lia.
  - apply Forall_app. split; [done|]. constructor; [|done].
    unfold validSpan. simpl. lia.
Qed.

(** ** The score of exact matches *)

Lemma exact_score_table :
  forallb (fun W =>
    bool_decide (Float32.add (addTwos W Float32.zero)
                   (Float32.mul (Float32.ofZ (Z.of_nat W - 1)) Float32.half)
                 = exactScore W)
    && match toQ (exactScore W) with
       | Some q => Qeq_bool q (2 * inject_Z (Z.of_nat W)
                               + (1 # 2) * (inject_Z (Z.of_nat W) - 1))
       | None => false
       end) (seq 1 128) = true.
Proof. vm_compute. reflexivity. Qed.

Lemma exact_score_value (W : nat) :
  1 <= W <= 128 ->
  Float32.add (addTwos W Float32.zero)
              (Float32.mul (Float32.ofZ (Z.of_nat W - 1)) Float32.half) = exactScore W
  /\ exists q, toQ (exactScore W) = Some q
       /\ Qeq q (2 * inject_Z (Z.of_nat W) + (1 # 2) * (inject_Z (Z.of_nat W) - 1)).
Proof.
  intros HW. pose proof exact_score_table as H.
  rewrite forallb_forall in H. specialize (H W ltac:(apply in_seq; lia)).
  apply andb_prop in H as [H1 H2].
  apply bool_decide_eq_true in H1. split; [done|].
  destruct (toQ (exactScore W)) as [q|]; [|done].
  exists q. split; [done|]. by apply Qeq_bool_iff.
Qed.

Lemma memEqual_same (a : list ascii) (n : nat) : memEqual a a n = true.
Proof.
  unfold memEqual. destruct (n =? 0); [done|].
  apply andb_true_iff. split; apply forallb_forall; intros i _.
  - by apply bool_decide_eq_true.
  - apply Ascii.eqb_refl.
Qed.

Lemma matchDocWords_exact ctx i js : forall best,
  (exists j, j ∈ js /\ exactWordMatch ctx i j) ->
  matchDocWords ctx (queryWordStarts ctx !!! i) (queryWordEnds ctx !!! i) js best
  = (Float32.two, true).
Proof.
  induction js as [|j js IH]; intros best (j' & Hin & Hm).
  { by apply elem_of_nil in Hin. }
  cbn [matchDocWords].
  destruct (decide (exactWordMatch ctx i j)) as [[Hlen Hbytes]|Hno].
  - rewrite <- Hlen, Nat.eqb_refl. rewrite andb_false_r.
    rewrite Hbytes, memEqual_same. done.
  - assert (Hrest : exists j, j ∈ js /\ exactWordMatch ctx i j).
    { apply elem_of_cons in Hin as [->|Hin]; [done|eauto]. }
    repeat case_match; auto.
Qed.

Lemma matchQueryWords_exact ctx qs : forall total exact,
  (forall i, i ∈ qs -> exists j, j < docWordCount ctx /\ exactWordMatch ctx i j) ->
  matchQueryWords ctx qs total exact = (addTwos (length qs) total, exact + length qs).
Proof.
  induction qs as [|i qs IH]; intros total exact H; cbn [matchQueryWords length addTwos].
  { f_equal. lia. }
  rewrite matchDocWords_exact.
  2:{ destruct (H i ltac:(by left)) as (j & Hj & Hm). exists j. split; [|done].
      apply elem_of_seq. lia. }
  rewrite IH by (intros; apply H; by right). f_equal. lia.
Qed.

Lemma byteIndex_bound b : byteIndex b < 256.
Proof. unfold byteIndex. pose proof (byteVal_range b). lia. Qed.

Lemma queryBytes_table query b : forall tbl,
  length tbl = 256 -> b ∈ query \/ tbl !!! byteIndex b = true ->
  foldl (fun tbl b => <[byteIndex b := true]> tbl) tbl query !!! byteIndex b = true.
Proof.
  induction query as [|c query IH]; intros tbl Hl H; simpl.
  { destruct H as [H|H]; [by apply elem_of_nil in H|done]. }
  apply IH; [by rewrite length_insert|].
  destruct H as [[->|H]%elem_of_cons|H]; [right|by left|right].
  - apply list_lookup_total_insert_eq. pose proof (byteIndex_bound c). lia.
  - destruct (decide (byteIndex c = byteIndex b)) as [->|Hne].
    + apply list_lookup_total_insert_eq. pose proof (byteIndex_bound b). lia.
    + by rewrite list_lookup_total_insert_ne.
Qed.

Lemma containsAnyQueryBytes_common doc query b :
  b ∈ doc -> b ∈ query -> containsAnyQueryBytes doc query = true.
Proof.
  intros Hd Hq. unfold containsAnyQueryBytes.
  destruct query as [|c query]; [by apply elem_of_nil in Hq|].
  cbn [length Nat.eqb]. apply existsb_exists. exists b. split; [by apply list_elem_of_In|].
  apply queryBytes_table; [by rewrite length_replicate|by left].
Qed.

(** ** prepareQuery and the document part of scoreDocument *)

Lemma writeAt0_lookup_total {A} `{!Inhabited A} (arr out : list A) k :
  k < length out -> writeAt arr 0 out !!! k = out !!! k.
Proof. intros H. unfold writeAt. simpl. by rewrite lookup_total_app_l. Qed.

Lemma normalizeText_bounds text buffer :
  (normalizeText text buffer).2 <= length (normalizeText text buffer).1
  /\ length (normalizeText text buffer).1 = length buffer.
Proof.
  destruct (normalizeText_spec text buffer) as [E B]. rewrite E. simpl.
  rewrite length_writeAt by (simpl; lia). lia.
Qed.

Lemma splitWords_valid text starts ends :
  let r := splitWords text starts ends in
  r.2 <= Nat.min (length starts) (length ends)
  /\ length r.1.1 = length starts /\ length r.1.2 = length ends
  /\ forall j, j < r.2 -> r.1.1 !!! j < r.1.2 !!! j <= length text.
Proof.
  destruct (splitWords_spec text starts ends) as (E & Hc & Hv). rewrite E. simpl.
  set (spans := wordSpans text _) in *.
  split; [done|].
  split; [apply length_writeAt; rewrite length_fmap; simpl; lia|].
  split; [apply length_writeAt; rewrite length_fmap; simpl; lia|].
  intros j Hj. rewrite !writeAt0_lookup_total by (by rewrite length_fmap).
  rewrite (list_lookup_total_fmap fst spans j), (list_lookup_total_fmap snd spans j) by done.
  rewrite Forall_lookup_total in Hv. destruct (Hv j Hj) as (_ & H1 & H2).
  split; [exact H1|exact H2].
Qed.

Lemma slice_lookup_total {A} `{!Inhabited A} (l : list A) s e k :
  s + k < e -> e <= length l -> slice l s e !!! k = l !!! (s + k).
Proof.
  intros Hk He. unfold slice. rewrite lookup_total_take_lt by lia.
  by rewrite lookup_total_drop.
Qed.

Lemma elem_of_take_lookup_total {A} `{!Inhabited A} (l : list A) n k :
  k < n -> n <= length l -> l !!! k ∈ take n l.
Proof.
  intros Hk Hn. rewrite <- (lookup_total_take_lt l n k) by done.
  apply list_elem_of_lookup_total_2. rewrite length_take. lia.
Qed.

Lemma prepareQuery_ready query ctx0 :
  queryReady (prepareQuery query ctx0)
  /\ length (queryWordStarts (prepareQuery query ctx0)) = length (queryWordStarts ctx0)
  /\ length (queryWordEnds (prepareQuery query ctx0)) = length (queryWordEnds ctx0).
Proof.
  unfold prepareQuery, queryReady.
  pose proof (normalizeText_bounds query (queryNormalized ctx0)) as [Hn Hl].
  destruct (normalizeText query (queryNormalized ctx0)) as [buf n]. simpl in *.
  pose proof (splitWords_valid (take n buf) (queryWordStarts ctx0) (queryWordEnds ctx0))
    as (Hc & Hls & Hle & Hv).
  destruct (splitWords (take n buf) _ _) as [[starts ends] count]. simpl in *.
  rewrite length_take in Hv. rewrite Hls, Hle.
  split_and!; try done. intros i Hi. specialize (Hv i Hi). lia.
Qed.

Lemma prepareDoc_fields text ctx :
  let ctxd := prepareDoc text ctx in
  queryNormalized ctxd = queryNormalized ctx /\ queryNormLen ctxd = queryNormLen ctx
  /\ queryWordStarts ctxd = queryWordStarts ctx /\ queryWordEnds ctxd = queryWordEnds ctx
  /\ queryWordCount ctxd = queryWordCount ctx
  /\ candidates ctxd = candidates ctx /\ candidateCount ctxd = candidateCount ctx
  /\ candidateSet ctxd = candidateSet ctx /\ candidateSetLen ctxd = candidateSetLen ctx
  /\ docNormLen ctxd <= length (docNormalized ctxd)
  /\ (forall j, j < docWordCount ctxd ->
        docWordStarts ctxd !!! j < docWordEnds ctxd !!! j <= docNormLen ctxd).
Proof.
  unfold prepareDoc.
  pose proof (normalizeText_bounds text (docNormalized ctx)) as [Hn Hl].
  destruct (normalizeText text (docNormalized ctx)) as [buf n]. simpl in *.
  pose proof (splitWords_valid (take n buf) (docWordStarts ctx) (docWordEnds ctx))
    as (Hc & Hls & Hle & Hv).
  destruct (splitWords (take n buf) _ _) as [[starts ends] count]. simpl in *.
  rewrite length_take in Hv.
  split_and!; try done. intros j Hj. specialize (Hv j Hj). lia.
Qed.

Lemma prepareDoc_empty ctx : docWordCount (prepareDoc "" ctx) = 0.
Proof.
  reflexivity.
Qed.

(** [scoreDocument] past its two early exits. *)
Lemma scoreDocument_prepared text ctx :
  String.length text <> 0 -> queryWordCount ctx <> 0 ->
  let ctxd := prepareDoc text ctx in
  containsAnyQueryBytes (take (docNormLen ctxd) (docNormalized ctxd))
                        (take (queryNormLen ctx) (queryNormalized ctx)) = true ->
  scoreDocument text ctx
  = let '(totalScore, exactMatches) :=
        matchQueryWords ctxd (seq 0 (queryWordCount ctxd)) Float32.zero 0 in
    let bonus := Float32.mul (Float32.ofZ (Z.of_nat exactMatches - 1)) Float32.half in
    if (exactMatches =? queryWordCount ctxd) then (Float32.add totalScore bonus, ctxd)
    else
      let totalScore :=
        if (1 <? exactMatches) then Float32.add totalScore bonus else totalScore in
      let totalScore :=
        if (3 <=? queryNormLen ctxd) && (exactMatches =? 0)
           && Float32.eqb totalScore Float32.zero
        then Float32.add totalScore (scoreSubstring ctxd) else totalScore in
      let totalScore :=
        if (2 <=? queryWordCount ctxd) && (exactMatches <? queryWordCount ctxd)
           && Float32.ltb totalScore (Float32.ofZ (Z.of_nat (queryWordCount ctxd)))
        then Float32.add totalScore (scoreReversedWords ctxd) else totalScore in
      (totalScore, ctxd).
Proof.
  intros Ht Hw. unfold scoreDocument, prepareDoc.
  apply Nat.eqb_neq in Ht, Hw. rewrite Ht, Hw. cbn [orb].
  destruct (normalizeText text (docNormalized ctx)) as [buf n]. cbn [setDoc docNormLen
    docNormalized queryNormLen queryNormalized docWordStarts docWordEnds].
  destruct (splitWords (take n buf) (docWordStarts ctx) (docWordEnds ctx))
    as [[starts ends] count].
  cbn [setDocWords setDoc docNormLen docNormalized queryNormLen queryNormalized
       docWordStarts docWordEnds queryWordCount].
  intros ->. cbn [negb]. reflexivity.
Qed.

(** C5, amended: for a query with at least one word, when every query
    word has a document word of equal length and content,
    [scoreDocument] returns [exactScore W], the float32 value the early
    return computes, and that value is exactly 2 W + (W - 1) / 2.  The
    word spans are those the context holds, so text beyond the buffers'
    capacities plays no part. *)
Theorem scoreDocument_all_exact (query text : string) (ctx0 : Context) :
  contextShape ctx0 ->
  let ctx := prepareQuery query ctx0 in
  let ctxd := prepareDoc text ctx in
  let W := queryWordCount ctx in
  1 <= W ->
  (forall i, i < W -> exists j, j < docWordCount ctxd /\ exactWordMatch ctxd i j) ->
  (scoreDocument text ctx).1 = exactScore W
  /\ exists q, toQ (exactScore W) = Some q
       /\ Qeq q (2 * inject_Z (Z.of_nat W) + (1 # 2) * (inject_Z (Z.of_nat W) - 1)).
Proof.
  intros Hshape ctx ctxd W HW Hall.
  destruct (prepareQuery_ready query ctx0) as ((Hq1 & Hq2 & Hq3) & Hls & Hle).
  fold ctx in Hq1, Hq2, Hq3, Hls, Hle. fold W in Hq2, Hq3.
  destruct Hshape as (_ & _ & Hs1 & Hs2 & _).
  assert (HW128 : W <= 128).
  { rewrite Hls, Hle, Hs1, Hs2 in Hq2. unfold capQueryWords in Hq2. lia. }
  destruct (prepareDoc_fields text ctx) as
    (F1 & F2 & F3 & F4 & F5 & _ & _ & _ & _ & Hd1 & Hd2).
  fold ctxd in F1, F2, F3, F4, F5, Hd1, Hd2.
  destruct (exact_score_value W ltac:(lia)) as [Hsum Hval].
  split; [|done].
  assert (Htext : String.length text <> 0).
  { intros H0. destruct text; [|done].
    destruct (Hall 0 ltac:(lia)) as (j & Hj & _).
    subst ctxd. rewrite prepareDoc_empty in Hj. lia. }
  rewrite scoreDocument_prepared; [|done|fold W; lia|].
  - fold ctxd. rewrite F5. fold W.
    rewrite matchQueryWords_exact.
    2:{ intros i Hi%elem_of_seq. apply Hall. lia. }
    rewrite length_seq. cbn [Nat.add]. rewrite Nat.eqb_refl. done.
  - fold ctxd. destruct (Hall 0 ltac:(lia)) as (j & Hj & Hlen & Hbytes).
    rewrite F1, F3, F4 in *.
    specialize (Hq3 0 ltac:(lia)). specialize (Hd2 j Hj).
    apply (containsAnyQueryBytes_common _ _ (queryNormalized ctx !!! (queryWordStarts ctx !!! 0))).
    + assert (Hb : queryNormalized ctx !!! (queryWordStarts ctx !!! 0)
                   = docNormalized ctxd !!! (docWordStarts ctxd !!! j)).
      { pose proof (slice_lookup_total (queryNormalized ctx) (queryWordStarts ctx !!! 0)
                      (queryWordEnds ctx !!! 0) 0 ltac:(lia) ltac:(lia)) as H1.
        pose proof (slice_lookup_total (docNormalized ctxd) (docWordStarts ctxd !!! j)
                      (docWordEnds ctxd !!! j) 0 ltac:(lia) ltac:(lia)) as H2.
        rewrite Nat.add_0_r in H1, H2. rewrite <- H1, <- H2. by rewrite Hbytes. }
      rewrite Hb. apply elem_of_take_lookup_total; lia.
    + apply elem_of_take_lookup_total; lia.
Qed.

(** ** The score depends on the query part of the context only *)

Lemma take_eq_lookup_total {A} `{!Inhabited A} (l1 l2 : list A) n k :
  take n l1 = take n l2 -> k < n -> l1 !!! k = l2 !!! k.
Proof.
  intros H Hk.
  rewrite <- (lookup_total_take_lt l1 n k), <- (lookup_total_take_lt l2 n k) by done.
  by rewrite H.
Qed.

Lemma take_eq_slice {A} (l1 l2 : list A) n s e :
  take n l1 = take n l2 -> e <= n -> slice l1 s e = slice l2 s e.
Proof.
  intros H He. unfold slice.
  destruct (decide (s <= e)) as [Hs|Hs].
  - assert (Hv : forall l : list A,
              take (e - s) (drop s l) = take (e - s) (drop s (take n l))).
    { intros l. replace n with (s + (n - s)) at 1 by lia.
      rewrite <- take_drop_commute, take_take. f_equal. lia. }
    by rewrite (Hv l1), (Hv l2), H.
  - replace (e - s) with 0 by lia. done.
Qed.

Lemma existsb_ext_in {A} (f g : A -> bool) (l : list A) :
  (forall x, x ∈ l -> f x = g x) -> existsb f l = existsb g l.
Proof.
  induction l as [|x l IH]; intros H; simpl; [done|].
  rewrite H by (by left). rewrite IH; [done|]. intros y Hy. apply H. by right.
Qed.

Lemma filter_ext_in_length {A} (f g : A -> bool) (l : list A) :
  (forall x, x ∈ l -> f x = g x) ->
  length (filter (fun x => f x = true) l) = length (filter (fun x => g x = true) l).
Proof.
  induction l as [|x l IH]; intros H; [done|].
  rewrite !filter_cons. rewrite (H x) by (by left).
  destruct (decide (g x = true)); simpl; rewrite IH; auto; intros y Hy; apply H; by right.
Qed.

Section ViewEq.

Context (X Y : Context) (Heq : docViewEq X Y).

Lemma viewEq_query : queryNormalized X = queryNormalized Y.
Proof. apply Heq. Qed.

Lemma viewEq_starts j : j < docWordCount X -> docWordStarts X !!! j = docWordStarts Y !!! j.
Proof.
  destruct Heq as (_&_&_&_&_&_&Hc&_&Hs&_). intros Hj.
  rewrite <- Hc in Hs. by apply (take_eq_lookup_total _ _ (docWordCount X)).
Qed.

Lemma viewEq_ends j : j < docWordCount X -> docWordEnds X !!! j = docWordEnds Y !!! j.
Proof.
  destruct Heq as (_&_&_&_&_&_&Hc&_&_&He&_). intros Hj.
  rewrite <- Hc in He. by apply (take_eq_lookup_total _ _ (docWordCount X)).
Qed.

Lemma viewEq_byte k : k < docNormLen X -> docNormalized X !!! k = docNormalized Y !!! k.
Proof.
  destruct Heq as (_&_&_&_&_&Hn&_&Hd&_). intros Hk.
  rewrite <- Hn in Hd. by apply (take_eq_lookup_total _ _ (docNormLen X)).
Qed.

Lemma viewEq_slice s e : e <= docNormLen X ->
  slice (docNormalized X) s e = slice (docNormalized Y) s e.
Proof.
  destruct Heq as (_&_&_&_&_&Hn&_&Hd&_). intros He.
  rewrite <- Hn in Hd. by apply (take_eq_slice _ _ (docNormLen X)).
Qed.

Lemma viewEq_valid j : j < docWordCount X ->
  docWordStarts X !!! j < docWordEnds X !!! j <= docNormLen X.
Proof. destruct Heq as (_&_&_&_&_&_&_&_&_&_&Hv). apply Hv. Qed.

Lemma matchDocWords_viewEq qs qe js : forall best,
  Forall (fun j => j < docWordCount X) js ->
  matchDocWords X qs qe js best = matchDocWords Y qs qe js best.
Proof.
  induction js as [|j js IH]; intros best Hjs; [done|].
  apply Forall_cons in Hjs as [Hj Hjs]. cbn [matchDocWords].
  pose proof (viewEq_valid j Hj) as Hv.
  rewrite <- viewEq_query, <- (viewEq_starts j Hj), <- (viewEq_ends j Hj).
  rewrite <- (viewEq_byte (docWordStarts X !!! j)) by lia.
  rewrite <- (viewEq_slice (docWordStarts X !!! j) (docWordEnds X !!! j)) by lia.
  destruct (_ && _); [by apply IH|].
  destruct (_ =? _); [by rewrite IH|].
  destruct (Nat.ltb_spec (qe - qs) (docWordEnds X !!! j - docWordStarts X !!! j)).
  - rewrite <- (viewEq_slice (docWordStarts X !!! j) (docWordStarts X !!! j + (qe - qs)))
      by lia.
    by apply IH.
  - by apply IH.
Qed.

Lemma matchQueryWords_viewEq qs : forall total exact,
  matchQueryWords X qs total exact = matchQueryWords Y qs total exact.
Proof.
  induction qs as [|i qs IH]; intros total exact; [done|].
  cbn [matchQueryWords].
  destruct Heq as (_&_&Hs&He&_&_&Hc&_).
  rewrite <- Hs, <- He, <- Hc.
  rewrite matchDocWords_viewEq by (apply Forall_forall; intros j Hj%elem_of_seq; lia).
  destruct (matchDocWords Y _ _ _ _). apply IH.
Qed.

Lemma scoreSubstring_viewEq : scoreSubstring X = scoreSubstring Y.
Proof.
  unfold scoreSubstring. destruct Heq as (Hq&Hn&_&_&_&Hdn&_&Hd&_).
  by rewrite <- Hq, <- Hn, <- Hd.
Qed.

Lemma scoreReversedWords_viewEq : scoreReversedWords X = scoreReversedWords Y.
Proof.
  unfold scoreReversedWords. destruct Heq as (Hq&Hn&Hs&He&Hw&Hdn&Hc&Hd&_).
  rewrite <- Hq, <- Hs, <- He, <- Hw, <- Hc.
  destruct (queryWordCount X <? 2); [done|].
  assert (Hlen : forall l,
    length (filter (fun i =>
      (if queryWordEnds X !!! i - queryWordStarts X !!! i <? 3 then false
       else existsb (fun j =>
         if lengthsTooFar (docWordEnds X !!! j - docWordStarts X !!! j)
                          (queryWordEnds X !!! i - queryWordStarts X !!! i)
         then false
         else containsSubsequence
                (slice (docNormalized X) (docWordStarts X !!! j) (docWordEnds X !!! j))
                (slice (queryNormalized X) (queryWordStarts X !!! i) (queryWordEnds X !!! i))
              || containsSubsequence
                (slice (queryNormalized X) (queryWordStarts X !!! i) (queryWordEnds X !!! i))
                (slice (docNormalized X) (docWordStarts X !!! j) (docWordEnds X !!! j)))
         (seq 0 (docWordCount X))) = true) l)
    = length (filter (fun i =>
      (if queryWordEnds X !!! i - queryWordStarts X !!! i <? 3 then false
       else existsb (fun j =>
         if lengthsTooFar (docWordEnds Y !!! j - docWordStarts Y !!! j)
                          (queryWordEnds X !!! i - queryWordStarts X !!! i)
         then false
         else containsSubsequence
                (slice (docNormalized Y) (docWordStarts Y !!! j) (docWordEnds Y !!! j))
                (slice (queryNormalized X) (queryWordStarts X !!! i) (queryWordEnds X !!! i))
              || containsSubsequence
                (slice (queryNormalized X) (queryWordStarts X !!! i) (queryWordEnds X !!! i))
                (slice (docNormalized Y) (docWordStarts Y !!! j) (docWordEnds Y !!! j)))
         (seq 0 (docWordCount X))) = true) l)).
  { intros l. apply filter_ext_in_length. intros i _.
    destruct (_ <? 3); [done|]. apply existsb_ext_in. intros j Hj%elem_of_seq.
    pose proof (viewEq_valid j ltac:(lia)) as Hv.
    rewrite <- (viewEq_starts j), <- (viewEq_ends j) by lia.
    rewrite <- (viewEq_slice (docWordStarts X !!! j) (docWordEnds X !!! j)) by lia.
    done. }
  cbv zeta. rewrite Hlen. done.
Qed.

End ViewEq.

Lemma sameQuery_refl A : sameQuery A A.
Proof. unfold sameQuery. split_and!; done. Qed.

Lemma sameQuery_trans A B C : sameQuery A B -> sameQuery B C -> sameQuery A C.
Proof. unfold sameQuery. intros (?&?&?&?&?&?&?&?) (?&?&?&?&?&?&?&?). split_and!; congruence. Qed.

Lemma scoreDocument_score text ctx :
  (scoreDocument text ctx).1 =
    if (String.length text =? 0) || (queryWordCount ctx =? 0) then Float32.zero
    else
      let ctxd := prepareDoc text ctx in
      if negb (containsAnyQueryBytes (take (docNormLen ctxd) (docNormalized ctxd))
                                     (take (queryNormLen ctxd) (queryNormalized ctxd)))
      then Float32.zero else preparedScore ctxd.
Proof.
  unfold scoreDocument, prepareDoc, preparedScore.
  destruct (_ || _); [done|].
  destruct (normalizeText text (docNormalized ctx)) as [buf n].
  cbn [setDoc docNormLen docNormalized queryNormLen queryNormalized docWordStarts
       docWordEnds].
  destruct (splitWords (take n buf) (docWordStarts ctx) (docWordEnds ctx))
    as [[starts ends] count].
  cbn [setDocWords setDoc docNormLen docNormalized queryNormLen queryNormalized
       docWordStarts docWordEnds queryWordCount].
  destruct (negb _); [done|].
  destruct (matchQueryWords _ _ _ _) as [total exact].
  repeat (case_match; try done).
Qed.

(** What [scoreDocument] leaves of the context. *)
Lemma scoreDocument_context text ctx :
  let ctx' := (scoreDocument text ctx).2 in
  sameQuery ctx ctx'
  /\ candidates ctx' = candidates ctx /\ candidateCount ctx' = candidateCount ctx
  /\ candidateSet ctx' = candidateSet ctx /\ candidateSetLen ctx' = candidateSetLen ctx.
Proof.
  unfold scoreDocument, sameQuery.
  destruct (_ || _); [simpl; split_and!; done|].
  pose proof (normalizeText_bounds text (docNormalized ctx)) as [_ Hl].
  destruct (normalizeText text (docNormalized ctx)) as [buf n]. simpl in Hl.
  cbn [setDoc docNormLen docNormalized queryNormLen queryNormalized docWordStarts
       docWordEnds].
  destruct (negb _); [simpl; split_and!; done|].
  pose proof (splitWords_valid (take n buf) (docWordStarts ctx) (docWordEnds ctx))
    as (_ & Hls & Hle & _).
  destruct (splitWords (take n buf) (docWordStarts ctx) (docWordEnds ctx))
    as [[starts ends] count]. simpl in Hls, Hle.
  destruct (matchQueryWords _ _ _ _) as [total exact].
  destruct (_ =? _); simpl; split_and!; done.
Qed.

Lemma prepareDoc_viewEq text A B :
  sameQuery A B -> docViewEq (prepareDoc text A) (prepareDoc text B).
Proof.
  intros (H1&H2&H3&H4&H5&H6&H7&H8).
  pose proof (prepareDoc_fields text A) as (_&_&_&_&_&_&_&_&_&_&Hv).
  revert Hv. unfold prepareDoc, docViewEq.
  destruct (normalizeText_spec text (docNormalized A)) as [EA _].
  destruct (normalizeText_spec text (docNormalized B)) as [EB _].
  rewrite EA, EB, H6.
  set (out := normBytes _ _ _ _).
  cbn [setDoc docNormLen docNormalized queryNormLen queryNormalized docWordStarts
       docWordEnds].
  rewrite !take_writeAt0.
  destruct (splitWords_spec out (docWordStarts A) (docWordEnds A)) as (SA & _ & _).
  destruct (splitWords_spec out (docWordStarts B) (docWordEnds B)) as (SB & _ & _).
  rewrite SA, SB, H7, H8.
  set (spans := wordSpans out _).
  cbn [setDocWords setDoc docNormLen docNormalized queryNormLen queryNormalized
       docWordStarts docWordEnds queryWordCount docWordCount queryWordStarts
       queryWordEnds].
  intros Hv. rewrite !take_writeAt0.
  assert (Hs : forall (a b : list nat) (l : list nat) n,
             n = length l -> take n (writeAt a 0 l) = take n (writeAt b 0 l)).
  { intros a b l n ->. by rewrite !take_writeAt0. }
  split_and!; try done.
  - apply Hs. by rewrite length_fmap.
  - apply Hs. by rewrite length_fmap.
Qed.

Lemma preparedScore_viewEq A B : docViewEq A B -> preparedScore A = preparedScore B.
Proof.
  intros Heq. unfold preparedScore.
  rewrite (matchQueryWords_viewEq A B Heq), (scoreSubstring_viewEq A B Heq),
    (scoreReversedWords_viewEq A B Heq).
  destruct Heq as (_&Hn&_&_&Hw&_). by rewrite Hn, Hw.
Qed.

(** The score is a function of the text and of the query. *)
Lemma scoreDocument_query_only text A B :
  sameQuery A B -> (scoreDocument text A).1 = (scoreDocument text B).1.
Proof.
  intros Hs. rewrite !scoreDocument_score. cbv zeta.
  pose proof (prepareDoc_viewEq text A B Hs) as Hv.
  rewrite (preparedScore_viewEq _ _ Hv).
  destruct Hs as (_&_&_&_&Hw&_). rewrite Hw.
  destruct Hv as (Hq&Hn&_&_&_&Hdn&_&Hd&_).
  by rewrite Hq, Hn, Hd.
Qed.

(** ** The search loops *)

Lemma sameQuery_sym A B : sameQuery A B -> sameQuery B A.
Proof. unfold sameQuery. intros (?&?&?&?&?&?&?&?). split_and!; congruence. Qed.

Lemma positiveScore_valid c : positiveScore (candScore c) -> validScore c.
Proof. unfold positiveScore, validScore. by destruct (candScore c). Qed.

Lemma pushCandidate_live ctx id text score :
  candidateCount ctx < length (candidates ctx) ->
  liveCandidates (pushCandidate ctx id text score)
  = liveCandidates ctx ++ [mkCandidate id text score].
Proof.
  intros H. unfold liveCandidates, pushCandidate. simpl.
  rewrite (take_S_r _ _ (mkCandidate id text score)).
  - by rewrite take_insert_ge by lia.
  - by apply list_lookup_insert_eq.
Qed.

Section SearchLoops.

Context (known : string -> string -> Prop) (q : Context).

Lemma searchInv_score ctx id text :
  searchInv known q ctx -> known id text ->
  candidateCount ctx < length (candidates ctx) ->
  searchInv known q (if Float32.ltb Float32.zero (scoreDocument text ctx).1
             then pushCandidate (scoreDocument text ctx).2 id text (scoreDocument text ctx).1
             else (scoreDocument text ctx).2).
Proof.
  intros (Hq & Hlen & Hall) Hk Hroom.
  destruct (scoreDocument_context text ctx) as (Hs & Hc & Hn & _ & _).
  assert (Hq' : sameQuery q (scoreDocument text ctx).2) by eauto using sameQuery_trans.
  assert (Hlive : liveCandidates (scoreDocument text ctx).2 = liveCandidates ctx).
  { unfold liveCandidates. by rewrite Hc, Hn. }
  destruct (Float32.ltb Float32.zero (scoreDocument text ctx).1) eqn:Hpos.
  - split_and!.
    + destruct Hq' as (?&?&?&?&?&?&?&?). unfold sameQuery. simpl. split_and!; done.
    + simpl. rewrite length_insert, Hc, Hn. lia.
    + rewrite pushCandidate_live by (rewrite Hc, Hn; lia).
      rewrite Hlive. apply Forall_app. split; [done|]. apply Forall_singleton.
      split_and!; simpl; [done| |done].
      apply scoreDocument_query_only. by apply sameQuery_sym.
  - split_and!; [done|by rewrite Hc, Hn|by rewrite Hlive].
Qed.

Lemma searchDirectLoop_inv long data : forall ctx,
  (forall id text, (id, text) ∈ data -> known id text) ->
  searchInv known q ctx -> searchInv known q (searchDirectLoop data long ctx).
Proof.
  induction data as [|[id text] data IH]; intros ctx Hk Hinv; [done|].
  cbn [searchDirectLoop].
  assert (Hk' : forall id text, (id, text) ∈ data -> known id text).
  { intros. apply Hk. by right. }
  destruct (Nat.leb_spec (length (candidates ctx)) (candidateCount ctx)); [done|].
  destruct (_ && _); [by apply IH|].
  pose proof (searchInv_score ctx id text Hinv (Hk id text ltac:(by left)) ltac:(lia)) as H'.
  destruct (scoreDocument text ctx) as [score ctx1]. simpl in H'.
  destruct (Float32.ltb Float32.zero score); by apply IH.
Qed.

End SearchLoops.

Lemma scoreCandidatesLoop_inv rs q idxs : forall ctx,
  searchInv (fun id text => cachedData rs ≫= (.!! id) = Some text) q ctx ->
  searchInv (fun id text => cachedData rs ≫= (.!! id) = Some text) q
            (scoreCandidatesLoop rs idxs ctx).
Proof.
  induction idxs as [|i idxs IH]; intros ctx Hinv; [done|].
  cbn [scoreCandidatesLoop].
  destruct (Nat.ltb_spec (candidateCount ctx) (length (candidates ctx))); [|done].
  destruct (cachedData rs ≫= (.!! (candidateSet ctx !!! i))) as [text|] eqn:Hlook;
    [|by apply IH].
  pose proof (searchInv_score _ q ctx (candidateSet ctx !!! i) text Hinv Hlook ltac:(lia))
    as H'.
  destruct (scoreDocument text ctx) as [score ctx1]. simpl in H'.
  destruct (Float32.ltb Float32.zero score); by apply IH.
Qed.

(** ** findCandidates touches the candidate set only *)

Lemma setOnly_refl ctx : setOnly ctx ctx.
Proof. exists (candidateSet ctx), (candidateSetLen ctx). by destruct ctx. Qed.

Lemma setOnly_trans a b c : setOnly a b -> setOnly b c -> setOnly a c.
Proof. intros (s1 & n1 & ->) (s2 & n2 & ->). by exists s2, n2. Qed.

Lemma addToCandidateSet_setOnly docIDs ctx : setOnly ctx (addToCandidateSet docIDs ctx).
Proof. apply addToCandidateSet_fields. Qed.

Lemma prefixScan_setOnly words start end_ : forall ctx,
  setOnly ctx (prefixScan words start end_ ctx).
Proof.
  induction words as [|[word docIDs] words IH]; intros ctx; [apply setOnly_refl|].
  cbn [prefixScan]. eapply setOnly_trans; [|apply IH].
  repeat case_match; auto using setOnly_refl, addToCandidateSet_setOnly.
Qed.

Lemma addWordMatches_setOnly rs rarest qs : forall ctx,
  setOnly ctx (addWordMatches rs rarest qs ctx).
Proof.
  induction qs as [|i qs IH]; intros ctx; [apply setOnly_refl|].
  cbn [addWordMatches]. destruct (String.eqb _ _); [apply IH|].
  eapply setOnly_trans; [|apply IH].
  eapply setOnly_trans; [|apply prefixScan_setOnly].
  case_match; auto using setOnly_refl, addToCandidateSet_setOnly.
Qed.

Lemma trigramFallback_setOnly rs offs : forall ctx,
  setOnly ctx (trigramFallback rs offs ctx).
Proof.
  induction offs as [|i offs IH]; intros ctx; [apply setOnly_refl|].
  cbn [trigramFallback]. case_match; [|apply IH].
  case_match; [apply addToCandidateSet_setOnly|].
  eapply setOnly_trans; [apply addToCandidateSet_setOnly|apply IH].
Qed.

Lemma findCandidates_setOnly rs ctx : setOnly ctx (findCandidates rs ctx).
Proof.
  unfold findCandidates.
  assert (H0 : setOnly ctx (setCandidateSet ctx (candidateSet ctx) 0)) by (by eexists _, _).
  set (ctx0 := setCandidateSet ctx (candidateSet ctx) 0) in *.
  set (rarest := findRarest rs ctx0 _ _ _).
  set (ctx1 := if negb (String.eqb rarest "") then _ else ctx0).
  assert (H1 : setOnly ctx0 ctx1).
  { subst ctx1. repeat case_match; auto using setOnly_refl, addToCandidateSet_setOnly. }
  set (ctx2 := addWordMatches rs rarest _ ctx1).
  assert (H2 : setOnly ctx1 ctx2) by apply addWordMatches_setOnly.
  case_match; eauto using setOnly_trans, trigramFallback_setOnly.
Qed.

Lemma setOnly_sameQuery ctx ctx' : setOnly ctx ctx' -> sameQuery ctx ctx'.
Proof. intros (s & n & ->). unfold sameQuery. simpl. split_and!; done. Qed.

Lemma scoreCandidates_inv rs q ctx :
  sameQuery q ctx ->
  searchInv (fun id text => cachedData rs ≫= (.!! id) = Some text) q
            (scoreCandidates rs ctx).
Proof.
  intros Hq. unfold scoreCandidates. apply scoreCandidatesLoop_inv.
  split_and!; simpl; [|lia|constructor].
  destruct Hq as (?&?&?&?&?&?&?&?). unfold sameQuery. simpl. split_and!; done.
Qed.

Lemma buildIndexLoop_cache data : forall rs id text,
  cachedData (buildIndexLoop data rs) ≫= (.!! id) = Some text ->
  (id, text) ∈ data \/ cachedData rs ≫= (.!! id) = Some text.
Proof.
  induction data as [|[d t] data IH]; intros rs id text H; [by right|].
  cbn [buildIndexLoop] in H. apply IH in H as [H|H]; [left; by right|].
  unfold indexDocument in H.
  destruct (normalizeText t (indexBuffer rs)) as [buf n].
  destruct (splitWords _ _ _) as [[ws we] wc]. simpl in H.
  destruct (decide (d = id)) as [->|Hne].
  - rewrite lookup_insert_eq in H. simplify_eq. left. by left.
  - rewrite lookup_insert_ne in H by done. right.
    destruct (cachedData rs); simpl in *; [done|]. by rewrite lookup_empty in H.
Qed.

Lemma buildIndex_cacheSound rs data : cacheSound (buildIndex rs data) data.
Proof.
  intros id text H. unfold buildIndex in H.
  apply buildIndexLoop_cache in H as [H|H]; [done|].
  simpl in H. by rewrite lookup_empty in H.
Qed.

Lemma searchInv_known (known known' : string -> string -> Prop) q ctx :
  (forall id text, known id text -> known' id text) ->
  searchInv known q ctx -> searchInv known' q ctx.
Proof.
  intros Hk (H1 & H2 & H3). split_and!; [done..|].
  eapply Forall_impl; [exact H3|]. intros c (Ha & Hb & Hc). split_and!; auto.
Qed.

(** ** Ranked search *)

Lemma prepareQuery_candidates query ctx :
  candidates (prepareQuery query ctx) = candidates ctx
  /\ candidateCount (prepareQuery query ctx) = candidateCount ctx.
Proof.
  unfold prepareQuery.
  destruct (normalizeText query (queryNormalized ctx)) as [buf n]. simpl.
  by destruct (splitWords _ _ _) as [[starts ends] count].
Qed.

Lemma sortCandidates_inv known q ctx :
  searchInv known q ctx -> searchInv known q (sortCandidates ctx).
Proof.
  intros (Hq & Hlen & Hall).
  assert (Hv : Forall validScore (take (candidateCount ctx) (candidates ctx))).
  { eapply Forall_impl; [exact Hall|]. intros c (_ & _ & Hp). by apply positiveScore_valid. }
  destruct (sortCandidates_sortsPrefix ctx Hlen Hv) as (Hn & Hp & Hd & _).
  assert (Hl : length (candidates (sortCandidates ctx)) = length (candidates ctx)).
  { pose proof (Permutation_length Hp) as Hp'. pose proof (f_equal length Hd) as Hd'.
    rewrite !length_take in Hp'. rewrite !length_drop in Hd'. lia. }
  split_and!.
  - destruct Hq as (?&?&?&?&?&?&?&?). unfold sortCandidates, sameQuery.
    repeat case_match; simpl; split_and!; done.
  - rewrite Hn, Hl. done.
  - unfold liveCandidates. rewrite Hn, Hp. done.
Qed.

(** The candidates of a ranked search are scored documents. *)
Lemma rankedSearch_inv known rs ctx data query useCache :
  (forall id text, (id, text) ∈ data -> known id text) ->
  (forall id text, cachedData rs ≫= (.!! id) = Some text -> known id text) ->
  candidateCount ctx = 0 ->
  searchInv known (prepareQuery query ctx) (rankedSearch rs ctx data query useCache).2.
Proof.
  intros Hdata Hcache Hzero. unfold rankedSearch.
  set (q := prepareQuery query ctx).
  destruct useCache.
  - unfold searchWithCache.
    set (rs1 := if needsRebuild rs data then buildIndex rs data else rs).
    simpl. apply sortCandidates_inv.
    apply (searchInv_known (fun id text => cachedData rs1 ≫= (.!! id) = Some text)).
    + intros id text H. subst rs1. destruct (needsRebuild rs data); [|by apply Hcache].
      apply Hdata. by apply buildIndex_cacheSound in H.
    + apply scoreCandidates_inv. apply setOnly_sameQuery, findCandidates_setOnly.
  - simpl. apply sortCandidates_inv. unfold searchDirect.
    apply searchDirectLoop_inv; [done|].
    destruct (prepareQuery_candidates query ctx) as [Hc Hn]. fold q in Hc, Hn.
    split_and!; [apply sameQuery_refl|lia|].
    unfold liveCandidates. rewrite Hn, Hzero. constructor.
Qed.

(** ** Results *)

Lemma convertToResultsOneAlloc_from ctx maxResults res :
  candidateCount ctx <= length (candidates ctx) ->
  convertToResultsOneAlloc ctx maxResults = Some res ->
  Forall (fun r => exists c, c ∈ liveCandidates ctx /\ r = toResult c) res
  /\ (Z.of_nat (length res) <= maxResults)%Z.
Proof.
  intros Hlen. unfold convertToResultsOneAlloc.
  set (limit := Z.min _ _).
  destruct (Z.eqb_spec limit 0) as [H0|H0].
  { intros [= <-]. split; [constructor|]. simpl. lia. }
  destruct (Z.ltb_spec limit 0) as [Hneg|Hpos]; [done|].
  intros [= <-]. split.
  - apply Forall_fmap, Forall_forall. intros i Hi%elem_of_seq. simpl.
    eexists. split; [|done]. apply elem_of_take_lookup_total; lia.
  - rewrite length_map, length_seq. lia.
Qed.

Lemma copyResults_seq ctx n : forall k resultBuffer,
  k + n <= length resultBuffer ->
  copyResults ctx (seq k n) resultBuffer
  = Some (take k resultBuffer
          ++ map (fun i => toResult (candidates ctx !!! i)) (seq k n)
          ++ drop (k + n) resultBuffer).
Proof.
  induction n as [|n IH]; intros k rb Hk; simpl.
  { by rewrite Nat.add_0_r, take_drop. }
  unfold storeResult. destruct (Nat.ltb_spec k (length rb)) as [_|?]; [|lia].
  rewrite IH by (rewrite length_insert; lia).
  f_equal. rewrite (take_S_r _ _ (toResult (candidates ctx !!! k)))
    by (apply list_lookup_insert_eq; lia).
  rewrite take_insert_ge by lia. rewrite <- app_assoc. simpl.
  rewrite drop_insert_lt by lia.
  replace (k + S n) with (S (k + n)) by lia. done.
Qed.

(** The zero-allocation materialiser: what it returns and what it
    leaves of the caller's memory. *)
Lemma convertToResultsZeroAlloc_spec ctx maxResults backing K :
  match convertToResultsZeroAlloc ctx maxResults backing K with
  | Some (view, backing') =>
    (0 <= maxResults)%Z
    /\ (Z.of_nat (length view) <= Z.min (Z.of_nat K) maxResults)%Z
    /\ length view <= candidateCount ctx
    /\ view = map (fun i => toResult (candidates ctx !!! i)) (seq 0 (length view))
    /\ take (length view) backing' = view
    /\ drop (length view) backing' = drop (length view) backing
    /\ length backing' = length backing
  | None => (maxResults < 0)%Z
  end.
Proof.
  unfold convertToResultsZeroAlloc.
  set (rb := take K backing). set (limit0 := Z.min _ _).
  set (limit := if (Z.of_nat (length rb) <? limit0)%Z then Z.of_nat (length rb) else limit0).
  assert (Hrb : length rb <= K /\ length rb <= length backing).
  { subst rb. rewrite length_take. lia. }
  assert (Hlim : (limit <= Z.of_nat (length rb) /\ limit <= limit0)%Z).
  { subst limit. destruct (Z.ltb_spec (Z.of_nat (length rb)) limit0); lia. }
  assert (Hneg : (limit < 0 <-> maxResults < 0)%Z).
  { subst limit. destruct (Z.ltb_spec (Z.of_nat (length rb)) limit0); subst limit0; lia. }
  destruct (Z.eqb_spec limit 0) as [H0|H0].
  { simpl. split_and!; try done; lia. }
  pose proof (copyResults_seq ctx (Z.to_nat limit) 0 rb ltac:(lia)) as Hcopy.
  rewrite Hcopy. simpl.
  destruct (Z.ltb_spec limit 0) as [Hlt|Hge]; [lia|].
  set (out := map _ (seq 0 (Z.to_nat limit))).
  assert (Hout : length out = Z.to_nat limit) by (subst out; by rewrite length_map, length_seq).
  assert (Hview : take (Z.to_nat limit) (out ++ drop (Z.to_nat limit) rb) = out).
  { by apply take_app_length'. }
  rewrite Hview, Hout. subst limit0. split_and!; try lia.
  - done.
  - rewrite <- app_assoc. by apply take_app_length'.
  - rewrite <- app_assoc. rewrite drop_app_length' by done.
    subst rb. rewrite <- (take_drop K backing) at 3.
    rewrite drop_app_le by (rewrite length_take; rewrite length_take in Hlim; lia). done.
  - rewrite !length_app, Hout, !length_drop. subst rb. rewrite length_take in *. lia.
Qed.

(** ** The entry points *)

Lemma toResult_scored data q c :
  scoredFor (fun id text => (id, text) ∈ data) q c -> scoredResult data q (toResult c).
Proof. intros (H1 & H2 & H3). split_and!; done. Qed.

Lemma performSearchOneAlloc_scored known rs ctx data query maxResults useCache res :
  (forall id text, (id, text) ∈ data -> known id text) ->
  (forall id text, cachedData rs ≫= (.!! id) = Some text -> known id text) ->
  candidateCount ctx = 0 ->
  (performSearchOneAlloc rs ctx data query maxResults useCache).2 = Some res ->
  Forall (fun r => exists c, scoredFor known (prepareQuery query ctx) c /\ r = toResult c) res.
Proof.
  intros Hd Hc Hz. unfold performSearchOneAlloc.
  pose proof (rankedSearch_inv known rs ctx data query useCache Hd Hc Hz) as Hinv.
  destruct (rankedSearch rs ctx data query useCache) as [rs' ctx']. simpl in *.
  destruct Hinv as (_ & Hlen & Hall). intros Hr.
  apply convertToResultsOneAlloc_from in Hr as [Hr _]; [|done].
  eapply Forall_impl; [exact Hr|]. intros r (c & Hin & ->).
  exists c. split; [|done]. rewrite Forall_forall in Hall. by apply Hall.
Qed.

Lemma performSearchOneAlloc_total rs ctx data query maxResults useCache :
  (0 <= maxResults)%Z ->
  exists res, (performSearchOneAlloc rs ctx data query maxResults useCache).2 = Some res.
Proof.
  intros Hm. unfold performSearchOneAlloc.
  destruct (rankedSearch rs ctx data query useCache) as [rs' ctx']. simpl.
  unfold convertToResultsOneAlloc. destruct (_ =? _)%Z; [eauto|].
  destruct (Z.ltb_spec (Z.min (Z.of_nat (candidateCount ctx')) maxResults) 0); [lia|eauto].
Qed.

Lemma performSearchZeroAlloc_scored known rs ctx data query maxResults useCache backing K :
  (forall id text, (id, text) ∈ data -> known id text) ->
  (forall id text, cachedData rs ≫= (.!! id) = Some text -> known id text) ->
  candidateCount ctx = 0 ->
  match (performSearchZeroAlloc rs ctx data query maxResults useCache backing K).2 with
  | Some (view, backing') =>
    Forall (fun r => exists c, scoredFor known (prepareQuery query ctx) c /\ r = toResult c)
           view
  | None => True
  end.
Proof.
  intros Hd Hc Hz. unfold performSearchZeroAlloc.
  pose proof (rankedSearch_inv known rs ctx data query useCache Hd Hc Hz) as Hinv.
  destruct (rankedSearch rs ctx data query useCache) as [rs' ctx']. simpl in *.
  destruct Hinv as (_ & Hlen & Hall).
  pose proof (convertToResultsZeroAlloc_spec ctx' maxResults backing K) as Hspec.
  destruct (convertToResultsZeroAlloc ctx' maxResults backing K) as [[view backing']|];
    [|done].
  destruct Hspec as (_ & _ & Hcount & Hview & _).
  rewrite Hview. apply Forall_fmap, Forall_forall. intros i Hi%elem_of_seq. simpl.
  exists (candidates ctx' !!! i). split; [|done].
  rewrite Forall_forall in Hall. apply Hall.
  apply elem_of_take_lookup_total; lia.
Qed.

Lemma performSearchZeroAlloc_within rs ctx data query maxResults useCache backing K :
  match (performSearchZeroAlloc rs ctx data query maxResults useCache backing K).2 with
  | Some (view, backing') =>
    (0 <= maxResults)%Z /\ withinBuffer maxResults backing K view backing'
  | None => (maxResults < 0)%Z
  end.
Proof.
  unfold performSearchZeroAlloc.
  destruct (rankedSearch rs ctx data query useCache) as [rs' ctx']. simpl.
  pose proof (convertToResultsZeroAlloc_spec ctx' maxResults backing K) as Hspec.
  destruct (convertToResultsZeroAlloc ctx' maxResults backing K) as [[view backing']|];
    [|done].
  destruct Hspec as (Hm & Hle & _ & _ & _ & Hdrop & Hlen).
  split; [done|]. split_and!; [done..|].
  intros i Hi.
  replace i with (length view + (i - length view)) by lia.
  by rewrite <- !lookup_drop, Hdrop.
Qed.

(** C6: the zero-allocation search hands back at most
    [min(K, maxResults)] results, where [K] is the length of the
    caller's slice, and leaves every cell of the caller's memory from
    index [K] on as it was; the memory keeps its length.  With a
    negative cap [performSearchZeroAlloc] panics on the slice
    expression and writes nothing; the entry points [SearchInto] and
    [QuickSearchInto] pass the cap [K] and always return. *)
Theorem zero_alloc_search_within_buffer (rs : RuntimeSearch) (ctx : Context)
    (data : list (string * string)) (query : string) (maxResults : Z) (useCache : bool)
    (backing : list SearchResult) (K : nat) :
  match (performSearchZeroAlloc rs ctx data query maxResults useCache backing K).2 with
  | Some (view, backing') =>
    (0 <= maxResults)%Z /\ withinBuffer maxResults backing K view backing'
  | None => (maxResults < 0)%Z
  end
  /\ (exists view backing',
        (SearchInto rs ctx data query backing K).2 = Some (view, backing')
        /\ withinBuffer (Z.of_nat K) backing K view backing')
  /\ (exists view backing',
        (QuickSearchInto rs ctx data query backing K).2 = Some (view, backing')
        /\ withinBuffer (Z.of_nat K) backing K view backing').
Proof.
  split; [apply performSearchZeroAlloc_within|].
  assert (Hnoop : withinBuffer (Z.of_nat K) backing K [] backing).
  { split_and!; [simpl; lia|done..]. }
  assert (Hinto : forall useCache,
    exists view backing',
      (performSearchZeroAlloc rs ctx data query (Z.of_nat (length (take K backing)))
                              useCache backing K).2 = Some (view, backing')
      /\ withinBuffer (Z.of_nat K) backing K view backing').
  { intros uc.
    pose proof (performSearchZeroAlloc_within rs ctx data query
                  (Z.of_nat (length (take K backing))) uc backing K) as H.
    destruct (performSearchZeroAlloc _ _ _ _ _ _ _ _).2 as [[view backing']|]; [|lia].
    destruct H as (_ & Hle & Hlen & Hframe).
    exists view, backing'. split; [done|]. split_and!; [|done..].
    rewrite length_take in Hle. lia. }
  unfold SearchInto, QuickSearchInto.
  split; (destruct (_ || _); [by exists [], backing|]); repeat case_match; apply Hinto.
Qed.

(** C10: every result returned by [Search], [QuickSearch],
    [SearchInto] and [QuickSearchInto] has a score strictly above zero.
    Each entry point does return.  The context is one taken from the
    pool: fresh or reset, so its candidate count is zero. *)
Theorem results_have_positive_scores (rs : RuntimeSearch) (ctx : Context)
    (data : list (string * string)) (query : string) (maxResults : Z)
    (backing : list SearchResult) (K : nat) :
  candidateCount ctx = 0 ->
  (exists res, (Search rs ctx data query maxResults).2 = Some res
               /\ Forall positiveResult res)
  /\ (exists res, (QuickSearch rs ctx data query maxResults).2 = Some res
                  /\ Forall positiveResult res)
  /\ (exists view backing', (SearchInto rs ctx data query backing K).2 = Some (view, backing')
                            /\ Forall positiveResult view)
  /\ (exists view backing',
        (QuickSearchInto rs ctx data query backing K).2 = Some (view, backing')
        /\ Forall positiveResult view).
Proof.
  intros Hz.
  assert (Hone : forall useCache, (0 <= maxResults)%Z ->
    exists res, (performSearchOneAlloc rs ctx data query maxResults useCache).2 = Some res
                /\ Forall positiveResult res).
  { intros uc Hm.
    destruct (performSearchOneAlloc_total rs ctx data query maxResults uc Hm) as [res Hres].
    exists res. split; [done|].
    pose proof (performSearchOneAlloc_scored (fun _ _ => True) rs ctx data query maxResults
                  uc res ltac:(done) ltac:(done) Hz Hres) as H.
    eapply Forall_impl; [exact H|]. intros r (c & (_ & _ & Hp) & ->). exact Hp. }
  assert (Hzero : forall useCache,
    exists view backing',
      (performSearchZeroAlloc rs ctx data query (Z.of_nat (length (take K backing)))
                              useCache backing K).2 = Some (view, backing')
      /\ Forall positiveResult view).
  { intros uc.
    pose proof (performSearchZeroAlloc_within rs ctx data query
                  (Z.of_nat (length (take K backing))) uc backing K) as Hw.
    pose proof (performSearchZeroAlloc_scored (fun _ _ => True) rs ctx data query
                  (Z.of_nat (length (take K backing))) uc backing K
                  ltac:(done) ltac:(done) Hz) as Hs.
    destruct (performSearchZeroAlloc _ _ _ _ _ _ _ _).2 as [[view backing']|]; [|lia].
    exists view, backing'. split; [done|].
    eapply Forall_impl; [exact Hs|]. intros r (c & (_ & _ & Hp) & ->). exact Hp. }
  unfold Search, QuickSearch, SearchInto, QuickSearchInto.
  split_and!.
  - destruct (Z.leb_spec maxResults 0); simpl; [by exists []|].
    destruct (_ || _); [by exists []|]. case_match; apply Hone; lia.
  - destruct (Z.leb_spec maxResults 0); simpl; [by exists []|].
    destruct (_ || _); [by exists []|]. apply Hone; lia.
  - destruct (_ || _); [by exists [], backing|]. case_match; apply Hzero.
  - destruct (_ || _); [by exists [], backing|]. apply Hzero.
Qed.

(** C1, amended: on a corpus without repeated identifiers, with a
    cache that holds only entries of the corpus (an empty cache, or one
    built from this corpus), both paths return, every result of either
    path is an entry of the corpus carrying the score [scoreDocument]
    gives its text for the query, that score is positive, and a document
    returned by both paths has the same text and score in both.  The
    sets of identifiers may differ: see [cached_path_skips_trigrams]. *)
Theorem search_paths_score_alike (rs : RuntimeSearch) (ctx : Context)
    (data : list (string * string)) (query : string) (maxResults : Z) :
  NoDup data.*1 ->
  candidateCount ctx = 0 ->
  cacheSound rs data ->
  (0 <= maxResults)%Z ->
  exists direct cached,
    (performSearchOneAlloc rs ctx data query maxResults false).2 = Some direct
    /\ (performSearchOneAlloc rs ctx data query maxResults true).2 = Some cached
    /\ Forall (scoredResult data (prepareQuery query ctx)) direct
    /\ Forall (scoredResult data (prepareQuery query ctx)) cached
    /\ forall r1 r2, r1 ∈ direct -> r2 ∈ cached -> ID r1 = ID r2 -> r1 = r2.
Proof.
  intros Hnd Hz Hsound Hm.
  destruct (performSearchOneAlloc_total rs ctx data query maxResults false Hm) as [direct Hd].
  destruct (performSearchOneAlloc_total rs ctx data query maxResults true Hm) as [cached Hc].
  exists direct, cached. split; [done|]. split; [done|].
  assert (Hall : forall uc res,
    (performSearchOneAlloc rs ctx data query maxResults uc).2 = Some res ->
    Forall (scoredResult data (prepareQuery query ctx)) res).
  { intros uc res Hres.
    pose proof (performSearchOneAlloc_scored (fun id text => (id, text) ∈ data) rs ctx data
                  query maxResults uc res (fun _ _ H => H) Hsound Hz Hres) as H.
    eapply Forall_impl; [exact H|]. intros r (c & Hs & ->). by apply toResult_scored. }
  pose proof (Hall false direct Hd) as H1. pose proof (Hall true cached Hc) as H2.
  split; [done|]. split; [done|].
  intros r1 r2 Hr1 Hr2 Hid.
  rewrite Forall_forall in H1, H2.
  destruct (H1 r1 Hr1) as (Hin1 & Hs1 & _), (H2 r2 Hr2) as (Hin2 & Hs2 & _).
  assert (Htext : Text r1 = Text r2).
  { rewrite Hid in Hin1.
    pose proof (elem_of_list_to_map_1 (M := gmap string) data _ _ Hnd Hin1) as E1.
    pose proof (elem_of_list_to_map_1 (M := gmap string) data _ _ Hnd Hin2) as E2.
    congruence. }
  destruct r1 as [i1 t1 s1], r2 as [i2 t2 s2]. simpl in *. congruence.
Qed.

(** C7: with an empty corpus, an empty query or a non-positive cap,
    [Search] and [QuickSearch] return the empty result; with an empty
    corpus, an empty query or a result slice of length zero,
    [SearchInto] and [QuickSearchInto] return the empty slice and leave
    the caller's memory as it was.  No call panics and none touches the
    engine. *)
Theorem entry_points_degenerate_inputs (rs : RuntimeSearch) (ctx : Context)
    (data : list (string * string)) (query : string) (maxResults : Z)
    (data' : list (string * string)) (query' : string)
    (backing : list SearchResult) (K : nat) :
  data = [] \/ query = ""%string \/ (maxResults <= 0)%Z ->
  data' = [] \/ query' = ""%string \/ take K backing = [] ->
  Search rs ctx data query maxResults = (rs, Some [])
  /\ QuickSearch rs ctx data query maxResults = (rs, Some [])
  /\ SearchInto rs ctx data' query' backing K = (rs, Some ([], backing))
  /\ QuickSearchInto rs ctx data' query' backing K = (rs, Some ([], backing)).
Proof.
  unfold Search, QuickSearch, SearchInto, QuickSearchInto.
  intros H H'.
  assert (E : (maxResults <=? 0)%Z || (length data =? 0) || (String.length query =? 0)
              = true).
  { destruct H as [-> | [-> | Hmax]]; simpl.
    - by rewrite orb_true_r.
    - by rewrite orb_true_r.
    - destruct (Z.leb_spec maxResults 0); [done|lia]. }
  assert (E' : (length (take K backing) =? 0) || (length data' =? 0)
               || (String.length query' =? 0) = true).
  { destruct H' as [-> | [-> | ->]]; simpl; [by rewrite orb_true_r..|done]. }
  rewrite E, E'. done.
Qed.

(** * Part IV: the functions one by one

    Round trips, frames and characterisations of the helpers, of the
    two search paths, of the sorting routines and of the index. *)

Local Close Scope nat_scope.
Local Open Scope Z_scope.

(** ** Bits of the rune codec *)

Lemma lor_disjoint (h x k : Z) :
  0 <= k -> 0 <= x < 2 ^ k -> Z.lor (h * 2 ^ k) x = h * 2 ^ k + x.
Proof.
  intros Hk Hx.
  assert (Hland : Z.land (h * 2 ^ k) x = 0).
  { apply Z.bits_inj'. intros n Hn. rewrite Z.land_spec, Z.bits_0.
    rewrite <- Z.shiftl_mul_pow2 by done. rewrite Z.shiftl_spec by done.
    destruct (Z.lt_ge_cases n k) as [Hlt|Hge].
    - rewrite (Z.testbit_neg_r h) by lia. done.
    - rewrite <- (Z.mod_small x (2 ^ k)) by done.
      rewrite Z.mod_pow2_bits_high by lia. apply andb_false_r. }
  rewrite Z.add_nocarry_lxor by done. symmetry. by apply Z.lxor_lor.
Qed.

Lemma lead_bits (tag width : Z) (a : Z) :
  In (tag, width) [(0xC0, 5); (0xE0, 4); (0xF0, 3); (0x80, 6)] ->
  0 <= a < 2 ^ width ->
  Z.lor tag a = tag + a /\ Z.land (tag + a) (2 ^ width - 1) = a.
Proof.
  intros Hin Ha.
  assert (Hall : forallb (fun '(tag, width) =>
            forallb (fun a => (Z.lor tag a =? tag + a) && (Z.land (tag + a) (2 ^ width - 1) =? a))
                    (map Z.of_nat (seq 0 (Z.to_nat (2 ^ width)))))
            [(0xC0, 5); (0xE0, 4); (0xF0, 3); (0x80, 6)] = true) by (vm_compute; reflexivity).
  rewrite forallb_forall in Hall. specialize (Hall _ Hin). simpl in Hall.
  rewrite forallb_forall in Hall. specialize (Hall a).
  assert (Ha' : In a (map Z.of_nat (seq 0 (Z.to_nat (2 ^ width))))).
  { apply in_map_iff. exists (Z.to_nat a). split; [lia|]. apply in_seq. lia. }
  apply Hall in Ha'. apply andb_prop in Ha' as [H1 H2]. lia.
Qed.

Lemma lor_pack (h x k : Z) :
  0 <= k -> 0 <= x < 2 ^ k -> (2 ^ k | h) -> Z.lor h x = h + x.
Proof. intros Hk Hx [q ->]. by apply lor_disjoint. Qed.

Lemma decodeRune_runeBytes (r : Z) (rest : list ascii) :
  0 <= r < 0x200000 ->
  Runes.decodeRune (runeBytes r ++ rest) = (foldRune r, length (runeBytes r)).
Proof.
  intros Hr. unfold runeBytes, foldRune.
  assert (H64 : forall x, Z.land x 0x3F = x mod 64).
  { intros x. change 0x3F with (Z.ones 6). by rewrite Z.land_ones. }
  assert (Hcont : forall x, 0 <= x ->
            byteVal (toByte (Z.lor 0x80 (Z.land x 0x3F))) = 0x80 + x mod 64
            /\ Z.land (0x80 + x mod 64) 0x3F = x mod 64).
  { intros x Hx. rewrite H64.
    pose proof (Z.mod_pos_bound x 64 ltac:(lia)) as Hm.
    destruct (lead_bits 0x80 6 (x mod 64)) as [E1 E2]; [simpl; tauto|simpl; lia|].
    rewrite E1, byteVal_toByte by lia. split; [done|exact E2]. }
  pose proof (Z.div_mod r 64 ltac:(lia)) as Hr0.
  pose proof (Z.div_mod (r / 64) 64 ltac:(lia)) as Hr1.
  pose proof (Z.div_mod (r / 64 / 64) 64 ltac:(lia)) as Hr2.
  pose proof (Z.mod_pos_bound r 64 ltac:(lia)) as Hm0.
  pose proof (Z.mod_pos_bound (r / 64) 64 ltac:(lia)) as Hm1.
  pose proof (Z.mod_pos_bound (r / 64 / 64) 64 ltac:(lia)) as Hm2.
  assert (Hd1 : 0 <= r / 64) by (apply Z.div_pos; lia).
  assert (Hd2 : 0 <= r / 64 / 64) by (apply Z.div_pos; lia).
  assert (Hd3 : 0 <= r / 64 / 64 / 64) by (apply Z.div_pos; lia).
  rewrite !Z.shiftr_div_pow2 by lia.
  change (2 ^ 6) with 64. change (2 ^ 12) with (64 * 64). change (2 ^ 18) with (64 * 64 * 64).
  rewrite <- !Z.div_div by lia.
  destruct (Z.ltb_spec r 0x80) as [H1|H1].
  { destruct ((65 <=? r) && (r <=? 90)) eqn:Hcap; simpl.
    - apply andb_prop in Hcap as [Ha Hb]. rewrite byteVal_toByte by lia.
      destruct (Z.ltb_spec (r + 32) 128); [done|lia].
    - rewrite byteVal_toByte by lia. destruct (Z.ltb_spec r 128); [done|lia]. }
  assert (Hcapf : (65 <=? r) && (r <=? 90) = false).
  { apply andb_false_iff. right. apply Z.leb_gt. lia. }
  rewrite Hcapf.
  destruct (Hcont r ltac:(lia)) as [C1 C2].
  destruct (Hcont (r / 64) Hd1) as [D1 D2].
  destruct (Hcont (r / 64 / 64) Hd2) as [F1 F2].
  destruct (Z.ltb_spec r 0x800) as [H2|H2].
  { assert (Ha : 0 <= r / 64 < 2 ^ 5) by (change (2 ^ 5) with 32; lia).
    destruct (lead_bits 0xC0 5 (r / 64)) as [E1 E2]; [simpl; tauto|done|].
    change (2 ^ 5) with 32 in *.
    cbn [app Runes.decodeRune]. rewrite E1, byteVal_toByte by lia.
    destruct (Z.ltb_spec (0xC0 + r / 64) 0x80); [lia|].
    destruct (Z.ltb_spec (0xC0 + r / 64) 0xE0); [|lia].
    rewrite C1, C2. change 0x1F with (32 - 1). rewrite E2.
    rewrite Z.shiftl_mul_pow2 by lia. change (2 ^ 6) with 64.
    rewrite (lor_pack _ _ 6); [f_equal; lia|lia|change (2 ^ 6) with 64; lia|].
    exists (r / 64). change (2 ^ 6) with 64. lia. }
  destruct (Z.ltb_spec r 0x10000) as [H3|H3].
  { assert (Ha : 0 <= r / 64 / 64 < 2 ^ 4) by (change (2 ^ 4) with 16; lia).
    destruct (lead_bits 0xE0 4 (r / 64 / 64)) as [E1 E2]; [simpl; tauto|done|].
    change (2 ^ 4) with 16 in *.
    cbn [app Runes.decodeRune]. rewrite E1, byteVal_toByte by lia.
    destruct (Z.ltb_spec (0xE0 + r / 64 / 64) 0x80); [lia|].
    destruct (Z.ltb_spec (0xE0 + r / 64 / 64) 0xE0); [lia|].
    destruct (Z.ltb_spec (0xE0 + r / 64 / 64) 0xF0); [|lia].
    rewrite C1, C2, D1, D2. change 0x0F with (16 - 1). rewrite E2.
    rewrite !Z.shiftl_mul_pow2 by lia. change (2 ^ 6) with 64. change (2 ^ 12) with 4096.
    rewrite (lor_pack (r / 64 / 64 * 4096) _ 12);
      [|lia|change (2 ^ 12) with 4096; lia|exists (r / 64 / 64); change (2 ^ 12) with 4096; lia].
    rewrite (lor_pack _ _ 6); [f_equal; lia|lia|change (2 ^ 6) with 64; lia|].
    exists (r / 64 / 64 * 64 + (r / 64) mod 64). change (2 ^ 6) with 64. lia. }
  assert (Ha : 0 <= r / 64 / 64 / 64 < 2 ^ 3) by (change (2 ^ 3) with 8; lia).
  destruct (lead_bits 0xF0 3 (r / 64 / 64 / 64)) as [E1 E2]; [simpl; tauto|done|].
  change (2 ^ 3) with 8 in *.
  cbn [app Runes.decodeRune]. rewrite E1, byteVal_toByte by lia.
  destruct (Z.ltb_spec (0xF0 + r / 64 / 64 / 64) 0x80); [lia|].
  destruct (Z.ltb_spec (0xF0 + r / 64 / 64 / 64) 0xE0); [lia|].
  destruct (Z.ltb_spec (0xF0 + r / 64 / 64 / 64) 0xF0); [lia|].
  rewrite C1, C2, D1, D2, F1, F2. change 0x07 with (8 - 1). rewrite E2.
  rewrite !Z.shiftl_mul_pow2 by lia.
  change (2 ^ 6) with 64. change (2 ^ 12) with 4096. change (2 ^ 18) with 262144.
  rewrite (lor_pack (r / 64 / 64 / 64 * 262144) _ 18);
    [|lia|change (2 ^ 18) with 262144; lia
     |exists (r / 64 / 64 / 64); change (2 ^ 18) with 262144; lia].
  rewrite (lor_pack _ ((r / 64) mod 64 * 64) 12);
    [|lia|change (2 ^ 12) with 4096; lia
     |exists (r / 64 / 64 / 64 * 64 + (r / 64 / 64) mod 64); change (2 ^ 12) with 4096; lia].
  rewrite (lor_pack _ _ 6); [f_equal; lia|lia|change (2 ^ 6) with 64; lia|].
  exists ((r / 64 / 64 / 64 * 64 + (r / 64 / 64) mod 64) * 64 + (r / 64) mod 64).
  change (2 ^ 6) with 64. lia.
Qed.

(** X1: a rune below 0x200000 stored by [encodeRune] in a buffer with
    room for four bytes is read back by [decodeRune], with the length
    [encodeRune] returned, except that an ASCII capital comes back as
    its lower-case letter; the buffer keeps its length and, past the
    bytes written, its contents. *)
Theorem encodeRune_decodeRune (buf : list ascii) (r : Z) :
  (4 <= length buf)%nat -> 0 <= r < 0x200000 ->
  let '(buf', n) := Runes.encodeRune buf r in
  Runes.decodeRune buf' = (foldRune r, n)
  /\ (1 <= n <= 4)%nat
  /\ length buf' = length buf
  /\ drop n buf' = drop n buf.
Proof.
  intros Hlen Hr. rewrite encodeRune_spec by done.
  pose proof (length_runeBytes r) as Hn.
  split; [by apply decodeRune_runeBytes|]. split; [done|]. split.
  - rewrite length_app, length_drop. lia.
  - by rewrite drop_app_length.
Qed.

Lemma lor_bound (a b k : Z) :
  0 <= k -> 0 <= a < 2 ^ k -> 0 <= b < 2 ^ k -> 0 <= Z.lor a b < 2 ^ k.
Proof.
  intros Hk Ha Hb.
  assert (Hnn : 0 <= Z.lor a b) by (apply Z.lor_nonneg; split; lia).
  split; [done|].
  destruct (Z.eq_dec (Z.lor a b) 0) as [->|Hne]; [apply Z.pow_pos_nonneg; lia|].
  assert (Hpos : 0 < Z.lor a b) by lia.
  assert (Hk0 : 0 < k).
  { destruct (Z.eq_dec k 0) as [->|?]; [|lia]. change (2 ^ 0) with 1 in *.
    assert (a = 0) as -> by lia. assert (b = 0) as -> by lia. done. }
  apply Z.log2_lt_pow2; [done|]. rewrite Z.log2_lor by lia.
  apply Z.max_lub_lt.
  - destruct (Z.eq_dec a 0) as [->|?]; [simpl; lia|]. apply Z.log2_lt_pow2; lia.
  - destruct (Z.eq_dec b 0) as [->|?]; [simpl; lia|]. apply Z.log2_lt_pow2; lia.
Qed.

Lemma land_ones_bound (x k : Z) : 0 <= k -> 0 <= Z.land x (Z.ones k) < 2 ^ k.
Proof. intros Hk. rewrite Z.land_ones by done. apply Z.mod_pos_bound. lia. Qed.

Lemma shiftl_bound (x j k : Z) :
  0 <= j -> 0 <= k -> 0 <= x < 2 ^ j -> 0 <= Z.shiftl x k < 2 ^ (j + k).
Proof.
  intros Hj Hk Hx. rewrite Z.shiftl_mul_pow2, Z.pow_add_r by done.
  pose proof (Z.pow_pos_nonneg 2 k ltac:(lia) Hk). nia.
Qed.

Lemma pow2_mono_bound (x j k : Z) : 0 <= j <= k -> 0 <= x < 2 ^ j -> 0 <= x < 2 ^ k.
Proof.
  intros Hjk Hx. split; [lia|].
  apply Z.lt_le_trans with (2 ^ j); [lia|]. apply Z.pow_le_mono_r; lia.
Qed.

Lemma decodeRune_range (s : list ascii) :
  let '(r, n) := Runes.decodeRune s in
  (n = 0%nat <-> s = [])
  /\ (n <= length s)%nat /\ (n <= 4)%nat
  /\ 0 <= r < 0x200000.
Proof.
  assert (Hb : forall b, 0 <= byteVal b < 2 ^ 21).
  { intros b. pose proof (byteVal_range b). change (2 ^ 21) with 2097152. lia. }
  assert (H6 : forall b, 0 <= Z.land (byteVal b) 0x3F < 2 ^ 6)
    by (intros; apply (land_ones_bound _ 6); lia).
  change 0x200000 with (2 ^ 21).
  destruct s as [|b0 [|b1 [|b2 [|b3 s]]]]; cbn [Runes.decodeRune length].
  - split; [done|]. split; [lia|]. split; [lia|]. change (2 ^ 21) with 2097152. lia.
  - destruct (_ <? _); (split; [split; [lia|done]|]); split; try lia; split; try lia;
      try apply Hb; change (2 ^ 21) with 2097152; lia.
  - destruct (_ <? 0x80); [|destruct (_ <? 0xE0)];
      (split; [split; [lia|done]|]); split; try lia; split; try lia;
      try apply Hb; try (change (2 ^ 21) with 2097152; lia).
    apply lor_bound; [lia| |apply (pow2_mono_bound _ 6); [lia|apply H6]].
    apply (pow2_mono_bound _ (5 + 6)); [lia|].
    apply shiftl_bound; [lia..|]. apply (land_ones_bound _ 5). lia.
  - destruct (_ <? 0x80); [|destruct (_ <? 0xE0); [|destruct (_ <? 0xF0)]];
      (split; [split; [lia|done]|]); split; try lia; split; try lia;
      try apply Hb; try (change (2 ^ 21) with 2097152; lia).
    + apply lor_bound; [lia| |apply (pow2_mono_bound _ 6); [lia|apply H6]].
      apply (pow2_mono_bound _ (5 + 6)); [lia|].
      apply shiftl_bound; [lia..|]. apply (land_ones_bound _ 5). lia.
    + apply lor_bound; [lia| |apply (pow2_mono_bound _ 6); [lia|apply H6]].
      apply lor_bound; [lia| |].
      * apply (pow2_mono_bound _ (4 + 12)); [lia|].
        apply shiftl_bound; [lia..|]. apply (land_ones_bound _ 4). lia.
      * apply (pow2_mono_bound _ (6 + 6)); [lia|]. apply shiftl_bound; [lia..|]. apply H6.
  - destruct (_ <? 0x80); [|destruct (_ <? 0xE0); [|destruct (_ <? 0xF0)]];
      (split; [split; [lia|done]|]); split; try lia; split; try lia;
      try apply Hb.
    + apply lor_bound; [lia| |apply (pow2_mono_bound _ 6); [lia|apply H6]].
      apply (pow2_mono_bound _ (5 + 6)); [lia|].
      apply shiftl_bound; [lia..|]. apply (land_ones_bound _ 5). lia.
    + apply lor_bound; [lia| |apply (pow2_mono_bound _ 6); [lia|apply H6]].
      apply lor_bound; [lia| |].
      * apply (pow2_mono_bound _ (4 + 12)); [lia|].
        apply shiftl_bound; [lia..|]. apply (land_ones_bound _ 4). lia.
      * apply (pow2_mono_bound _ (6 + 6)); [lia|]. apply shiftl_bound; [lia..|]. apply H6.
    + apply lor_bound; [lia| |apply (pow2_mono_bound _ 6); [lia|apply H6]].
      apply lor_bound; [lia| |].
      * apply lor_bound; [lia| |].
        -- apply (shiftl_bound _ 3 18); [lia..|]. apply (land_ones_bound _ 3). lia.
        -- apply (pow2_mono_bound _ (6 + 12)); [lia|]. apply shiftl_bound; [lia..|]. apply H6.
      * apply (pow2_mono_bound _ (6 + 6)); [lia|]. apply shiftl_bound; [lia..|]. apply H6.
Qed.

(** X2: [decodeRune] returns rune 0 and length 0 on the empty input
    only; on any other input it consumes at least one byte and no more
    than the input holds, and the rune it returns lies between 0 and
    0x1FFFFF. *)
Theorem decodeRune_bounds (s : list ascii) :
  let '(r, n) := Runes.decodeRune s in
  (n = 0%nat <-> s = [])
  /\ (n <= length s)%nat /\ (n <= 4)%nat
  /\ 0 <= r < 0x200000.
Proof. apply decodeRune_range. Qed.

(** ** What normalizeText writes *)

Lemma lower_not_capital (b : ascii) : isCapital (lower b) = false.
Proof.
  unfold isCapital, lower. pose proof (byteVal_range b).
  destruct ((65 <=? byteVal b) && (byteVal b <=? 90)) eqn:E; [|done].
  apply andb_prop in E as [E1 E2]. rewrite byteVal_toByte by lia.
  apply andb_false_iff. right. lia.
Qed.

Lemma tagged_byte_high (tag width a : Z) :
  In (tag, width) [(0xC0, 5); (0xE0, 4); (0xF0, 3); (0x80, 6)] ->
  0 <= a < 2 ^ width ->
  128 <= byteVal (toByte (Z.lor tag a)) < 256.
Proof.
  intros Hin Ha. destruct (lead_bits tag width a Hin Ha) as [-> _].
  assert (128 <= tag + a < 256); [|rewrite byteVal_toByte; lia].
  simpl in Hin.
  destruct Hin as [E|[E|[E|[E|[]]]]]; inversion E; subst;
    match type of Ha with context [2 ^ ?w] =>
      let v := eval vm_compute in (2 ^ w) in change (2 ^ w) with v in Ha end; lia.
Qed.

Lemma runeBytes_high (r : Z) :
  0x80 <= r < 0x200000 -> Forall (fun b => 128 <= byteVal b) (runeBytes r).
Proof.
  intros Hr. unfold runeBytes.
  assert (H6 : forall x, 128 <= byteVal (toByte (Z.lor 0x80 (Z.land x 0x3F))) < 256).
  { intros x. apply (tagged_byte_high 0x80 6); [simpl; tauto|].
    apply (land_ones_bound x 6). lia. }
  assert (Hs : forall k, 0 <= k -> 0 <= Z.shiftr r k).
  { intros k Hk. apply Z.shiftr_nonneg. lia. }
  assert (Hu : forall k w, 0 <= k -> r < 2 ^ (k + w) -> 0 <= w -> Z.shiftr r k < 2 ^ w).
  { intros k w Hk Hrk Hw. rewrite Z.shiftr_div_pow2 by done.
    apply Z.div_lt_upper_bound; [apply Z.pow_pos_nonneg; lia|].
    rewrite <- Z.pow_add_r by lia. done. }
  destruct (Z.ltb_spec r 0x80); [lia|].
  destruct (Z.ltb_spec r 0x800); [|destruct (Z.ltb_spec r 0x10000)];
    repeat constructor; try (apply H6).
  - apply (tagged_byte_high 0xC0 5); [simpl; tauto|]. split; [apply Hs; lia|].
    apply Hu; [lia| |lia]. change (2 ^ (6 + 5)) with 0x800. lia.
  - apply (tagged_byte_high 0xE0 4); [simpl; tauto|]. split; [apply Hs; lia|].
    apply Hu; [lia| |lia]. change (2 ^ (12 + 4)) with 0x10000. lia.
  - apply (tagged_byte_high 0xF0 3); [simpl; tauto|]. split; [apply Hs; lia|].
    apply Hu; [lia| |lia]. change (2 ^ (18 + 3)) with 0x200000. lia.
Qed.

Lemma runeBytes_not_capital (r : Z) :
  0 <= r < 0x200000 -> Forall (fun b => isCapital b = false) (runeBytes r).
Proof.
  intros Hr. destruct (Z.lt_ge_cases r 0x80) as [Hlo|Hhi].
  - unfold runeBytes. destruct (Z.ltb_spec r 0x80); [|lia].
    destruct ((65 <=? r) && (r <=? 90)) eqn:E; apply Forall_singleton; unfold isCapital.
    + apply andb_prop in E as [E1 E2]. rewrite byteVal_toByte by lia.
      apply andb_false_iff. right. lia.
    + by rewrite byteVal_toByte by lia.
  - eapply Forall_impl; [apply runeBytes_high; lia|].
    intros b Hb. unfold isCapital. apply andb_false_iff. right. simpl in Hb. lia.
Qed.

Lemma normBytes_not_capital fuel : forall text len maxLen,
  Forall (fun b => isCapital b = false) (normBytes fuel text len maxLen).
Proof.
  induction fuel as [|fuel IH]; intros text len maxLen; [constructor|].
  destruct text as [|r rest]; [constructor|]. cbn [normBytes].
  destruct (_ <? maxLen); [|constructor].
  destruct (_ <? 128).
  - constructor; [apply lower_not_capital|apply IH].
  - apply Forall_app. split; [|apply IH].
    destruct (_ <=? _); [|constructor].
    pose proof (decodeRune_range (r :: rest)) as Hd.
    destruct (Runes.decodeRune (r :: rest)) as [rune size]. simpl.
    apply runeBytes_not_capital. tauto.
Qed.

Lemma runeBytes_decodeRune_length (b0 : ascii) (rest : list ascii) :
  (length (runeBytes (Runes.decodeRune (b0 :: rest)).1)
   <= 3 * (Runes.decodeRune (b0 :: rest)).2)%nat.
Proof.
  pose proof (length_runeBytes (Runes.decodeRune (b0 :: rest)).1) as Hrb.
  pose proof (byteVal_range b0) as Hb.
  revert Hrb. cbn [Runes.decodeRune].
  destruct (Z.ltb_spec (byteVal b0) 0x80).
  { cbn [fst snd]. intros _. unfold runeBytes.
    destruct (Z.ltb_spec (byteVal b0) 0x80); [|lia]. destruct (_ && _); simpl; lia. }
  destruct rest as [|b1 [|b2 [|b3 rest]]]; cbn [fst snd length];
    repeat match goal with |- context [Z.ltb ?a ?b] => destruct (Z.ltb a b) end;
    cbn [fst snd]; intros Hrb; try lia;
    change (length (runeBytes 0xFFFD)) with 3%nat; lia.
Qed.

Lemma normBytes_length fuel : forall text len maxLen,
  (length (normBytes fuel text len maxLen) <= 3 * length text)%nat.
Proof.
  induction fuel as [|fuel IH]; intros text len maxLen; [simpl; lia|].
  destruct text as [|r rest]; [simpl; lia|]. cbn [normBytes].
  destruct (_ <? maxLen); [|simpl; lia].
  destruct (_ <? 128) eqn:Hascii.
  - cbn [length]. specialize (IH rest (S len) maxLen). lia.
  - rewrite length_app.
    set (out := if _ <=? _ then _ else _).
    specialize (IH (drop (Runes.decodeRune (r :: rest)).2 (r :: rest)) (len + length out)%nat
                   maxLen).
    rewrite length_drop in IH.
    pose proof (decodeRune_range (r :: rest)) as Hd.
    pose proof (runeBytes_decodeRune_length r rest) as Hl.
    assert (Hout : (length out <= 3 * (Runes.decodeRune (r :: rest)).2)%nat).
    { subst out. destruct (_ <=? _); [done|simpl; lia]. }
    destruct (Runes.decodeRune (r :: rest)) as [rune size]. cbn [fst snd length] in *.
    lia.
Qed.

(** X3: [normalizeText] writes [n <= max(0, len(buffer) - 4)] bytes at
    the start of the buffer and nothing else: the buffer keeps its
    length and, from index [n] on, its contents.  The output is at most
    three times as long as the text. *)
Theorem normalizeText_frame (text : string) (buffer : list ascii) :
  let '(buffer', n) := normalizeText text buffer in
  length buffer' = length buffer
  /\ (n <= length buffer - 4)%nat
  /\ drop n buffer' = drop n buffer
  /\ (n <= 3 * String.length text)%nat.
Proof.
  destruct (normalizeText_spec text buffer) as [E Hn]. rewrite E.
  set (out := normBytes _ _ _ _) in *.
  split; [rewrite length_writeAt; simpl; lia|]. split; [done|]. split.
  - unfold writeAt. simpl. by rewrite drop_app_length.
  - pose proof (normBytes_length (String.length text) (list_ascii_of_string text) 0
                  (Z.of_nat (length buffer) - 4)) as H.
    fold out in H.
    assert (Hlen : length (list_ascii_of_string text) = String.length text).
    { clear. induction text; simpl; congruence. }
    lia.
Qed.

(** X4: no byte that [normalizeText] writes is an ASCII capital
    letter. *)
Theorem normalizeText_no_capitals (text : string) (buffer : list ascii) :
  let '(buffer', n) := normalizeText text buffer in
  Forall (fun b => isCapital b = false) (take n buffer').
Proof.
  destruct (normalizeText_spec text buffer) as [E Hn]. rewrite E.
  rewrite take_writeAt0. apply normBytes_not_capital.
Qed.

(** X5: on ASCII text [normalizeText] writes the text byte by byte,
    capitals replaced by their lower-case letters, cut off at
    [len(buffer) - 4] bytes. *)
Theorem normalizeText_ascii (text : string) (buffer : list ascii) :
  isASCII (list_ascii_of_string text) ->
  let '(buffer', n) := normalizeText text buffer in
  n = Nat.min (String.length text) (length buffer - 4)
  /\ take n buffer' = map lower (take (length buffer - 4) (list_ascii_of_string text)).
Proof.
  intros Hasc. destruct (normalizeText_spec text buffer) as [E Hn]. rewrite E.
  assert (Hlen : length (list_ascii_of_string text) = String.length text).
  { clear. induction text; simpl; congruence. }
  rewrite take_writeAt0. rewrite normBytes_ascii by (done || lia).
  replace (Z.to_nat (Z.of_nat (length buffer) - 4 - Z.of_nat 0)) with (length buffer - 4)%nat
    by lia.
  split; [|done]. rewrite length_map, length_take. lia.
Qed.

Lemma word24_value (b0 b1 b2 : ascii) :
  word24 b0 b1 b2 = byteVal b0 * 65536 + byteVal b1 * 256 + byteVal b2.
Proof.
  unfold word24. pose proof (byteVal_range b0). pose proof (byteVal_range b1).
  pose proof (byteVal_range b2).
  rewrite !Z.shiftl_mul_pow2 by lia. change (2 ^ 16) with 65536. change (2 ^ 8) with 256.
  rewrite (lor_pack (byteVal b0 * 65536) (byteVal b1 * 256) 16);
    [|lia|change (2 ^ 16) with 65536; lia|exists (byteVal b0); change (2 ^ 16) with 65536; lia].
  rewrite (lor_pack _ _ 8); [done|lia|change (2 ^ 8) with 256; lia|].
  exists (byteVal b0 * 256 + byteVal b1). change (2 ^ 8) with 256. lia.
Qed.

Lemma byteVal_inj (a b : ascii) : byteVal a = byteVal b -> a = b.
Proof. intros H. by rewrite <- (toByte_byteVal a), <- (toByte_byteVal b), H. Qed.

Lemma word24_inj (a0 a1 a2 b0 b1 b2 : ascii) :
  word24 a0 a1 a2 = word24 b0 b1 b2 -> a0 = b0 /\ a1 = b1 /\ a2 = b2.
Proof.
  rewrite !word24_value. intros H.
  pose proof (byteVal_range a0). pose proof (byteVal_range a1). pose proof (byteVal_range a2).
  pose proof (byteVal_range b0). pose proof (byteVal_range b1). pose proof (byteVal_range b2).
  split_and!; apply byteVal_inj; lia.
Qed.

Local Close Scope Z_scope.
Local Open Scope nat_scope.

(** ** The byte helpers *)

Lemma take_eq_lookup {A} `{!Inhabited A} (l1 l2 : list A) n :
  n <= length l1 -> n <= length l2 ->
  (forall j, j < n -> l1 !!! j = l2 !!! j) -> take n l1 = take n l2.
Proof.
  intros H1 H2 H. apply list_eq. intros j.
  destruct (decide (j < n)) as [Hj|Hj].
  - rewrite !lookup_take_lt by done.
    rewrite !list_lookup_lookup_total_lt by lia. f_equal. by apply H.
  - rewrite !lookup_take_ge by lia. done.
Qed.

Lemma memEqual_true (a b : list ascii) (n : nat) :
  n <= length a -> n <= length b ->
  memEqual a b n = true <-> take n a = take n b.
Proof.
  intros Ha Hb. unfold memEqual.
  destruct (Nat.eqb_spec n 0) as [->|Hn]; [done|].
  pose proof (Nat.div_mod_eq n 8) as Hdm.
  pose proof (Nat.mod_upper_bound n 8 ltac:(lia)) as Hm.
  rewrite andb_true_iff, !forallb_forall. split.
  - intros [Hw Hr]. apply take_eq_lookup; [done..|]. intros j Hj.
    destruct (decide (j < n / 8 * 8)) as [Hlo|Hhi].
    + specialize (Hw (j / 8)).
      pose proof (Nat.div_mod_eq j 8) as Hj8.
      pose proof (Nat.mod_upper_bound j 8 ltac:(lia)) as Hjm.
      assert (Hi : j / 8 < n / 8) by (apply Nat.Div0.div_lt_upper_bound; lia).
      rewrite bool_decide_eq_true in Hw. unfold loadWord in Hw.
      specialize (Hw ltac:(apply in_seq; lia)).
      apply (f_equal (.!!! (j mod 8))) in Hw.
      rewrite !slice_lookup_total in Hw by lia.
      by replace (j / 8 * 8 + j mod 8) with j in Hw by lia.
    + specialize (Hr (j - n / 8 * 8) ltac:(apply in_seq; lia)).
      apply Ascii.eqb_eq in Hr.
      by replace (n / 8 * 8 + (j - n / 8 * 8)) with j in Hr by lia.
  - intros Heq. split.
    + intros i Hi%in_seq. apply bool_decide_eq_true. unfold loadWord.
      apply (take_eq_slice _ _ n); [done|]. nia.
    + intros i Hi%in_seq. apply Ascii.eqb_eq.
      apply (take_eq_lookup_total _ _ n); [done|]. lia.
Qed.

(** X6: on slices that hold at least [length] bytes, [memEqual] is true
    exactly when the first [length] bytes of the two slices are the
    same. *)
Theorem memEqual_compares_prefixes (a b : list ascii) (n : nat) :
  n <= length a -> n <= length b ->
  memEqual a b n = true <-> take n a = take n b.
Proof. apply memEqual_true. Qed.

Lemma queryBytes_table_inv (query : list ascii) (b : ascii) : forall tbl : list bool,
  foldl (fun tbl b => <[byteIndex b := true]> tbl) tbl query !!! byteIndex b = true ->
  b ∈ query \/ tbl !!! byteIndex b = true.
Proof.
  induction query as [|c query IH]; intros tbl H; simpl in H; [by right|].
  apply IH in H as [H|H]; [left; by right|].
  destruct (decide (byteIndex c = byteIndex b)) as [Heq|Hne].
  - left. apply elem_of_cons. left. unfold byteIndex in Heq.
    pose proof (byteVal_range b). pose proof (byteVal_range c).
    rewrite <- (toByte_byteVal b), <- (toByte_byteVal c). f_equal. lia.
  - right. by rewrite list_lookup_total_insert_ne in H.
Qed.

(** X7: [containsAnyQueryBytes] is true exactly when some byte of the
    document is a byte of the query; with an empty query it is false. *)
Theorem containsAnyQueryBytes_true (doc query : list ascii) :
  containsAnyQueryBytes doc query = true <-> exists b, b ∈ doc /\ b ∈ query.
Proof.
  split.
  - unfold containsAnyQueryBytes. destruct (length query =? 0); [done|].
    intros (b & Hin & Hb)%existsb_exists. exists b. split; [by apply list_elem_of_In|].
    apply queryBytes_table_inv in Hb as [Hb|Hb]; [done|].
    rewrite lookup_total_replicate_2 in Hb; [done|apply byteIndex_bound].
  - intros (b & Hd & Hq). by eapply containsAnyQueryBytes_common.
Qed.

Lemma occursIn_at (needle haystack : list ascii) :
  occursIn needle haystack
  <-> exists i, i + length needle <= length haystack
                /\ take (length needle) (drop i haystack) = needle.
Proof.
  split.
  - intros (pre & post & ->). exists (length pre). split.
    + rewrite !length_app. lia.
    + by rewrite drop_app_length, take_app_length.
  - intros (i & Hi & Heq). exists (take i haystack), (drop (length needle) (drop i haystack)).
    rewrite <- Heq at 1. by rewrite !take_drop.
Qed.

Lemma find_seq_first (f : nat -> bool) (k : nat) : forall s x,
  find f (seq s k) = Some x ->
  s <= x < s + k /\ f x = true /\ forall y, s <= y < x -> f y = false.
Proof.
  induction k as [|k IH]; intros s x H; [done|]. cbn [seq find] in H.
  destruct (f s) eqn:Hs.
  - inversion H; subst. split_and!; [lia..|done|]. intros y Hy. lia.
  - apply IH in H as (H1 & H2 & H3). split_and!; [lia..|done|].
    intros y Hy. destruct (decide (y = s)) as [->|?]; [done|]. apply H3. lia.
Qed.

Lemma find_seq_none (f : nat -> bool) (k s : nat) :
  find f (seq s k) = None -> forall y, s <= y < s + k -> f y = false.
Proof.
  intros H y Hy. apply (find_none f _ H). apply in_seq. lia.
Qed.

Lemma take3_lookup (l : list ascii) (i : nat) :
  i + 3 <= length l ->
  take 3 (drop i l) = [l !!! i; l !!! (i + 1); l !!! (i + 2)].
Proof.
  intros H. apply list_eq. intros j.
  destruct (decide (j < 3)) as [Hj|Hj].
  - rewrite lookup_take_lt, lookup_drop by done.
    rewrite list_lookup_lookup_total_lt by lia.
    destruct j as [|[|[|j]]]; [| | |lia]; simpl; do 2 f_equal; lia.
  - rewrite lookup_take_ge by lia. destruct j as [|[|[|j]]]; try lia. done.
Qed.

(** X8: for a trigram of three bytes, [containsTrigram] is true exactly
    when the three bytes occur in the text, in this order and next to
    each other; for a trigram of any other length it is false. *)
Theorem containsTrigram_true (text trigram : list ascii) :
  containsTrigram text trigram = true
  <-> length trigram = 3 /\ occursIn trigram text.
Proof.
  unfold containsTrigram.
  destruct (Nat.ltb_spec (length text) 3) as [Hshort|Hlong]; cbn [orb].
  { split; [done|]. intros [H3 (i & Hi & _)%occursIn_at]. lia. }
  destruct (Nat.eqb_spec (length trigram) 3) as [H3|H3]; cbn [negb]; [|split; [done|tauto]].
  destruct trigram as [|t0 [|t1 [|t2 [|? ?]]]]; try done. clear H3.
  rewrite existsb_exists, occursIn_at. cbn [length]. split.
  - intros (i & Hi%in_seq & Heq%Z.eqb_eq). split; [done|].
    apply word24_inj in Heq as (E0 & E1 & E2).
    exists i. split; [lia|]. rewrite take3_lookup by lia. by rewrite E0, E1, E2.
  - intros [_ (i & Hi & Heq)]. exists i. split; [apply in_seq; lia|].
    rewrite take3_lookup in Heq by lia. inversion Heq as [[E0 E1 E2]].
    apply Z.eqb_eq. by rewrite E0, E1, E2.
Qed.

(** X9: [containsSubsequence] is true exactly when the needle occurs in
    the haystack as a contiguous run of bytes: the quick check on the
    first and the last byte never rejects an occurrence. *)
Theorem containsSubsequence_true (haystack needle : list ascii) :
  containsSubsequence haystack needle = true <-> occursIn needle haystack.
Proof.
  unfold containsSubsequence.
  destruct (Nat.eqb_spec (length needle) 0) as [H0|H0].
  { split; [|done]. intros _. apply nil_length_inv in H0 as ->. by exists [], haystack. }
  destruct (Nat.ltb_spec (length haystack) (length needle)) as [Hshort|Hlong].
  { split; [done|]. intros (i & Hi & _)%occursIn_at. lia. }
  set (quick := if 1 <? length needle then _ else true).
  assert (Hmain : forall i, i + length needle <= length haystack ->
            memEqual (drop i haystack) needle (length needle) = true
            <-> take (length needle) (drop i haystack) = needle).
  { intros i Hi. rewrite memEqual_true by (rewrite ?length_drop; lia).
    by rewrite (take_ge needle). }
  rewrite occursIn_at. split.
  - destruct quick; [|done]. cbn [negb].
    intros (i & Hi%in_seq & Heq)%existsb_exists.
    exists i. split; [lia|]. apply Hmain; [lia|done].
  - intros (p & Hp & Heq).
    assert (Hq : quick = true).
    { subst quick. destruct (Nat.ltb_spec 1 (length needle)) as [H1|H1]; [|done].
      assert (Hfirst : haystack !!! p = needle !!! 0).
      { pose proof (f_equal (.!!! 0) Heq) as E.
        rewrite lookup_total_take_lt, lookup_total_drop in E by lia.
        by rewrite Nat.add_0_r in E. }
      assert (Hlast : haystack !!! (p + length needle - 1) = needle !!! (length needle - 1)).
      { pose proof (f_equal (.!!! (length needle - 1)) Heq) as E.
        rewrite lookup_total_take_lt, lookup_total_drop in E by lia.
        by replace (p + (length needle - 1)) with (p + length needle - 1) in E by lia. }
      destruct (find _ _) as [firstPos|] eqn:Hfind.
      - apply find_seq_first in Hfind as (Hr & _ & Hmin).
        assert (Hle : firstPos <= p).
        { destruct (decide (firstPos <= p)) as [?|Hgt]; [done|].
          specialize (Hmin p ltac:(lia)). rewrite Hfirst, Ascii.eqb_refl in Hmin. done. }
        apply existsb_exists. exists (p + length needle - 1).
        split; [apply in_seq; lia|]. rewrite Hlast. apply Ascii.eqb_refl.
      - pose proof (find_seq_none _ _ _ Hfind p ltac:(lia)) as Hno.
        simpl in Hno. rewrite Hfirst, Ascii.eqb_refl in Hno. done. }
    rewrite Hq. cbn [negb]. apply existsb_exists. exists p.
    split; [apply in_seq; lia|]. by apply Hmain.
Qed.

(** ** The words splitWords finds *)

Lemma drop_cons_lookup {A} `{!Inhabited A} (l : list A) i x rest :
  drop i l = x :: rest -> l !!! i = x /\ drop (S i) l = rest /\ length l = i + S (length rest).
Proof.
  intros H. split_and!.
  - rewrite <- (Nat.add_0_r i), <- lookup_total_drop, H. done.
  - replace (S i) with (i + 1) by lia. by rewrite <- drop_drop, H.
  - pose proof (f_equal length H) as Hl. rewrite length_drop in Hl. simpl in Hl. lia.
Qed.

Lemma splitSpans_words (text : list ascii) (maxWords : nat) : forall rest i start count,
  drop i text = rest -> start <= i <= length text ->
  (forall k, start <= k < i -> wordBoundaryLUT (text !!! k) = false) ->
  (start = 0 \/ wordBoundaryLUT (text !!! (start - 1)) = true) ->
  let '(start', spans) := splitSpans rest i start count maxWords in
  Forall (isWord text) spans
  /\ Forall (fun p => start <= p.1 /\ p.2 < start') spans
  /\ StronglySorted (fun p q => p.2 < q.1) spans
  /\ start <= start'
  /\ (count + length spans < maxWords ->
      start' <= length text
      /\ (forall k, start' <= k < length text -> wordBoundaryLUT (text !!! k) = false)
      /\ (start' = 0 \/ wordBoundaryLUT (text !!! (start' - 1)) = true)
      /\ (forall k, start <= k < start' -> wordBoundaryLUT (text !!! k) = false ->
           exists p, p ∈ spans /\ p.1 <= k < p.2)).
Proof.
  induction rest as [|b rest IH]; intros i start count Hdrop Hsi Hrun Hstart;
    cbn [splitSpans].
  { assert (Hlen : length text <= i).
    { destruct (decide (length text <= i)) as [?|Hn]; [done|].
      pose proof (f_equal length Hdrop) as Hl. rewrite length_drop in Hl. simpl in Hl. lia. }
    split_and!; [constructor..|lia|]. intros _.
    split_and!; [lia|intros; apply Hrun; lia|done|]. intros k Hk. lia. }
  apply drop_cons_lookup in Hdrop as (Hb & Hdrop & Hlen).
  destruct (Nat.ltb_spec count maxWords) as [Hc|Hc].
  2:{ split_and!; [constructor..|lia|]. cbn [length]. lia. }
  destruct (wordBoundaryLUT b) eqn:Hwb.
  - destruct (Nat.ltb_spec start i) as [Hlt|Hge].
    + specialize (IH (S i) (S i) (S count) Hdrop ltac:(lia) ltac:(intros; lia)
                     ltac:(right; by rewrite Nat.sub_succ, Nat.sub_0_r, Hb)).
      destruct (splitSpans rest (S i) (S i) (S count) maxWords) as [start' spans].
      destruct IH as (I1 & I2 & I3 & I4 & I5).
      split_and!.
      * constructor; [|done]. unfold isWord. cbn [fst snd].
        split_and!; [lia|lia|done|done|right; by rewrite Hb].
      * constructor; [cbn [fst snd]; lia|].
        eapply Forall_impl; [exact I2|]. intros p. cbn beta. lia.
      * constructor; [done|].
        eapply Forall_impl; [exact I2|]. intros p. cbn [fst snd]. lia.
      * lia.
      * cbn [length]. intros Hroom. destruct (I5 ltac:(lia)) as (J1 & J2 & J3 & J4).
        split_and!; [done..|]. intros k Hk Hnb.
        destruct (decide (k < i)) as [Hki|Hki].
        { exists (start, i). split; [by left|]. cbn [fst snd]. lia. }
        destruct (decide (k = i)) as [->|Hne]; [congruence|].
        destruct (J4 k ltac:(lia) Hnb) as (p & Hp & Hpk). exists p. split; [by right|done].
    + assert (start = i) as -> by lia.
      specialize (IH (S i) (S i) count Hdrop ltac:(lia) ltac:(intros; lia)
                     ltac:(right; by rewrite Nat.sub_succ, Nat.sub_0_r, Hb)).
      destruct (splitSpans rest (S i) (S i) count maxWords) as [start' spans].
      destruct IH as (I1 & I2 & I3 & I4 & I5).
      split_and!; [done| |done|lia|].
      * eapply Forall_impl; [exact I2|]. intros p. cbn beta. lia.
      * intros Hroom. destruct (I5 Hroom) as (J1 & J2 & J3 & J4).
        split_and!; [done..|]. intros k Hk Hnb.
        destruct (decide (k = i)) as [->|Hne]; [congruence|].
        apply J4; [lia|done].
  - specialize (IH (S i) start count Hdrop ltac:(lia)).
    destruct (splitSpans rest (S i) start count maxWords) as [start' spans].
    apply IH; [|done]. intros k Hk.
    destruct (decide (k = i)) as [->|Hne]; [congruence|]. apply Hrun. lia.
Qed.

Lemma strongly_sorted_lookup {A} `{!Inhabited A} (R : relation A) (l : list A) i j :
  StronglySorted R l -> i < j -> j < length l -> R (l !!! i) (l !!! j).
Proof.
  intros Hs. revert i j. induction Hs as [|x l Hs IH Hx]; intros i j Hij Hj.
  { simpl in Hj. lia. }
  destruct j as [|j]; [lia|]. simpl in Hj. destruct i as [|i].
  - simpl. rewrite Forall_forall in Hx. apply Hx.
    apply list_elem_of_lookup_total_2. lia.
  - simpl. apply IH; lia.
Qed.

Lemma wordSpans_words (text : list ascii) (maxWords : nat) :
  let spans := wordSpans text maxWords in
  Forall (isWord text) spans
  /\ StronglySorted (fun p q => p.2 < q.1) spans
  /\ (length spans < maxWords ->
      forall k, k < length text -> wordBoundaryLUT (text !!! k) = false ->
      exists p, p ∈ spans /\ p.1 <= k < p.2).
Proof.
  unfold wordSpans.
  pose proof (splitSpans_words text maxWords text 0 0 0 (drop_0 _) ltac:(lia)
                ltac:(intros; lia) ltac:(by left)) as H.
  destruct (splitSpans text 0 0 0 maxWords) as [start sp].
  destruct H as (H1 & H2 & H3 & _ & H5). cbn [Nat.add] in H5.
  destruct (Nat.ltb_spec start (length text)) as [Hst|Hst]; cbn [andb].
  - destruct (Nat.ltb_spec (length sp) maxWords) as [Hc|Hc].
    + destruct (H5 Hc) as (J1 & J2 & J3 & J4). split_and!.
      * apply Forall_app. split; [done|]. apply Forall_singleton.
        unfold isWord. cbn [fst snd]. split_and!; [lia|lia|exact J2|exact J3|by left].
      * apply StronglySorted_app. split_and!; [|done|repeat constructor].
        intros p q Hp Hq%list_elem_of_singleton. subst q. cbn [fst].
        rewrite Forall_forall in H2. destruct (H2 p Hp). lia.
      * intros _ k Hk Hnb. destruct (decide (k < start)) as [Hlo|Hhi].
        -- destruct (J4 k ltac:(lia) Hnb) as (p & Hp & Hpk).
           exists p. split; [|done]. apply elem_of_app. by left.
        -- exists (start, length text). split; [|cbn [fst snd]; lia].
           apply elem_of_app. right. by left.
    + split_and!; [done..|]. lia.
  - split_and!; [done..|]. intros Hc k Hk Hnb.
    destruct (H5 Hc) as (J1 & J2 & J3 & J4). apply J4; [lia|done].
Qed.

(** X10: [splitWords] records, in order and at most as many as the
    shorter of the two arrays holds, the words of the text: each
    recorded span is a maximal run of bytes that are not word
    boundaries, a later span starts after an earlier one has ended, and
    the array cells from [count] on are left alone.  Unless the arrays
    fill up, every byte of the text that is not a boundary lies in a
    recorded span. *)
Theorem splitWords_words (text : list ascii) (starts ends : list nat) :
  let '(starts', ends', count) := splitWords text starts ends in
  count <= Nat.min (length starts) (length ends)
  /\ length starts' = length starts /\ length ends' = length ends
  /\ drop count starts' = drop count starts /\ drop count ends' = drop count ends
  /\ (forall w, w < count -> isWord text (starts' !!! w, ends' !!! w))
  /\ (forall w w', w < w' < count -> ends' !!! w < starts' !!! w')
  /\ (count < Nat.min (length starts) (length ends) ->
      forall k, k < length text -> wordBoundaryLUT (text !!! k) = false ->
      exists w, w < count /\ starts' !!! w <= k < ends' !!! w).
Proof.
  destruct (splitWords_spec text starts ends) as (E & Hc & Hv). rewrite E.
  destruct (wordSpans_words text (Nat.min (length starts) (length ends))) as (W1 & W2 & W3).
  set (spans := wordSpans text _) in *.
  assert (Hfst : forall w, w < length spans ->
            writeAt starts 0 spans.*1 !!! w = (spans !!! w).1).
  { intros w Hw. rewrite writeAt0_lookup_total by (by rewrite length_fmap).
    by rewrite (list_lookup_total_fmap fst spans w). }
  assert (Hsnd : forall w, w < length spans ->
            writeAt ends 0 spans.*2 !!! w = (spans !!! w).2).
  { intros w Hw. rewrite writeAt0_lookup_total by (by rewrite length_fmap).
    by rewrite (list_lookup_total_fmap snd spans w). }
  split; [done|].
  split; [apply length_writeAt; rewrite length_fmap; simpl; lia|].
  split; [apply length_writeAt; rewrite length_fmap; simpl; lia|].
  split.
  { unfold writeAt. rewrite take_0, app_nil_l.
    rewrite <- (length_fmap fst spans) at 1. by rewrite drop_app_length, length_fmap. }
  split.
  { unfold writeAt. rewrite take_0, app_nil_l.
    rewrite <- (length_fmap snd spans) at 1. by rewrite drop_app_length, length_fmap. }
  split_and!.
  - intros w Hw. rewrite Hfst, Hsnd by done.
    rewrite Forall_forall in W1. rewrite <- surjective_pairing.
    apply W1. by apply list_elem_of_lookup_total_2.
  - intros w w' Hw. rewrite Hfst, Hsnd by lia.
    apply (strongly_sorted_lookup _ spans w w' W2); lia.
  - intros Hroom k Hk Hnb. destruct (W3 Hroom k Hk Hnb) as (p & Hp & Hpk).
    apply list_elem_of_lookup_total_1 in Hp as (w & Hw & <-).
    exists w. rewrite Hfst, Hsnd by done. done.
Qed.

(** ** The comparator *)

Lemma compare_values s1 id1 s2 id2 :
  compareScoreAndID s1 id1 s2 id2 = 1%Z \/ compareScoreAndID s1 id1 s2 id2 = (-1)%Z
  \/ compareScoreAndID s1 id1 s2 id2 = 0%Z.
Proof. unfold compareScoreAndID. repeat case_match; auto. Qed.

(** X11: on scores that are numbers [compareScoreAndID] is a consistent
    three-way comparison: swapping the arguments negates the result, the
    result is 0 exactly when the scores are equal and the identifiers
    the same, positive results compose, and the result is negative
    exactly when the test of the shifting loops of [insertionSort] and
    [shellSort] asks for the two cells to change places. *)
Theorem compareScoreAndID_consistent (x y z : Candidate) :
  validScore x -> validScore y -> validScore z ->
  let cmp a b := compareScoreAndID (candScore a) (candID a) (candScore b) (candID b) in
  cmp x y = (- cmp y x)%Z
  /\ (cmp x y = 0%Z <-> Float32.eqb (candScore x) (candScore y) = true /\ candID x = candID y)
  /\ ((0 < cmp x y)%Z -> (0 < cmp y z)%Z -> (0 < cmp x z)%Z)
  /\ ((cmp x y < 0)%Z <-> outOfOrder x y = true).
Proof.
  intros Hx Hy Hz cmp. subst cmp. cbn beta.
  pose proof (compare_pos x y Hx Hy) as Pxy. pose proof (compare_neg x y Hx Hy) as Nxy.
  pose proof (compare_pos y x Hy Hx) as Pyx. pose proof (compare_neg y x Hy Hx) as Nyx.
  pose proof (compare_values (candScore x) (candID x) (candScore y) (candID y)) as Vxy.
  pose proof (compare_values (candScore y) (candID y) (candScore x) (candID x)) as Vyx.
  assert (Hex : ~ (before x y /\ before y x)).
  { intros [H1 H2]. by apply (before_asym x y). }
  split_and!.
  - destruct (before_total x y) as [H|[H|H]].
    + apply Pxy in H as H1. apply Nyx in H as H2. lia.
    + assert (~ before x y /\ ~ before y x) as [H1 H2].
      { split; intros Hb.
        - apply (before_irrefl y). by apply (before_tied_l x y y).
        - apply (before_irrefl x). apply (before_tied_l y x x); [by apply tied_sym|done]. }
      rewrite <- Pxy in H1. rewrite <- Nxy in H2.
      assert (H3 : ~ before y x) by tauto. assert (H4 : ~ before x y) by tauto.
      rewrite <- Pyx in H3. rewrite <- Nyx in H4. lia.
    + apply Pyx in H as H1. apply Nxy in H as H2. lia.
  - rewrite float_eqb_rank by done. split.
    + intros H0. apply compare_zero; [done..|lia|lia].
    + intros Ht. change (tied x y) in Ht.
      assert (~ before x y /\ ~ before y x) as [H1 H2].
      { split; intros Hb.
        - apply (before_irrefl y). by apply (before_tied_l x y y).
        - apply (before_irrefl x). apply (before_tied_l y x x); [by apply tied_sym|done]. }
      rewrite <- Pxy in H1. rewrite <- Nxy in H2. lia.
  - rewrite Pxy, (compare_pos y z), (compare_pos x z) by done. apply before_trans.
  - rewrite Nxy. symmetry. by apply outOfOrder_before.
Qed.

(** ** The direct search, document by document *)

(** X12: [scoreDocument] writes the document buffers only: the query,
    the candidates and the candidate set are as before.  What it left
    in the document buffers does not bear on a later score: a text
    scored after another text gets the score it gets in the first
    place. *)
Theorem scoreDocument_scratch_only (text1 text2 : string) (ctx : Context) :
  let ctx1 := (scoreDocument text1 ctx).2 in
  (scoreDocument text2 ctx1).1 = (scoreDocument text2 ctx).1
  /\ queryNormalized ctx1 = queryNormalized ctx /\ queryNormLen ctx1 = queryNormLen ctx
  /\ queryWordStarts ctx1 = queryWordStarts ctx /\ queryWordEnds ctx1 = queryWordEnds ctx
  /\ queryWordCount ctx1 = queryWordCount ctx
  /\ candidates ctx1 = candidates ctx /\ candidateCount ctx1 = candidateCount ctx
  /\ candidateSet ctx1 = candidateSet ctx /\ candidateSetLen ctx1 = candidateSetLen ctx
  /\ length (docNormalized ctx1) = length (docNormalized ctx)
  /\ length (docWordStarts ctx1) = length (docWordStarts ctx)
  /\ length (docWordEnds ctx1) = length (docWordEnds ctx).
Proof.
  intros ctx1. destruct (scoreDocument_context text1 ctx) as (Hs & H1 & H2 & H3 & H4).
  fold ctx1 in Hs, H1, H2, H3, H4.
  split; [apply scoreDocument_query_only; by apply sameQuery_sym|].
  destruct Hs as (?&?&?&?&?&?&?&?). split_and!; done.
Qed.

Lemma searchDirectLoop_hits (q : Context) (data : list (string * string)) : forall ctx,
  sameQuery q ctx -> candidateCount ctx <= length (candidates ctx) ->
  let ctx' := searchDirectLoop data (hasLongWords q) ctx in
  liveCandidates ctx'
  = take (length (candidates ctx)) (liveCandidates ctx ++ directHits q data)
  /\ length (candidates ctx') = length (candidates ctx)
  /\ drop (candidateCount ctx') (candidates ctx')
     = drop (candidateCount ctx') (candidates ctx).
Proof.
  induction data as [|[id text] data IH]; intros ctx Hq Hlen; cbn [searchDirectLoop].
  { cbn [directHits flat_map]. rewrite app_nil_r. split; [|done].
    unfold liveCandidates. rewrite take_take. f_equal. lia. }
  cbn zeta.
  destruct (Nat.leb_spec (length (candidates ctx)) (candidateCount ctx)) as [Hfull|Hroom].
  { split; [|done]. rewrite take_app_le; [|unfold liveCandidates; rewrite length_take; lia].
    unfold liveCandidates. rewrite take_take. f_equal. lia. }
  assert (Hqn : queryNormLen ctx = queryNormLen q) by (by destruct Hq as (_&->&_)).
  cbn [directHits flat_map]. fold (directHits q data). rewrite Hqn.
  destruct (hasLongWords q && (String.length text <? queryNormLen q / 2)).
  { cbn [app]. by apply IH. }
  destruct (scoreDocument_context text ctx) as (Hs & Hc & Hn & _ & _).
  pose proof (scoreDocument_query_only text q ctx Hq) as Hscore.
  destruct (scoreDocument text ctx) as [score ctx1]. cbn [fst snd] in *.
  rewrite Hscore.
  assert (Hq1 : sameQuery q ctx1) by eauto using sameQuery_trans.
  assert (Hlive : liveCandidates ctx1 = liveCandidates ctx).
  { unfold liveCandidates. by rewrite Hc, Hn. }
  destruct (Float32.ltb Float32.zero score).
  - specialize (IH (pushCandidate ctx1 id text score)).
    destruct IH as (I1 & I2 & I3).
    { destruct Hq1 as (?&?&?&?&?&?&?&?). unfold sameQuery. simpl. split_and!; done. }
    { simpl. rewrite length_insert, Hc, Hn. lia. }
    rewrite pushCandidate_live in I1 by (rewrite Hc, Hn; lia).
    cbn [pushCandidate setCandidates candidates] in I1, I2, I3.
    rewrite length_insert, Hc in I1, I2.
    split_and!; [|done|].
    + rewrite I1, Hlive, <- app_assoc. done.
    + rewrite I3.
      set (n' := candidateCount (searchDirectLoop data (hasLongWords q)
                                   (pushCandidate ctx1 id text score))).
      assert (Hn' : S (candidateCount ctx) <= n').
      { assert (Hll : length (liveCandidates ctx1) = candidateCount ctx).
        { rewrite Hlive. unfold liveCandidates. rewrite length_take. lia. }
        assert (HL : length (liveCandidates (searchDirectLoop data (hasLongWords q)
                                 (pushCandidate ctx1 id text score))) <= n').
        { unfold liveCandidates. rewrite length_take. fold n'. lia. }
        rewrite I1, length_take, !length_app, Hll in HL. simpl in HL. lia. }
      rewrite Hc, Hn. by rewrite drop_insert_lt by lia.
  - destruct (IH ctx1 Hq1 ltac:(rewrite Hc, Hn; lia)) as (I1 & I2 & I3).
    rewrite Hc in I1, I2, I3. rewrite Hlive in I1. cbn [app]. done.
Qed.

Lemma searchDirect_live (data : list (string * string)) (ctx : Context) :
  candidateCount ctx = 0 ->
  let ctx' := searchDirect data ctx in
  liveCandidates ctx' = take (length (candidates ctx)) (directHits ctx data)
  /\ candidateCount ctx' = Nat.min (length (candidates ctx)) (length (directHits ctx data))
  /\ length (candidates ctx') = length (candidates ctx)
  /\ drop (candidateCount ctx') (candidates ctx')
     = drop (candidateCount ctx') (candidates ctx).
Proof.
  intros H0 ctx'. subst ctx'. unfold searchDirect.
  destruct (searchDirectLoop_hits ctx data ctx (sameQuery_refl ctx) ltac:(lia))
    as (H1 & H2 & H3).
  assert (Hl : liveCandidates ctx = []) by (unfold liveCandidates; by rewrite H0).
  rewrite Hl in H1. cbn [app] in H1.
  split_and!; [done| |done..].
  pose proof (searchDirectLoop_inv (fun _ _ => True) ctx (hasLongWords ctx) data ctx
                ltac:(done)) as Hinv.
  destruct Hinv as (_ & Hle & _).
  { split_and!; [apply sameQuery_refl|lia|rewrite Hl; constructor]. }
  pose proof (f_equal length H1) as Hlen. unfold liveCandidates in Hlen.
  rewrite !length_take, H2 in Hlen. rewrite H2 in Hle. lia.
Qed.

(** X13: from an empty candidate array, [searchDirect] leaves as
    candidates the documents of the corpus that pass the length filter
    and score above zero, each with that score, in the order of the
    corpus, up to the capacity of the array; it stops at the capacity
    and changes no cell past the last candidate. *)
Theorem searchDirect_hits (data : list (string * string)) (ctx : Context) :
  candidateCount ctx = 0 ->
  let ctx' := searchDirect data ctx in
  liveCandidates ctx' = take (length (candidates ctx)) (directHits ctx data)
  /\ candidateCount ctx' = Nat.min (length (candidates ctx)) (length (directHits ctx data))
  /\ length (candidates ctx') = length (candidates ctx)
  /\ drop (candidateCount ctx') (candidates ctx')
     = drop (candidateCount ctx') (candidates ctx).
Proof. apply searchDirect_live. Qed.

(** ** The results of a ranked search *)

Lemma map_lookup_total_seq {A B} `{!Inhabited A} (f : A -> B) (l : list A) (n : nat) :
  n <= length l -> map (fun i => f (l !!! i)) (seq 0 n) = f <$> take n l.
Proof.
  intros Hn. apply list_eq. intros i.
  change (map (fun i => f (l !!! i)) (seq 0 n)) with ((fun i => f (l !!! i)) <$> seq 0 n).
  rewrite !list_lookup_fmap.
  destruct (decide (i < n)) as [Hi|Hi].
  - rewrite lookup_seq_lt, lookup_take_lt by done. simpl.
    by rewrite list_lookup_lookup_total_lt by lia.
  - rewrite lookup_seq_ge, lookup_take_ge by lia. done.
Qed.

Lemma convertToResultsOneAlloc_take ctx maxResults :
  candidateCount ctx <= length (candidates ctx) -> (0 <= maxResults)%Z ->
  convertToResultsOneAlloc ctx maxResults
  = Some (toResult <$> take (Z.to_nat maxResults) (liveCandidates ctx)).
Proof.
  intros Hlen Hm. unfold convertToResultsOneAlloc, liveCandidates.
  set (limit := Z.min _ _). rewrite take_take.
  replace (Z.to_nat maxResults `min` candidateCount ctx) with (Z.to_nat limit) by lia.
  destruct (Z.eqb_spec limit 0) as [->|H0]; [done|].
  destruct (Z.ltb_spec limit 0) as [?|_]; [lia|].
  by rewrite map_lookup_total_seq by lia.
Qed.

Lemma convertToResultsZeroAlloc_take ctx maxResults backing K :
  candidateCount ctx <= length (candidates ctx) -> (0 <= maxResults)%Z ->
  exists backing',
    convertToResultsZeroAlloc ctx maxResults backing K
    = Some (toResult <$> take (Nat.min (length (take K backing)) (Z.to_nat maxResults))
                              (liveCandidates ctx), backing').
Proof.
  intros Hlen Hm. unfold convertToResultsZeroAlloc.
  set (rb := take K backing). set (limit0 := Z.min _ _).
  set (limit := if (Z.of_nat (length rb) <? limit0)%Z then Z.of_nat (length rb) else limit0).
  assert (Hlim : Z.to_nat limit
                 = Nat.min (Nat.min (length rb) (Z.to_nat maxResults)) (candidateCount ctx)
                   /\ (0 <= limit)%Z).
  { subst limit limit0. destruct (Z.ltb_spec (Z.of_nat (length rb))
                                   (Z.min (Z.of_nat (candidateCount ctx)) maxResults)); lia. }
  destruct Hlim as [Hlim Hpos].
  unfold liveCandidates. rewrite take_take, <- Hlim.
  destruct (Z.eqb_spec limit 0) as [E|H0].
  { exists backing. by rewrite E. }
  rewrite (copyResults_seq ctx (Z.to_nat limit) 0 rb) by lia.
  destruct (Z.ltb_spec limit 0) as [?|_]; [lia|].
  eexists. f_equal. f_equal. rewrite take_0, app_nil_l.
  rewrite take_app_length' by (by rewrite length_map, length_seq).
  apply map_lookup_total_seq. lia.
Qed.

Lemma rankedSearch_searched rs ctx data query useCache :
  (rankedSearch rs ctx data query useCache).2
  = sortCandidates (searched rs ctx data query useCache)
  /\ (rankedSearch rs ctx data query useCache).1
     = if useCache then (searchWithCache rs data (prepareQuery query ctx)).1 else rs.
Proof.
  unfold rankedSearch, searched. destruct useCache; [|done].
  by destruct (searchWithCache rs data (prepareQuery query ctx)).
Qed.

Lemma searched_inv rs ctx data query useCache :
  candidateCount ctx = 0 ->
  searchInv (fun _ _ => True) (prepareQuery query ctx) (searched rs ctx data query useCache).
Proof.
  intros Hzero. unfold searched. set (q := prepareQuery query ctx). destruct useCache.
  - unfold searchWithCache. cbn [snd].
    eapply searchInv_known; [|apply scoreCandidates_inv]; [done|].
    apply setOnly_sameQuery, findCandidates_setOnly.
  - unfold searchDirect. apply searchDirectLoop_inv; [done|].
    destruct (prepareQuery_candidates query ctx) as [Hc Hn]. fold q in Hc, Hn.
    split_and!; [apply sameQuery_refl|lia|].
    unfold liveCandidates. rewrite Hn, Hzero. constructor.
Qed.

Lemma ranked_live rs ctx data query useCache :
  candidateCount ctx = 0 ->
  let c0 := searched rs ctx data query useCache in
  let c1 := (rankedSearch rs ctx data query useCache).2 in
  candidateCount c1 <= length (candidates c1)
  /\ liveCandidates c1 ≡ₚ liveCandidates c0
  /\ StronglySorted rankedNoLater (liveCandidates c1).
Proof.
  intros Hzero c0 c1.
  destruct (searched_inv rs ctx data query useCache Hzero) as (_ & Hlen & Hall).
  fold c0 in Hlen, Hall.
  assert (Hv : Forall validScore (liveCandidates c0)).
  { eapply Forall_impl; [exact Hall|]. intros c (_ & _ & Hp). by apply positiveScore_valid. }
  assert (E : c1 = sortCandidates c0) by apply rankedSearch_searched.
  destruct (sortCandidates_sortsPrefix c0 Hlen Hv) as (Hn & Hp & Hd & Hs).
  rewrite <- E in Hn, Hp, Hd, Hs. unfold liveCandidates. rewrite Hn.
  split_and!; [|done..].
  pose proof (Permutation_length Hp) as Hp'. pose proof (f_equal length Hd) as Hd'.
  rewrite !length_take in Hp'. rewrite !length_drop in Hd'. lia.
Qed.

Lemma directHits_nil_query (ctx : Context) (data : list (string * string)) :
  queryWordCount ctx = 0 -> directHits ctx data = [].
Proof.
  intros H0. unfold directHits. induction data as [|[id text] data IH]; [done|].
  cbn [flat_map]. rewrite IH, app_nil_r.
  destruct (_ && _); [done|]. unfold scoreDocument. rewrite H0, orb_true_r. done.
Qed.

Lemma prepareQuery_empty (ctx : Context) : queryWordCount (prepareQuery "" ctx) = 0.
Proof. unfold prepareQuery, normalizeText. simpl. reflexivity. Qed.

Lemma resultNoLater_fmap (l : list Candidate) :
  StronglySorted rankedNoLater l -> StronglySorted resultNoLater (toResult <$> l).
Proof.
  induction 1 as [|x l Hs IH Hx]; [constructor|]. cbn [fmap list_fmap].
  constructor; [exact IH|]. apply Forall_fmap. exact Hx.
Qed.

Lemma strongly_sorted_take {A} (R : relation A) (l : list A) (n : nat) :
  StronglySorted R l -> StronglySorted R (take n l).
Proof.
  intros Hs. rewrite <- (take_drop n l) in Hs. by apply StronglySorted_app in Hs as (_ & ? & _).
Qed.

(** X14: [QuickSearch] returns the best [maxResults] hits of the direct
    search: the hits (see [directHits]; at most as many as the candidate
    array holds) are put in ranking order, score descending and
    identifier ascending among equal scores, and the first [maxResults]
    of them are returned.  The guards on the cap, the corpus and the
    query return what the search itself would.  The engine is not
    touched. *)
Theorem QuickSearch_top_hits (rs : RuntimeSearch) (ctx : Context)
    (data : list (string * string)) (query : string) (maxResults : Z) :
  candidateCount ctx = 0 ->
  exists ranked,
    ranked ≡ₚ take (length (candidates ctx)) (directHits (prepareQuery query ctx) data)
    /\ StronglySorted rankedNoLater ranked
    /\ QuickSearch rs ctx data query maxResults
       = (rs, Some (toResult <$> take (Z.to_nat maxResults) ranked)).
Proof.
  intros Hzero.
  destruct (ranked_live rs ctx data query false Hzero) as (Hlen & Hperm & Hsort).
  destruct (prepareQuery_candidates query ctx) as [Hc Hn].
  destruct (searchDirect_live data (prepareQuery query ctx) ltac:(lia)) as (Hhits & _).
  rewrite Hc in Hhits. cbv zeta in Hlen, Hperm, Hsort. unfold searched in Hperm.
  rewrite Hhits in Hperm.
  exists (liveCandidates (rankedSearch rs ctx data query false).2).
  split; [done|]. split; [done|].
  set (ranked := liveCandidates _) in *.
  unfold QuickSearch.
  destruct (Z.leb_spec maxResults 0) as [Hm|Hm]; cbn [orb].
  { by replace (Z.to_nat maxResults) with 0 by lia. }
  destruct (Nat.eqb_spec (length data) 0) as [Hd|Hd]; cbn [orb].
  { apply nil_length_inv in Hd. subst data.
    cbn [directHits flat_map] in Hperm. rewrite take_nil in Hperm.
    apply Permutation_nil_r in Hperm. rewrite Hperm. by rewrite take_nil. }
  destruct (Nat.eqb_spec (String.length query) 0) as [Hq|Hq].
  { destruct query; [|done].
    rewrite directHits_nil_query, take_nil in Hperm by apply prepareQuery_empty.
    apply Permutation_nil_r in Hperm. rewrite Hperm. by rewrite take_nil. }
  unfold performSearchOneAlloc.
  pose proof (rankedSearch_searched rs ctx data query false) as [_ Hrs].
  destruct (rankedSearch rs ctx data query false) as [rs' ctx']. cbn [fst snd] in *.
  subst rs'. f_equal. apply convertToResultsOneAlloc_take; [done|lia].
Qed.

Lemma directHits_ids (q : Context) (data : list (string * string)) :
  candID <$> directHits q data `sublist_of` data.*1.
Proof.
  unfold directHits. induction data as [|[id text] data IH]; [done|].
  cbn [flat_map fmap list_fmap fst]. rewrite fmap_app.
  repeat case_match; cbn [fmap list_fmap app candID].
  - by apply sublist_cons.
  - by apply sublist_skip.
  - by apply sublist_cons.
Qed.

Lemma pushCandidate_set ctx id text score :
  candidateSet (pushCandidate ctx id text score) = candidateSet ctx
  /\ candidateSetLen (pushCandidate ctx id text score) = candidateSetLen ctx.
Proof. done. Qed.

Lemma scoreCandidatesLoop_ids rs idxs : forall ctx,
  candidateCount ctx <= length (candidates ctx) ->
  exists l,
    candID <$> liveCandidates (scoreCandidatesLoop rs idxs ctx)
    = (candID <$> liveCandidates ctx) ++ l
    /\ l `sublist_of` ((candidateSet ctx !!!.) <$> idxs).
Proof.
  induction idxs as [|i idxs IH]; intros ctx Hlen; cbn [scoreCandidatesLoop].
  { exists []. by rewrite app_nil_r. }
  destruct (Nat.ltb_spec (candidateCount ctx) (length (candidates ctx))) as [Hroom|Hfull].
  2:{ exists []. rewrite app_nil_r. split; [done|apply sublist_nil_l]. }
  cbn [fmap list_fmap].
  destruct (cachedData rs ≫= (.!! (candidateSet ctx !!! i))) as [text|].
  2:{ destruct (IH ctx Hlen) as (l & E & Hs). exists l. split; [done|by apply sublist_cons]. }
  destruct (scoreDocument_context text ctx) as (_ & Hc & Hn & Hset & _).
  destruct (scoreDocument text ctx) as [score ctx1]. cbn [fst snd] in *.
  assert (Hlive : liveCandidates ctx1 = liveCandidates ctx).
  { unfold liveCandidates. by rewrite Hc, Hn. }
  destruct (Float32.ltb Float32.zero score).
  - destruct (IH (pushCandidate ctx1 (candidateSet ctx !!! i) text score)) as (l & E & Hs).
    { simpl. rewrite length_insert, Hc, Hn. lia. }
    rewrite pushCandidate_live in E by (rewrite Hc, Hn; lia).
    exists (candidateSet ctx !!! i :: l). split.
    + rewrite E, Hlive, fmap_app, <- app_assoc. done.
    + apply sublist_skip. cbn [pushCandidate setCandidates candidateSet] in Hs.
      by rewrite Hset in Hs.
  - destruct (IH ctx1 ltac:(rewrite Hc, Hn; lia)) as (l & E & Hs).
    exists l. rewrite E, Hlive. rewrite Hset in Hs. split; [done|by apply sublist_cons].
Qed.

Lemma scoreCandidatesLoop_length rs idxs : forall ctx,
  length (candidates (scoreCandidatesLoop rs idxs ctx)) = length (candidates ctx).
Proof.
  induction idxs as [|i idxs IH]; intros ctx; cbn [scoreCandidatesLoop]; [done|].
  destruct (_ <? _); [|done].
  destruct (cachedData rs ≫= (.!! (candidateSet ctx !!! i))) as [text|]; [|apply IH].
  destruct (scoreDocument_context text ctx) as (_ & Hc & _).
  destruct (scoreDocument text ctx) as [score ctx1]. cbn [fst snd] in *.
  destruct (Float32.ltb Float32.zero score); rewrite IH; [|by rewrite Hc].
  simpl. by rewrite length_insert, Hc.
Qed.

Lemma sorted_ids_NoDup (l : list string) : StronglySorted idLt l -> NoDup l.
Proof.
  induction 1 as [|x l Hs IH Hx]; constructor; [|done].
  intros Hin. rewrite Forall_forall in Hx. by apply (idLt_irrefl x), Hx.
Qed.

Lemma lookup_total_seq_take {A} `{!Inhabited A} (l : list A) (n : nat) :
  n <= length l -> (l !!!.) <$> seq 0 n = take n l.
Proof.
  intros Hn. rewrite <- (list_fmap_id (take n l)).
  apply (map_lookup_total_seq id l n Hn).
Qed.

Lemma searched_ids_NoDup rs ctx data query useCache :
  NoDup data.*1 -> candidateCount ctx = 0 ->
  NoDup (candID <$> liveCandidates (searched rs ctx data query useCache)).
Proof.
  intros Hnd Hzero. unfold searched. destruct useCache.
  - unfold searchWithCache. cbn [snd]. set (rs1 := if needsRebuild rs data then buildIndex rs data else rs).
    set (c := findCandidates rs1 (prepareQuery query ctx)).
    pose proof (findCandidates_sorted rs1 (prepareQuery query ctx)) as [Hsl Hss]. fold c in Hsl, Hss.
    unfold scoreCandidates.
    destruct (scoreCandidatesLoop_ids rs1 (seq 0 (candidateSetLen c))
                (setCandidates c (candidates c) 0) ltac:(simpl; lia)) as (l & E & Hs).
    cbn [setCandidates candidateSetLen] in *. rewrite E.
    unfold liveCandidates at 1. cbn [candidateCount candidates]. rewrite take_0.
    cbn [fmap list_fmap app].
    eapply sublist_NoDup; [|exact Hs]. cbn [candidateSet].
    rewrite lookup_total_seq_take by done. by apply sorted_ids_NoDup.
  - destruct (prepareQuery_candidates query ctx) as [Hc Hn].
    destruct (searchDirect_live data (prepareQuery query ctx) ltac:(lia)) as (Hhits & _).
    rewrite Hhits, fmap_take.
    eapply sublist_NoDup; [exact Hnd|].
    etrans; [apply sublist_take|apply directHits_ids].
Qed.

Lemma performSearchOneAlloc_live rs ctx data query maxResults useCache :
  candidateCount ctx = 0 -> (0 <= maxResults)%Z ->
  performSearchOneAlloc rs ctx data query maxResults useCache
  = ((rankedSearch rs ctx data query useCache).1,
     Some (toResult <$> take (Z.to_nat maxResults)
                             (liveCandidates (rankedSearch rs ctx data query useCache).2))).
Proof.
  intros Hzero Hm. unfold performSearchOneAlloc.
  destruct (ranked_live rs ctx data query useCache Hzero) as (Hlen & _).
  destruct (rankedSearch rs ctx data query useCache) as [rs' ctx']. cbn [fst snd] in *.
  f_equal. by apply convertToResultsOneAlloc_take.
Qed.

Lemma performSearchZeroAlloc_live rs ctx data query maxResults useCache backing K :
  candidateCount ctx = 0 -> (0 <= maxResults)%Z ->
  exists backing',
    performSearchZeroAlloc rs ctx data query maxResults useCache backing K
    = ((rankedSearch rs ctx data query useCache).1,
       Some (toResult <$> take (Nat.min (length (take K backing)) (Z.to_nat maxResults))
                               (liveCandidates (rankedSearch rs ctx data query useCache).2),
             backing')).
Proof.
  intros Hzero Hm. unfold performSearchZeroAlloc.
  destruct (ranked_live rs ctx data query useCache Hzero) as (Hlen & _).
  destruct (rankedSearch rs ctx data query useCache) as [rs' ctx']. cbn [fst snd] in *.
  destruct (convertToResultsZeroAlloc_take ctx' maxResults backing K Hlen Hm) as [b' E].
  exists b'. by rewrite E.
Qed.

Lemma everyResult_live (P : list SearchResult -> Prop) rs ctx data query maxResults backing K :
  candidateCount ctx = 0 ->
  (forall live k, rankedLive rs ctx data query live -> P (toResult <$> take k live)) ->
  everyResult P rs ctx data query maxResults backing K.
Proof.
  intros Hzero HP.
  assert (Hnil : P []).
  { apply (HP [] 0). by left. }
  assert (Hone : forall uc, (0 <= maxResults)%Z ->
            exists res, (performSearchOneAlloc rs ctx data query maxResults uc).2 = Some res
                        /\ P res).
  { intros uc Hm. rewrite performSearchOneAlloc_live by done. eexists. split; [done|].
    apply HP. right. by exists uc. }
  assert (Hzero' : forall uc,
            exists view backing',
              (performSearchZeroAlloc rs ctx data query (Z.of_nat (length (take K backing)))
                 uc backing K).2 = Some (view, backing') /\ P view).
  { intros uc.
    destruct (performSearchZeroAlloc_live rs ctx data query
                (Z.of_nat (length (take K backing))) uc backing K Hzero ltac:(lia))
      as [b' E].
    rewrite E. eexists _, _. split; [done|]. apply HP. right. by exists uc. }
  unfold everyResult, Search, QuickSearch, SearchInto, QuickSearchInto. split_and!.
  - destruct (Z.leb_spec maxResults 0); cbn [orb]; [by exists []|].
    destruct (_ || _); [by exists []|]. case_match; apply Hone; lia.
  - destruct (Z.leb_spec maxResults 0); cbn [orb]; [by exists []|].
    destruct (_ || _); [by exists []|]. apply Hone; lia.
  - destruct (_ || _); [by exists [], backing|]. case_match; apply Hzero'.
  - destruct (_ || _); [by exists [], backing|]. apply Hzero'.
Qed.

Lemma rankedLive_facts rs ctx data query live :
  candidateCount ctx = 0 -> rankedLive rs ctx data query live ->
  StronglySorted rankedNoLater live
  /\ length live <= length (candidates ctx)
  /\ (NoDup data.*1 -> NoDup (candID <$> live)).
Proof.
  intros Hzero [->|[uc ->]].
  { split_and!; [constructor|simpl; lia|constructor]. }
  destruct (ranked_live rs ctx data query uc Hzero) as (Hlen & Hperm & Hsort).
  split_and!; [done| |].
  - rewrite Hperm.
    destruct (searched_inv rs ctx data query uc Hzero) as (Hq & Hl & _).
    unfold liveCandidates. rewrite length_take.
    assert (Hc : length (candidates (searched rs ctx data query uc)) = length (candidates ctx)).
    { destruct (prepareQuery_candidates query ctx) as [Hc _]. rewrite <- Hc.
      unfold searched. destruct uc.
      - unfold searchWithCache. cbn [snd].
        set (rs1 := if needsRebuild rs data then buildIndex rs data else rs).
        destruct (findCandidates_setOnly rs1 (prepareQuery query ctx)) as (s & n & E).
        rewrite E. unfold scoreCandidates. by rewrite scoreCandidatesLoop_length.
      - by destruct (searchDirect_live data (prepareQuery query ctx)
                       ltac:(destruct (prepareQuery_candidates query ctx); lia))
          as (_ & _ & ? & _). }
    lia.
  - intros Hnd. rewrite Hperm. by apply searched_ids_NoDup.
Qed.

(** X15: what each of the four entry points returns is in ranking
    order, score descending and identifier ascending among equal
    scores, and holds no more entries than the candidate array of the
    context has cells (1024 in the Go type), whatever the cap. *)
Theorem results_in_ranking_order (rs : RuntimeSearch) (ctx : Context)
    (data : list (string * string)) (query : string) (maxResults : Z)
    (backing : list SearchResult) (K : nat) :
  candidateCount ctx = 0 ->
  everyResult (fun res => StronglySorted resultNoLater res
                          /\ length res <= length (candidates ctx))
              rs ctx data query maxResults backing K.
Proof.
  intros Hzero. apply everyResult_live; [done|]. intros live k Hlive.
  destruct (rankedLive_facts rs ctx data query live Hzero Hlive) as (Hs & Hl & _).
  split.
  - apply resultNoLater_fmap. by apply strongly_sorted_take.
  - rewrite length_fmap, length_take. lia.
Qed.

(** X16: on a corpus whose identifiers are pairwise distinct, as the
    keys of a map are, no entry point returns an identifier twice. *)
Theorem results_without_repeats (rs : RuntimeSearch) (ctx : Context)
    (data : list (string * string)) (query : string) (maxResults : Z)
    (backing : list SearchResult) (K : nat) :
  NoDup data.*1 -> candidateCount ctx = 0 ->
  everyResult (fun res => NoDup (ID <$> res)) rs ctx data query maxResults backing K.
Proof.
  intros Hnd Hzero. apply everyResult_live; [done|]. intros live k Hlive.
  destruct (rankedLive_facts rs ctx data query live Hzero Hlive) as (_ & _ & Hd).
  rewrite <- list_fmap_compose.
  change (ID ∘ toResult) with candID.
  rewrite fmap_take. eapply sublist_NoDup; [apply Hd, Hnd|apply sublist_take].
Qed.


(** ** The cache *)







(** ** What findCandidates finds *)

Lemma liveSet_length ctx : candidateSetSorted ctx -> length (liveSet ctx) = candidateSetLen ctx.
Proof. intros [H _]. unfold liveSet. rewrite length_take. lia. Qed.

Lemma liveSet_NoDup ctx : candidateSetSorted ctx -> NoDup (liveSet ctx).
Proof. intros [_ H]. by apply sorted_ids_NoDup. Qed.

Lemma indexStep_refl rs ctx : candidateSetSorted ctx -> indexStep rs ctx ctx.
Proof. intros H. split_and!; auto using setOnly_refl. Qed.

Lemma indexStep_trans rs c1 c2 c3 : indexStep rs c1 c2 -> indexStep rs c2 c3 -> indexStep rs c1 c3.
Proof.
  intros (A1 & A2 & A3 & A4 & A5 & A6) (B1 & B2 & B3 & B4 & B5 & B6).
  split_and!; [by eapply setOnly_trans|done|congruence|lia|auto|].
  intros x Hx. destruct (B6 x Hx) as [H|H]; [auto|by right].
Qed.

Lemma addToCandidateSet_step rs ctx docIDs :
  candidateSetSorted ctx -> Forall (fromIndex rs) docIDs ->
  indexStep rs ctx (addToCandidateSet docIDs ctx)
  /\ (candidateSetLen (addToCandidateSet docIDs ctx)
      < length (candidateSet (addToCandidateSet docIDs ctx)) ->
      forall x, x ∈ docIDs -> x ∈ liveSet (addToCandidateSet docIDs ctx)).
Proof.
  intros Hs Hidx. destruct (addToCandidateSet_spec docIDs ctx Hs) as (H1 & H2 & H3 & H4 & H5).
  split; [|exact H5]. split_and!; [apply addToCandidateSet_setOnly|done..| |done|].
  - rewrite <- (liveSet_length ctx), <- (liveSet_length (addToCandidateSet docIDs ctx)) by done.
    apply submseteq_length, NoDup_submseteq; [by apply liveSet_NoDup|done].
  - intros x Hx. destruct (H3 x Hx) as [H|H]; [by left|right].
    rewrite Forall_forall in Hidx. by apply Hidx.
Qed.

Lemma postings_lookup (m : gmap string (list string)) key ids x :
  m !! key = Some ids -> x ∈ ids -> x ∈ postings m key.
Proof. intros E Hx. unfold postings. by rewrite E. Qed.

Lemma words_fromIndex rs key ids :
  cachedWordMap rs !! key = Some ids -> Forall (fromIndex rs) ids.
Proof.
  intros E. apply Forall_forall. intros x Hx. exists key. left. by eapply postings_lookup.
Qed.

Lemma trigrams_fromIndex rs key ids :
  cachedTrigrams rs !! key = Some ids -> Forall (fromIndex rs) ids.
Proof.
  intros E. apply Forall_forall. intros x Hx. exists key. right. by eapply postings_lookup.
Qed.

Lemma prefixScan_step rs words start end_ : forall ctx,
  (forall w ids, (w, ids) ∈ words -> cachedWordMap rs !! w = Some ids) ->
  candidateSetSorted ctx -> indexStep rs ctx (prefixScan words start end_ ctx).
Proof.
  induction words as [|[word docIDs] words IH]; intros ctx Hw Hs; cbn [prefixScan].
  { by apply indexStep_refl. }
  cbn zeta.
  assert (Hadd : indexStep rs ctx (addToCandidateSet docIDs ctx)).
  { apply addToCandidateSet_step; [done|]. eapply words_fromIndex, Hw. by left. }
  assert (Hw' : forall w ids, (w, ids) ∈ words -> cachedWordMap rs !! w = Some ids).
  { intros. apply Hw. by right. }
  repeat case_match;
    try (eapply indexStep_trans; [exact Hadd|]; apply IH; [done|apply Hadd]);
    by apply IH.
Qed.

Lemma setOnly_queryWord ctx ctx' i : setOnly ctx ctx' -> queryWord ctx' i = queryWord ctx i.
Proof. by intros (s & n & ->). Qed.

Lemma addWordMatches_step rs rarest qs : forall ctx,
  candidateSetSorted ctx ->
  let ctx' := addWordMatches rs rarest qs ctx in
  indexStep rs ctx ctx'
  /\ (candidateSetLen ctx' < length (candidateSet ctx') ->
      forall i ids, i ∈ qs -> queryWord ctx i <> rarest ->
        cachedWordMap rs !! queryWord ctx i = Some ids ->
        forall x, x ∈ ids -> x ∈ liveSet ctx').
Proof.
  induction qs as [|i qs IH]; intros ctx Hs; cbn [addWordMatches].
  { split; [by apply indexStep_refl|]. intros _ i ids Hi. by apply elem_of_nil in Hi. }
  cbn zeta. destruct (String.eqb_spec (queryWord ctx i) rarest) as [Heq|Hne].
  { destruct (IH ctx Hs) as [I1 I2]. split; [done|].
    intros Hroom j ids [->|Hj]%elem_of_cons Hjr; [done|]. by apply I2. }
  set (c1 := match cachedWordMap rs !! queryWord ctx i with
             | Some docIDs => addToCandidateSet docIDs ctx
             | None => ctx
             end).
  assert (H1 : indexStep rs ctx c1
               /\ (candidateSetLen c1 < length (candidateSet c1) ->
                   forall ids, cachedWordMap rs !! queryWord ctx i = Some ids ->
                   forall x, x ∈ ids -> x ∈ liveSet c1)).
  { subst c1. destruct (cachedWordMap rs !! queryWord ctx i) as [docIDs|] eqn:E.
    - destruct (addToCandidateSet_step rs ctx docIDs Hs (words_fromIndex _ _ _ E)) as [A B].
      split; [done|]. intros Hroom ids [= <-]. by apply B.
    - split; [by apply indexStep_refl|]. by intros _ ids. }
  destruct H1 as [H1 H1c].
  set (c2 := prefixScan _ _ _ c1).
  assert (H2 : indexStep rs c1 c2).
  { apply prefixScan_step; [|apply H1]. intros w ids. apply elem_of_map_to_list. }
  destruct (IH c2 ltac:(apply H2)) as [I1 I2].
  assert (H12 : indexStep rs ctx c2) by (by eapply indexStep_trans).
  split; [by eapply indexStep_trans|].
  intros Hroom j ids [->|Hj]%elem_of_cons Hjr Hlook x Hx.
  - destruct I1 as (_ & _ & L3 & L4 & L5 & _), H2 as (_ & _ & M3 & M4 & M5 & _).
    apply L5, M5. apply (H1c ltac:(lia) ids Hlook x Hx).
  - apply (I2 Hroom j ids Hj); [| |done].
    + by rewrite (setOnly_queryWord ctx c2) by apply H12.
    + by rewrite (setOnly_queryWord ctx c2) by apply H12.
Qed.

Lemma trigramFallback_step rs offs : forall ctx,
  candidateSetSorted ctx -> indexStep rs ctx (trigramFallback rs offs ctx).
Proof.
  induction offs as [|i offs IH]; intros ctx Hs; cbn [trigramFallback].
  { by apply indexStep_refl. }
  cbn zeta. destruct (cachedTrigrams rs !! _) as [docIDs|] eqn:E; [|by apply IH].
  destruct (addToCandidateSet_step rs ctx docIDs Hs (trigrams_fromIndex _ _ _ E)) as [A _].
  case_match; [done|]. eapply indexStep_trans; [exact A|]. apply IH, A.
Qed.

Lemma findCandidates_step rs ctx :
  let c0 := setCandidateSet ctx (candidateSet ctx) 0 in
  indexStep rs c0 (findCandidates rs ctx)
  /\ (candidateSetLen (findCandidates rs ctx) < length (candidateSet (findCandidates rs ctx)) ->
      forall i ids, i < queryWordCount ctx -> queryWord ctx i <> EmptyString ->
        cachedWordMap rs !! queryWord ctx i = Some ids ->
        forall x, x ∈ ids -> x ∈ liveSet (findCandidates rs ctx)).
Proof.
  intros c0. unfold findCandidates. fold c0.
  assert (H0 : candidateSetSorted c0) by (split; simpl; [lia|constructor]).
  change (queryWordCount c0) with (queryWordCount ctx).
  set (rarest := findRarest rs c0 _ _ _).
  set (c1 := if negb (String.eqb rarest EmptyString)
             then match cachedWordMap rs !! rarest with
                  | Some docIDs => addToCandidateSet docIDs c0
                  | None => c0
                  end
             else c0).
  assert (H1 : indexStep rs c0 c1
               /\ (candidateSetLen c1 < length (candidateSet c1) ->
                   rarest <> EmptyString ->
                   forall ids, cachedWordMap rs !! rarest = Some ids ->
                   forall x, x ∈ ids -> x ∈ liveSet c1)).
  { subst c1. destruct (String.eqb_spec rarest EmptyString) as [E|E]; cbn [negb].
    { split; [by apply indexStep_refl|]. by intros _ ?. }
    destruct (cachedWordMap rs !! rarest) as [docIDs|] eqn:El.
    - destruct (addToCandidateSet_step rs c0 docIDs H0 (words_fromIndex _ _ _ El)) as [A B].
      split; [done|]. intros Hroom _ ids [= <-]. by apply B.
    - split; [by apply indexStep_refl|]. by intros _ _ ids. }
  destruct H1 as [H1 H1c].
  assert (Hq1 : queryWordCount c1 = queryWordCount ctx /\ queryNormLen c1 = queryNormLen ctx).
  { destruct H1 as ((s & n & E) & _). by rewrite E. }
  destruct Hq1 as [Hq1 Hq1'].
  destruct (addWordMatches_step rs rarest (seq 0 (queryWordCount c1)) c1 ltac:(apply H1))
    as [H2 H2c].
  set (c2 := addWordMatches rs rarest (seq 0 (queryWordCount c1)) c1) in *.
  assert (H02 : indexStep rs c0 c2) by (by eapply indexStep_trans).
  set (c3 := if (candidateSetLen c2 =? 0) && (3 <=? queryNormLen c2)
                && (queryNormLen c2 <=? 100)
             then trigramFallback rs (rangeStep (S (queryNormLen c2)) 0
                                                (queryNormLen c2 - 3) 2) c2
             else c2).
  assert (H3 : indexStep rs c2 c3).
  { subst c3. destruct (_ && _); [|apply indexStep_refl, H2].
    apply trigramFallback_step, H2. }
  split; [by eapply indexStep_trans|].
  intros Hroom i ids Hi Hne Hlook x Hx.
  destruct H3 as (_ & _ & L3 & L4 & L5 & _), H2 as (_ & _ & M3 & M4 & M5 & _).
  apply L5. destruct (decide (queryWord ctx i = rarest)) as [Heq|Hneq].
  - apply M5. apply (H1c ltac:(lia) ltac:(congruence) ids); [by rewrite <- Heq|done].
  - assert (Hqw : queryWord c1 i = queryWord ctx i).
    { rewrite (setOnly_queryWord c0 c1) by apply H1. done. }
    apply (H2c ltac:(lia) i ids); [apply elem_of_seq; lia|by rewrite Hqw..|done].
Qed.

Lemma queryWord_nonempty ctx i :
  queryReady ctx -> i < queryWordCount ctx -> queryWord ctx i <> EmptyString.
Proof.
  intros (Hn & _ & Hv) Hi. specialize (Hv i Hi). unfold queryWord, unsafeBytesToString.
  intros E. apply (f_equal String.length) in E. simpl in E.
  assert (Hl : forall l, String.length (string_of_list_ascii l) = length l).
  { clear. induction l; simpl; congruence. }
  rewrite Hl, length_slice in E by lia. lia.
Qed.

(** *** The index holds identifiers of the corpus only *)

Lemma appendPosting_within (S : list string) m key d :
  d ∈ S -> (forall w x, x ∈ postings m w -> x ∈ S) ->
  forall w x, x ∈ postings (appendPosting m key d) w -> x ∈ S.
Proof.
  intros Hd Hm w x. rewrite postings_appendPosting. case_decide as Hw; [|apply Hm].
  intros [Hx|Hx%list_elem_of_singleton]%elem_of_app; [by eapply Hm|by subst].
Qed.

Lemma indexWords_within (S : list string) buf n ws we idxs d : forall m,
  d ∈ S -> (forall w x, x ∈ postings m w -> x ∈ S) ->
  forall w x, x ∈ postings (indexWords buf n ws we idxs d m) w -> x ∈ S.
Proof.
  induction idxs as [|i idxs IH]; intros m Hd Hm; cbn [indexWords]; [done|].
  cbn zeta. apply IH; [done|]. case_match; [|done]. by apply appendPosting_within.
Qed.

Lemma indexTrigrams_within (S : list string) buf offs d : forall m,
  d ∈ S -> (forall w x, x ∈ postings m w -> x ∈ S) ->
  forall w x, x ∈ postings (indexTrigrams buf offs d m) w -> x ∈ S.
Proof.
  induction offs as [|i offs IH]; intros m Hd Hm; cbn [indexTrigrams]; [done|].
  apply IH; [done|]. by apply appendPosting_within.
Qed.

Lemma buildIndexLoop_within (S : list string) data : forall rs,
  (forall d, d ∈ data.*1 -> d ∈ S) ->
  (forall x, fromIndex rs x -> x ∈ S) ->
  forall x, fromIndex (buildIndexLoop data rs) x -> x ∈ S.
Proof.
  induction data as [|[d text] data IH]; intros rs Hd Hrs; cbn [buildIndexLoop]; [done|].
  apply IH; [intros; apply Hd; by right|].
  assert (HdS : d ∈ S) by (apply Hd; by left).
  intros x [key Hx]. unfold indexDocument in Hx.
  destruct (normalizeText text (indexBuffer rs)) as [buf n].
  destruct (splitWords _ _ _) as [[ws we] wc].
  cbn [cachedWordMap cachedTrigrams] in Hx. destruct Hx as [Hx|Hx].
  - eapply indexWords_within; [exact HdS| |exact Hx].
    intros w y Hy. apply Hrs. exists w. by left.
  - destruct (3 <=? n).
    + eapply indexTrigrams_within; [exact HdS| |exact Hx].
      intros w y Hy. apply Hrs. exists w. by right.
    + apply Hrs. exists key. by right.
Qed.

(** X19: after [buildIndex] every identifier in a posting list of the
    word index or of the trigram index is an identifier of the corpus,
    and [findCandidates], which changes nothing but the candidate set,
    puts into the set only identifiers it reads in posting lists.  So
    the candidates found in a rebuilt index are documents of the
    corpus. *)
Theorem candidates_come_from_index (rs : RuntimeSearch) (data : list (string * string))
    (ctx : Context) :
  (forall x, fromIndex (buildIndex rs data) x -> x ∈ data.*1)
  /\ setOnly ctx (findCandidates rs ctx)
  /\ (forall x, x ∈ liveSet (findCandidates rs ctx) -> fromIndex rs x)
  /\ (forall x, x ∈ liveSet (findCandidates (buildIndex rs data) ctx) -> x ∈ data.*1).
Proof.
  assert (H1 : forall x, fromIndex (buildIndex rs data) x -> x ∈ data.*1).
  { unfold buildIndex. apply buildIndexLoop_within; [done|].
    intros x [key [H|H]]; cbn [cachedWordMap cachedTrigrams] in H;
      unfold postings in H; rewrite lookup_empty in H; by apply elem_of_nil in H. }
  assert (H2 : forall rs x, x ∈ liveSet (findCandidates rs ctx) -> fromIndex rs x).
  { intros rs' x Hx. destruct (findCandidates_step rs' ctx) as [(_ & _ & _ & _ & _ & H) _].
    destruct (H x Hx) as [Hn|?]; [|done]. unfold liveSet in Hn. simpl in Hn.
    by apply elem_of_nil in Hn. }
  split_and!; [done|apply findCandidates_setOnly|apply H2|].
  intros x Hx. by apply H1, H2.
Qed.

(** X20: in a context prepared by [prepareQuery], [findCandidates]
    puts into the candidate set every document listed in the word index
    under a word of the query, unless the set fills up. *)
Theorem findCandidates_exact_words (rs : RuntimeSearch) (query : string) (ctx0 : Context)
    (i : nat) (ids : list string) :
  let q := prepareQuery query ctx0 in
  let c := findCandidates rs q in
  i < queryWordCount q ->
  cachedWordMap rs !! queryWord q i = Some ids ->
  candidateSetLen c < length (candidateSet c) ->
  forall x, x ∈ ids -> x ∈ liveSet c.
Proof.
  intros q c Hi Hlook Hroom x Hx.
  destruct (findCandidates_step rs q) as [_ H].
  apply (H Hroom i ids Hi); [|done..].
  apply queryWord_nonempty; [|done]. apply prepareQuery_ready.
Qed.

(** ** The cached search, candidate by candidate *)

Lemma scoreCandidatesLoop_hits (rs : RuntimeSearch) (q : Context) (idxs : list nat) :
  forall ctx,
  sameQuery q ctx -> candidateCount ctx <= length (candidates ctx) ->
  liveCandidates (scoreCandidatesLoop rs idxs ctx)
  = take (length (candidates ctx))
         (liveCandidates ctx ++ cachedHits rs q ((candidateSet ctx !!!.) <$> idxs)).
Proof.
  induction idxs as [|i idxs IH]; intros ctx Hq Hlen; cbn [scoreCandidatesLoop].
  { cbn [fmap list_fmap cachedHits flat_map]. rewrite app_nil_r.
    unfold liveCandidates. rewrite take_take. f_equal. lia. }
  destruct (Nat.ltb_spec (candidateCount ctx) (length (candidates ctx))) as [Hroom|Hfull].
  2:{ rewrite take_app_le; [|unfold liveCandidates; rewrite length_take; lia].
      unfold liveCandidates. rewrite take_take. f_equal. lia. }
  cbn [fmap list_fmap cachedHits flat_map].
  fold (cachedHits rs q ((candidateSet ctx !!!.) <$> idxs)).
  destruct (cachedData rs ≫= (.!! (candidateSet ctx !!! i))) as [text|].
  2:{ cbn [app]. by apply IH. }
  destruct (scoreDocument_context text ctx) as (Hs & Hc & Hn & Hset & _).
  pose proof (scoreDocument_query_only text q ctx Hq) as Hscore.
  destruct (scoreDocument text ctx) as [score ctx1]. cbn [fst snd] in *.
  rewrite Hscore.
  assert (Hq1 : sameQuery q ctx1) by eauto using sameQuery_trans.
  assert (Hlive : liveCandidates ctx1 = liveCandidates ctx).
  { unfold liveCandidates. by rewrite Hc, Hn. }
  destruct (Float32.ltb Float32.zero score).
  - rewrite IH.
    + rewrite pushCandidate_live by (rewrite Hc, Hn; lia).
      cbn [pushCandidate setCandidates candidates candidateSet].
      by rewrite length_insert, Hc, Hlive, Hset, <- app_assoc.
    + destruct Hq1 as (?&?&?&?&?&?&?&?). unfold sameQuery. simpl. split_and!; done.
    + simpl. rewrite length_insert, Hc, Hn. lia.
  - rewrite IH by (done || rewrite Hc, Hn; lia). by rewrite Hc, Hlive, Hset.
Qed.

Lemma scoreCandidates_live rs ctx :
  candidateSetLen ctx <= length (candidateSet ctx) ->
  liveCandidates (scoreCandidates rs ctx)
  = take (length (candidates ctx)) (cachedHits rs ctx (liveSet ctx)).
Proof.
  intros Hset. unfold scoreCandidates.
  rewrite (scoreCandidatesLoop_hits rs ctx).
  - cbn [setCandidates candidates candidateSet candidateSetLen].
    unfold liveCandidates at 1. cbn [setCandidates candidates candidateCount].
    rewrite take_0. cbn [app]. by rewrite lookup_total_seq_take.
  - unfold sameQuery. simpl. split_and!; done.
  - simpl. lia.
Qed.

(** X21: [scoreCandidates] empties the candidate array and then leaves
    in it, in the order of the candidate set and up to the capacity of
    the array, the identifiers of the set that the cache holds a text
    for and that [scoreDocument] scores above zero, each with its
    cached text and that score. *)
Theorem scoreCandidates_hits (rs : RuntimeSearch) (ctx : Context) :
  candidateSetLen ctx <= length (candidateSet ctx) ->
  liveCandidates (scoreCandidates rs ctx)
  = take (length (candidates ctx)) (cachedHits rs ctx (liveSet ctx)).
Proof. apply scoreCandidates_live. Qed.

(** X22: the cached search returns the best [maxResults] of the hits
    among the candidates that [findCandidates] reads off the index,
    rebuilt first when [needsRebuild] says so: the hits (see
    [cachedHits]; at most as many as the candidate array holds) are put
    in ranking order and the first [maxResults] of them are
    returned. *)
Theorem cached_search_top_hits (rs : RuntimeSearch) (ctx : Context)
    (data : list (string * string)) (query : string) (maxResults : Z) :
  candidateCount ctx = 0 -> (0 <= maxResults)%Z ->
  let q := prepareQuery query ctx in
  let rs1 := if needsRebuild rs data then buildIndex rs data else rs in
  exists ranked,
    ranked ≡ₚ take (length (candidates ctx))
                   (cachedHits rs1 q (liveSet (findCandidates rs1 q)))
    /\ StronglySorted rankedNoLater ranked
    /\ performSearchOneAlloc rs ctx data query maxResults true
       = (rs1, Some (toResult <$> take (Z.to_nat maxResults) ranked)).
Proof.
  intros Hzero Hm q rs1.
  destruct (ranked_live rs ctx data query true Hzero) as (Hlen & Hperm & Hsort).
  cbv zeta in Hlen, Hperm, Hsort.
  exists (liveCandidates (rankedSearch rs ctx data query true).2).
  split_and!; [|done|].
  - rewrite Hperm. unfold searched, searchWithCache. cbn [snd]. fold q rs1.
    pose proof (findCandidates_sorted rs1 q) as [Hsl _].
    rewrite scoreCandidates_live by done.
    destruct (findCandidates_setOnly rs1 q) as (s & n & E).
    destruct (prepareQuery_candidates query ctx) as [Hc _]. fold q in Hc.
    assert (Hcand : candidates (findCandidates rs1 q) = candidates ctx) by (by rewrite E).
    rewrite Hcand.
    assert (Hsame : sameQuery (findCandidates rs1 q) q).
    { apply sameQuery_sym, setOnly_sameQuery, findCandidates_setOnly. }
    assert (Hhits : forall ids, cachedHits rs1 (findCandidates rs1 q) ids = cachedHits rs1 q ids).
    { intros ids. unfold cachedHits. induction ids as [|id ids IH]; [done|].
      cbn [flat_map]. rewrite IH. f_equal.
      destruct (cachedData rs1 ≫= (.!! id)) as [text|]; [|done].
      by rewrite (scoreDocument_query_only text _ _ Hsame). }
    by rewrite Hhits.
  - rewrite performSearchOneAlloc_live by done.
    pose proof (rankedSearch_searched rs ctx data query true) as [_ Hrs].
    rewrite Hrs. reflexivity.
Qed.

(** ** Sorting a range of the candidate array *)

(** X23: [insertionSort(ctx, left, right)] puts the cells [left] to
    [right] in ranking order (higher score first, smaller identifier
    first among equal scores) and leaves every cell outside the range
    as it was. *)
Theorem insertionSort_sorts_range (pre : list Candidate) (x : Candidate)
    (mid post : list Candidate) :
  Forall validScore (x :: mid) ->
  exists mid',
    insertionSort (pre ++ (x :: mid) ++ post) (length pre) (length pre + length mid)
      = pre ++ mid' ++ post
    /\ mid' ≡ₚ x :: mid /\ StronglySorted rankedNoLater mid'.
Proof.
  intros Hv. exists (sortedInsertions [x] mid).
  apply Forall_cons in Hv as [Hx Hm].
  split; [apply insertionSort_spec|]. split; [apply sortedInsertions_perm|].
  apply sorted_rankedNoLater.
  - rewrite sortedInsertions_perm. by constructor.
  - apply sortedInsertions_sorted; [by constructor|done|]. repeat constructor.
Qed.

(** X24: [quickSort(ctx, low, high)] puts the cells [low] to [high]
    in ranking order and leaves every cell outside the range as it
    was; the recursion ends, its depth is at most the number of cells
    in the range. *)
Theorem quickSort_sorts_range (fuel : nat) (pre mid post : list Candidate) :
  Forall validScore mid -> length mid <= fuel ->
  exists mid',
    quickSort fuel (pre ++ mid ++ post) (Z.of_nat (length pre))
              (Z.of_nat (length pre + length mid) - 1)
      = pre ++ mid' ++ post
    /\ mid' ≡ₚ mid /\ StronglySorted rankedNoLater mid'.
Proof.
  intros Hv Hf.
  destruct (quickSort_spec fuel mid pre post Hf Hv) as (mid' & E & Hp & Hs).
  exists mid'. split; [done|]. split; [done|].
  apply sorted_rankedNoLater; [by rewrite Hp|done].
Qed.

Lemma partition3Way_pivot pre mid post :
  mid <> [] -> Forall validScore mid ->
  exists L E G,
    partition3Way (pre ++ mid ++ post) (length pre) (length pre + length mid - 1)
      = (pre ++ (L ++ E ++ G) ++ post, length pre + length L,
         length pre + length L + length E - 1)
    /\ E <> [] /\ L ++ E ++ G ≡ₚ mid
    /\ Forall (fun x => before x (mid !!! 0)) L /\ Forall (fun x => tied x (mid !!! 0)) E
    /\ Forall (before (mid !!! 0)) G.
Proof.
  intros Hne Hv.
  assert (Hlen : 0 < length mid) by (destruct mid; simpl; [done|lia]).
  set (a := pre ++ mid ++ post).
  set (high := length pre + length mid - 1). set (low := length pre).
  assert (Hla : length a = length pre + length mid + length post).
  { subst a. rewrite !length_app. lia. }
  assert (Hpiv : a !!! low = mid !!! 0).
  { subst a low. rewrite lookup_total_middle_part by lia. f_equal. lia. }
  destruct (partition3Way_spec a low high) as
    (a' & lt & gt & Heq & Hperm & Hframe & Hb1 & Hb2 & Hvp & Hz1 & Hz2 & Hz3).
  { subst low high. lia. }
  { subst low high. lia. }
  { intros k Hk. subst a low high. rewrite lookup_total_middle_part by lia.
    apply Forall_lookup_total_1; [done|lia]. }
  rewrite Hpiv in Hz1, Hz2, Hz3.
  assert (Hframe' : forall k, k < low \/ S high <= k -> a' !! k = a !! k).
  { intros k Hk. apply Hframe. lia. }
  destruct (perm_frame_split a a' low (S high) Hperm Hframe' ltac:(subst low high; lia))
    as (Ht & Hd & Hs).
  assert (Hta : take low a = pre) by (subst a low; apply take_app_length).
  assert (Hda : drop (S high) a = post).
  { subst a high low. rewrite app_assoc. apply drop_app_length'. rewrite length_app. lia. }
  assert (Hsa : slice a low (S high) = mid).
  { subst a high low. unfold slice. rewrite drop_app_length.
    apply take_app_length'. lia. }
  rewrite Hta in Ht. rewrite Hda in Hd. rewrite Hsa in Hs.
  set (M := slice a' low (S high)) in *.
  assert (Ha' : a' = pre ++ M ++ post).
  { rewrite (slice_split a' low (S high)) at 1 by (subst low high; lia).
    by rewrite Ht, Hd. }
  assert (HlM : length M = length mid) by (by rewrite Hs).
  assert (HM : forall k, k < length M -> M !!! k = a' !!! (low + k)).
  { intros k Hk. rewrite Ha'. subst low. rewrite lookup_total_middle_part by lia.
    f_equal. lia. }
  exists (take (lt - low) M), (slice M (lt - low) (S gt - low)), (drop (S gt - low) M).
  assert (HMsplit : take (lt - low) M ++ slice M (lt - low) (S gt - low)
                    ++ drop (S gt - low) M = M).
  { symmetry. apply slice_split. lia. }
  assert (HlE : length (slice M (lt - low) (S gt - low)) = S gt - lt).
  { rewrite length_slice; subst low high; lia. }
  split; [|split; [|split; [|split; [|split]]]].
  - rewrite Heq, HMsplit, <- Ha'. f_equal; [f_equal|].
    + rewrite length_take. subst low high. lia.
    + rewrite length_take, HlE. subst low high. lia.
  - intros HE. rewrite HE in HlE. simpl in HlE. lia.
  - by rewrite HMsplit.
  - replace (take (lt - low) M) with (slice M 0 (lt - low))
      by (unfold slice; by rewrite drop_0, Nat.sub_0_r).
    apply Forall_slice_lookup; [subst low high; lia|].
    intros k Hk. rewrite HM by (subst low high; lia). apply Hz1. lia.
  - apply Forall_slice_lookup; [subst low high; lia|].
    intros k Hk. rewrite HM by (subst low high; lia). apply Hz2. lia.
  - replace (drop (S gt - low) M) with (slice M (S gt - low) (length M)).
    2:{ unfold slice. apply take_ge. rewrite length_drop. lia. }
    apply Forall_slice_lookup; [lia|].
    intros k Hk. rewrite HM by lia. apply Hz3. subst low high. lia.
Qed.

Lemma tied_compare x p :
  validScore x -> validScore p -> tied x p -> compareCandidates x p = 0%Z.
Proof.
  intros Hx Hp Ht. unfold compareCandidates.
  pose proof (compare_pos x p Hx Hp) as P. pose proof (compare_neg x p Hx Hp) as N.
  destruct (compare_values (candScore x) (candID x) (candScore p) (candID p)) as [E|[E|E]];
    [|idtac|done].
  - exfalso. apply (before_irrefl p). apply (before_tied_l x p p Ht), P. lia.
  - exfalso. apply (before_irrefl p). apply (before_tied_r p x p Ht), N. lia.
Qed.

(** X25: [partition3Way(ctx, low, high)] takes the cell [low] as the
    pivot and rearranges the cells [low] to [high] into three bands:
    first the cells that [compareScoreAndID] ranks before the pivot,
    then those it ties with the pivot (at least the pivot itself), then
    those it ranks after; [lt] and [gt] are the first and the last cell
    of the middle band.  Cells outside the range are left as they
    were. *)
Theorem partition3Way_bands (pre : list Candidate) (p : Candidate)
    (mid post : list Candidate) :
  Forall validScore (p :: mid) ->
  exists L E G,
    partition3Way (pre ++ (p :: mid) ++ post) (length pre) (length pre + length mid)
      = (pre ++ (L ++ E ++ G) ++ post, length pre + length L,
         length pre + length L + length E - 1)
    /\ E <> [] /\ L ++ E ++ G ≡ₚ p :: mid
    /\ Forall (fun x => (0 < compareCandidates x p)%Z) L
    /\ Forall (fun x => compareCandidates x p = 0%Z) E
    /\ Forall (fun x => (compareCandidates x p < 0)%Z) G.
Proof.
  intros Hv.
  destruct (partition3Way_pivot pre (p :: mid) post ltac:(done) Hv)
    as (L & E & G & Heq & HE & Hperm & HL & HEt & HG).
  exists L, E, G.
  replace (length pre + length (p :: mid) - 1) with (length pre + length mid) in Heq
    by (simpl; lia).
  change ((p :: mid) !!! 0) with p in *.
  assert (Hall : Forall validScore (L ++ E ++ G)) by (by rewrite Hperm).
  apply Forall_app in Hall as [HvL Hall]. apply Forall_app in Hall as [HvE HvG].
  apply Forall_cons in Hv as [Hp _].
  rewrite Forall_forall in HvL, HvE, HvG, HL, HEt, HG.
  split_and!; [done|done|done|..]; apply Forall_forall; intros x Hx.
  - apply compare_pos; auto.
  - apply tied_compare; auto.
  - apply compare_neg; auto.
Qed.

(** ** The binary search of addToCandidateSet *)

(** X26: on a candidate set whose first [n] cells are strictly
    increasing, the binary search of [addToCandidateSet] ends at the
    insertion point of the identifier: every cell before it is smaller,
    no cell from it on is, and the identifier is among the [n] cells
    exactly when the cell at the insertion point holds it, which is the
    test that skips a duplicate. *)
Theorem lowerBound_insertion_point (set : list string) (docID : string) (n : nat) :
  n <= length set -> StronglySorted idLt (take n set) ->
  let pos := lowerBound n set docID 0 n in
  pos <= n
  /\ (forall k, k < pos -> String.ltb (set !!! k) docID = true)
  /\ (forall k, pos <= k < n -> String.ltb (set !!! k) docID = false)
  /\ (docID ∈ take n set <-> pos < n /\ set !!! pos = docID).
Proof.
  intros Hn Hs pos.
  destruct (lowerBound_spec set docID n Hn Hs n 0 n) as (Hp & Hlo & Hhi);
    [lia|lia|intros; lia|intros; lia|].
  fold pos in Hp, Hlo, Hhi.
  assert (Hord : forall i j, i < j -> j < n -> idLt (set !!! i) (set !!! j)).
  { intros i j Hij Hj.
    rewrite <- (lookup_total_take_lt set n i), <- (lookup_total_take_lt set n j) by lia.
    apply sorted_lookup; [done|done|]. rewrite length_take. lia. }
  split_and!; [done|exact Hlo| |].
  - intros k Hk. specialize (Hhi k Hk). unfold idLt in Hhi.
    by destruct (String.ltb (set !!! k) docID).
  - split.
    + intros (j & Hj)%list_elem_of_lookup_1.
      pose proof (lookup_lt_Some _ _ _ Hj) as Hjn. rewrite length_take in Hjn.
      rewrite lookup_take_lt in Hj by lia.
      apply list_lookup_total_correct in Hj.
      destruct (decide (j < pos)) as [Hlt|Hge].
      { exfalso. apply (idLt_irrefl docID). rewrite <- Hj at 1. by apply Hlo. }
      destruct (decide (j = pos)) as [->|Hne]; [split; [lia|done]|].
      exfalso. apply (Hhi pos); [lia|]. rewrite <- Hj. apply Hord; lia.
    + intros [Hlt Heq]. apply list_elem_of_lookup_2 with pos.
      rewrite lookup_take_lt by lia. rewrite <- Heq.
      apply list_lookup_lookup_total_lt. lia.
Qed.

(** ** What the index holds *)

Lemma normalizeText_normalized text buffer :
  normalizeText text buffer
  = (writeAt buffer 0 (normalized (length buffer) text),
     length (normalized (length buffer) text))
  /\ length (normalized (length buffer) text) <= length buffer - 4.
Proof.
  unfold normalized.
  destruct (normalizeText_spec text buffer) as [E1 B1].
  destruct (normalizeText_spec text (replicate (length buffer) zero)) as [E2 B2].
  rewrite length_replicate in E2, B2. rewrite E1, E2, take_writeAt0. done.
Qed.

Lemma wordSpans_complete (text : list ascii) (maxWords : nat) (p : nat * nat) :
  length (wordSpans text maxWords) < maxWords -> isWord text p ->
  p ∈ wordSpans text maxWords.
Proof.
  intros Hroom (Hp1 & Hp2 & Hp3 & Hp4).
  destruct (wordSpans_words text maxWords) as (W1 & _ & W3).
  destruct (W3 Hroom p.1) as (q & Hq & Hqk); [lia|apply Hp2; lia|].
  rewrite Forall_forall in W1. destruct (W1 q Hq) as (Hq1 & Hq2 & Hq3 & Hq4).
  assert (E1 : q.1 = p.1).
  { destruct (decide (q.1 = p.1)) as [?|Hne]; [done|]. exfalso.
    destruct Hp3 as [Hz|Hb]; [lia|]. rewrite Hq2 in Hb by lia. done. }
  assert (E2 : q.2 = p.2).
  { destruct (decide (q.2 = p.2)) as [?|Hne]; [done|]. exfalso.
    destruct (decide (q.2 < p.2)) as [Hlt|Hge].
    - destruct Hq4 as [Hz|Hb]; [lia|]. rewrite Hp2 in Hb by lia. done.
    - destruct Hp4 as [Hz|Hb]; [lia|]. rewrite Hq2 in Hb by lia. done. }
  destruct p, q. simpl in *. by subst.
Qed.

Lemma indexedWords_spans cap text key :
  key ∈ indexedWords cap text
  <-> exists p, p ∈ wordSpans (normalized cap text) (Z.to_nat 256)
                /\ key = keyAt (normalized cap text) p.1 p.2.
Proof.
  unfold indexedWords.
  destruct (normalizeText_normalized text (replicate cap zero)) as [E B].
  rewrite length_replicate in E, B. rewrite E, take_writeAt0.
  set (norm := normalized cap text) in *.
  destruct (splitWords_spec norm (replicate (Z.to_nat 256) 0) (replicate (Z.to_nat 256) 0))
    as (Es & Hc & Hv).
  rewrite !length_replicate, Nat.min_id in Es, Hc. rewrite Es.
  set (spans := wordSpans norm (Z.to_nat 256)) in *.
  rewrite spanKeys_view by done. unfold spanKeys.
  assert (Hfst : forall w, w < length spans ->
            writeAt (replicate (Z.to_nat 256) 0) 0 spans.*1 !!! w = (spans !!! w).1).
  { intros w Hw. rewrite writeAt0_lookup_total by (by rewrite length_fmap).
    by rewrite (list_lookup_total_fmap fst spans w). }
  assert (Hsnd : forall w, w < length spans ->
            writeAt (replicate (Z.to_nat 256) 0) 0 spans.*2 !!! w = (spans !!! w).2).
  { intros w Hw. rewrite writeAt0_lookup_total by (by rewrite length_fmap).
    by rewrite (list_lookup_total_fmap snd spans w). }
  rewrite Forall_forall in Hv.
  rewrite list_elem_of_In, in_flat_map. split.
  - intros (i & Hi & Hk). apply in_seq in Hi. rewrite Hfst, Hsnd in Hk by lia.
    destruct (_ && _); [|done]. destruct Hk as [<-|[]].
    exists (spans !!! i). split; [|done]. apply list_elem_of_lookup_total_2. lia.
  - intros (p & Hp & ->). destruct (Hv p Hp) as (_ & V1 & V2).
    apply list_elem_of_lookup_total_1 in Hp as (i & Hi & <-).
    exists i. split; [apply in_seq; lia|]. rewrite Hfst, Hsnd by done.
    destruct (Nat.ltb_spec (spans !!! i).1 (spans !!! i).2); [|lia].
    destruct (Nat.leb_spec (spans !!! i).2 (length norm)); [|lia].
    by left.
Qed.

Lemma occurrences_elem x l : x ∈ l <-> 0 < occurrences x l.
Proof. unfold occurrences. rewrite list_elem_of_In. apply count_occ_In. Qed.

Lemma indexedWordCount_spans norm :
  indexedWordCount norm = length (wordSpans norm (Z.to_nat 256)).
Proof.
  unfold indexedWordCount.
  destruct (splitWords_spec norm (replicate (Z.to_nat 256) 0) (replicate (Z.to_nat 256) 0))
    as (Es & _). rewrite !length_replicate, Nat.min_id in Es. by rewrite Es.
Qed.

(** X27: after [buildIndex] on a corpus without repeated identifiers,
    the word index lists a document under whole words of its normalised
    text only (maximal runs of bytes that are not word boundaries), and,
    when the text has fewer words than the 256 the span arrays hold,
    under every one of them. *)
Theorem word_index_holds_words (rs : RuntimeSearch) (data : list (string * string))
    (docID text : string) :
  NoDup data.*1 -> (docID, text) ∈ data ->
  let norm := normalized (length (indexBuffer rs)) text in
  let listed key := docID ∈ postings (cachedWordMap (buildIndex rs data)) key in
  (forall key, listed key -> exists p, isWord norm p /\ key = keyAt norm p.1 p.2)
  /\ (indexedWordCount norm < 256 ->
      forall p, isWord norm p -> listed (keyAt norm p.1 p.2)).
Proof.
  intros Hnd Hin norm listed.
  assert (Hiff : forall key, listed key <-> key ∈ indexedWords (length (indexBuffer rs)) text).
  { intros key. unfold listed. rewrite !occurrences_elem.
    unfold buildIndex. rewrite buildIndexLoop_postings by done. cbn [cachedWordMap indexBuffer].
    rewrite (elem_of_list_to_map_1 data docID text) by done.
    unfold postings at 1. rewrite lookup_empty. done. }
  split.
  - intros key Hk. apply Hiff, indexedWords_spans in Hk as (p & Hp & ->).
    exists p. split; [|done].
    destruct (wordSpans_words norm (Z.to_nat 256)) as (W1 & _).
    rewrite Forall_forall in W1. by apply W1.
  - intros Hroom p Hp. apply Hiff, indexedWords_spans. exists p. split; [|done].
    apply wordSpans_complete; [|done]. rewrite <- indexedWordCount_spans.
    exact Hroom.
Qed.

(** *** The trigram index *)

Lemma rangeStep_le fuel : forall i hi step x,
  x ∈ rangeStep fuel i hi step -> x <= hi.
Proof.
  induction fuel as [|fuel IH]; intros i hi step x H; cbn [rangeStep] in H.
  { by apply elem_of_nil in H. }
  destruct (Nat.leb_spec i hi); [|by apply elem_of_nil in H].
  apply elem_of_cons in H as [->|H]; [done|]. by eapply IH.
Qed.

Lemma rangeStep_multiple k : forall fuel i hi step,
  k < fuel -> i + k * step <= hi -> i + k * step ∈ rangeStep fuel i hi step.
Proof.
  induction k as [|k IH]; intros fuel i hi step Hf Hk;
    (destruct fuel as [|fuel]; [lia|]); cbn [rangeStep].
  - rewrite Nat.add_0_r in *. destruct (Nat.leb_spec i hi); [|lia]. by left.
  - destruct (Nat.leb_spec i hi); [|lia]. right.
    replace (i + S k * step) with ((i + step) + k * step) in * by lia.
    apply IH; lia.
Qed.

Lemma indexTrigrams_postings buf offs d : forall m w x,
  x ∈ postings (indexTrigrams buf offs d m) w
  <-> x ∈ postings m w
      \/ (x = d /\ exists i, i ∈ offs /\ w = string_of_list_ascii (slice buf i (i + 3))).
Proof.
  induction offs as [|i offs IH]; intros m w x; cbn [indexTrigrams].
  { split; [by left|]. intros [?|(_ & i & Hi & _)]; [done|]. by apply elem_of_nil in Hi. }
  rewrite IH, postings_appendPosting. split.
  - intros [H|(-> & j & Hj & ->)].
    + case_decide as Hw; [|by left].
      apply elem_of_app in H as [H|H%list_elem_of_singleton]; [by left|].
      right. split; [done|]. exists i. split; [by left|done].
    + right. split; [done|]. exists j. split; [by right|done].
  - intros [H|(-> & j & Hj & ->)].
    + left. case_decide; [|done]. apply elem_of_app. by left.
    + apply elem_of_cons in Hj as [->|Hj].
      * left. rewrite decide_True by done. apply elem_of_app. right. by left.
      * right. split; [done|]. by exists j.
Qed.

Lemma indexDocument_trigrams rs d text w x :
  let norm := normalized (length (indexBuffer rs)) text in
  x ∈ postings (cachedTrigrams (indexDocument rs d text)) w
  <-> x ∈ postings (cachedTrigrams rs) w
      \/ (x = d /\ exists i, sampled norm i /\ w = keyAt norm i (i + 3)).
Proof.
  intros norm. unfold indexDocument.
  destruct (normalizeText_normalized text (indexBuffer rs)) as [E B]. rewrite E.
  fold norm in B |- *.
  destruct (splitWords _ _ _) as [[ws we] wc]. cbn [cachedTrigrams].
  set (n := length norm) in *. set (stride := Nat.max 1 (n / 100)).
  assert (Hs : 1 <= stride) by (subst stride; lia).
  destruct (Nat.leb_spec 3 n) as [H3|H3].
  - rewrite indexTrigrams_postings. apply or_iff_compat_l, and_iff_compat_l.
    split.
    + intros (i & Hi & ->). pose proof (rangeStep_le _ _ _ _ _ Hi) as Hle.
      exists i. split; [|unfold keyAt; rewrite slice_writeAt0; [done|fold n; lia]].
      split; [fold n; lia|]. fold n stride.
      clear -Hi Hs. revert Hi. generalize (S n). intros fuel.
      assert (Hgen : forall fuel a, i ∈ rangeStep fuel a (n - 3) stride ->
                exists k, i = a + k * stride).
      { clear. induction fuel as [|fuel IH]; intros a H; cbn [rangeStep] in H.
        { by apply elem_of_nil in H. }
        destruct (a <=? n - 3); [|by apply elem_of_nil in H].
        apply elem_of_cons in H as [->|H]; [exists 0; lia|].
        apply IH in H as (k & ->). exists (S k). lia. }
      intros Hi. apply Hgen in Hi as (k & ->). exists k. lia.
    + intros (i & (Hi3 & k & Hk) & ->). fold n stride in Hi3, Hk. exists i. split.
      * rewrite Hk. change (k * stride) with (0 + k * stride).
        apply rangeStep_multiple; [|lia]. nia.
      * unfold keyAt. rewrite slice_writeAt0; [done|fold n; lia].
  - split; [by left|]. intros [?|(_ & i & (Hi3 & _) & _)]; [done|]. fold n in Hi3. lia.
Qed.

Lemma buildIndexLoop_trigrams data : forall rs w x,
  x ∈ postings (cachedTrigrams (buildIndexLoop data rs)) w
  <-> x ∈ postings (cachedTrigrams rs) w
      \/ exists text i, (x, text) ∈ data
           /\ sampled (normalized (length (indexBuffer rs)) text) i
           /\ w = keyAt (normalized (length (indexBuffer rs)) text) i (i + 3).
Proof.
  induction data as [|[d t] data IH]; intros rs w x; cbn [buildIndexLoop].
  { split; [by left|]. intros [?|(text & i & H & _)]; [done|]. by apply elem_of_nil in H. }
  destruct (indexDocument_words rs d t w) as [_ Hl].
  rewrite IH, Hl, indexDocument_trigrams. split.
  - intros [[H|(-> & i & Hs & ->)]|(text & i & Hin & Hs & ->)].
    + by left.
    + right. exists t, i. split; [by left|done].
    + right. exists text, i. split; [by right|done].
  - intros [H|(text & i & Hin & Hs & ->)]; [by left; left|].
    apply elem_of_cons in Hin as [Heq|Hin].
    + inversion Heq; subst. left. right. split; [done|]. by exists i.
    + right. by exists text, i.
Qed.

(** X28: after [buildIndex] the trigram index lists a document under a
    key exactly when the key is the three bytes at a sampled offset of
    the normalised text of a document with that identifier: the offsets
    are the multiples of the stride (a hundredth of the length of the
    normalised text, at least 1) that leave room for three bytes.  For a
    normalised text shorter than 200 bytes the stride is 1 and every
    three bytes in a row are a key. *)
Theorem trigram_index_holds_samples (rs : RuntimeSearch) (data : list (string * string))
    (docID key : string) :
  let cap := length (indexBuffer rs) in
  (docID ∈ postings (cachedTrigrams (buildIndex rs data)) key
   <-> exists text i, (docID, text) ∈ data
         /\ sampled (normalized cap text) i
         /\ key = keyAt (normalized cap text) i (i + 3))
  /\ (forall text tri, (docID, text) ∈ data ->
        length (normalized cap text) < 200 -> length tri = 3 ->
        occursIn tri (normalized cap text) ->
        docID ∈ postings (cachedTrigrams (buildIndex rs data)) (string_of_list_ascii tri)).
Proof.
  intros cap.
  assert (Hiff : docID ∈ postings (cachedTrigrams (buildIndex rs data)) key
   <-> exists text i, (docID, text) ∈ data
         /\ sampled (normalized cap text) i
         /\ key = keyAt (normalized cap text) i (i + 3)).
  { unfold buildIndex. rewrite buildIndexLoop_trigrams. cbn [cachedTrigrams indexBuffer].
    unfold postings at 1. rewrite lookup_empty. simpl. split; [|by right].
    intros [H|H]; [by apply elem_of_nil in H|done]. }
  split; [exact Hiff|].
  intros text tri Hin Hshort Hlen Hocc.
  unfold buildIndex. apply buildIndexLoop_trigrams. cbn [indexBuffer]. fold cap. right.
  apply occursIn_at in Hocc as (i & Hi & Htake). rewrite Hlen in Hi, Htake.
  exists text, i. split; [done|]. split.
  - split; [done|]. exists i.
    assert (Hq : length (normalized cap text) / 100 <= 1)
      by (assert (length (normalized cap text) / 100 < 2);
          [apply Nat.Div0.div_lt_upper_bound; lia|lia]).
    assert (Hst : Nat.max 1 (length (normalized cap text) / 100) = 1) by lia.
    rewrite Hst. lia.
  - unfold keyAt, slice. replace (i + 3 - i) with 3 by lia. by rewrite Htake.
Qed.

(** ** Case is ignored *)

Lemma string_length_bytes (text : string) :
  length (list_ascii_of_string text) = String.length text.
Proof. induction text; simpl; congruence. Qed.

Lemma sameUpToCase_length t1 t2 : sameUpToCase t1 t2 -> String.length t1 = String.length t2.
Proof.
  intros (_ & _ & H). apply (f_equal (@length _)) in H.
  by rewrite !length_map, !string_length_bytes in H.
Qed.

Lemma normalizeText_case t1 t2 buffer :
  sameUpToCase t1 t2 -> normalizeText t1 buffer = normalizeText t2 buffer.
Proof.
  intros (H1 & H2 & H).
  destruct (normalizeText_spec t1 buffer) as [E1 _].
  destruct (normalizeText_spec t2 buffer) as [E2 _].
  rewrite E1, E2.
  rewrite !normBytes_ascii by (done || rewrite string_length_bytes; lia).
  by rewrite <- !firstn_map, H.
Qed.



(** X30: [scoreDocument] ignores the case of the ASCII letters of the
    document: two ASCII texts that differ in case only get the same
    score for the query held in the context, and leave the context in
    the same state. *)
Theorem document_case_is_ignored (t1 t2 : string) (ctx : Context) :
  sameUpToCase t1 t2 -> scoreDocument t1 ctx = scoreDocument t2 ctx.
Proof.
  intros H. unfold scoreDocument.
  by rewrite (sameUpToCase_length t1 t2 H), (normalizeText_case t1 t2).
Qed.

(** * Instances on sample inputs *)

Local Open Scope string_scope.

(** C1, counterexample: the corpus of the one document [d] with text
    [abcd], queried for [xabc].  The direct path scores the document
    through [scoreSubstring] (one of the query's two trigrams, [abc],
    occurs in it: a third of 0.3, positive) and returns it.  The cached
    path finds no candidate: the index has no word [xabc] and no word of
    another length with a common prefix, and the trigram fallback, which
    takes every other trigram of the query, looks up [xab] only. *)
Lemma cached_path_skips_trigrams :
  (performSearchOneAlloc NewRuntimeSearch newContext [("d", "abcd")] "xabc" 10 false).2
  = Some [mkSearchResult "d" "abcd" (S754_finite false 13421774 (-27))]
  /\ (performSearchOneAlloc NewRuntimeSearch newContext [("d", "abcd")] "xabc" 10 true).2
     = Some [].
Proof. split; vm_compute; reflexivity. Qed.

(** The paths part on prefix matches as well.  On the sample corpus the
    query [Zeph] finds both documents on the direct path ([zephen] is a
    prefix match, score 1) and only [user2] on the cached path: the
    query's one word is the rarest word of the index, whose postings are
    taken and whose prefix scan is skipped. *)
Lemma cached_path_misses_prefix_match :
  (performSearchOneAlloc NewRuntimeSearch newContext sampleCorpus "Zeph" 2 false).2
  = Some [mkSearchResult "user2" "Zeph Blake fictional engineer" Float32.two;
          mkSearchResult "user1" "Zephen Blakewood fictional software architect"
                         Float32.one]
  /\ (performSearchOneAlloc NewRuntimeSearch newContext sampleCorpus "Zeph" 2 true).2
     = Some [mkSearchResult "user2" "Zeph Blake fictional engineer" Float32.two].
Proof. split; vm_compute; reflexivity. Qed.

(** Both paths on the sample corpus. *)
Lemma search_paths_score_alike_witness :
  exists direct cached,
    (performSearchOneAlloc NewRuntimeSearch newContext sampleCorpus "Zeph" 2 false).2
    = Some direct
    /\ (performSearchOneAlloc NewRuntimeSearch newContext sampleCorpus "Zeph" 2 true).2
       = Some cached
    /\ Forall (scoredResult sampleCorpus (prepareQuery "Zeph" newContext)) direct
    /\ Forall (scoredResult sampleCorpus (prepareQuery "Zeph" newContext)) cached
    /\ forall r1 r2, r1 ∈ direct -> r2 ∈ cached -> ID r1 = ID r2 -> r1 = r2.
Proof.
  apply (search_paths_score_alike NewRuntimeSearch newContext sampleCorpus "Zeph" 2).
  - apply (bool_decide_unpack _). vm_compute. exact I.
  - reflexivity.
  - intros id text H. discriminate H.
  - lia.
Defined.

(** Three candidates, two of them with the same score. *)
Lemma sortCandidates_ranking_witness :
  sortsPrefix 3 sampleCandidates
    (candidates (sortCandidates (setCandidates newContext sampleCandidates 3)))
  /\ candID <$> candidates (sortCandidates (setCandidates newContext sampleCandidates 3))
     = ["c"; "a"; "b"].
Proof.
  split; [|vm_compute; reflexivity].
  apply (sortCandidates_ranking (setCandidates newContext sampleCandidates 3)).
  - vm_compute. lia.
  - vm_compute. repeat constructor.
Defined.

(** The document [d] with text [a a], under the word [a]. *)
Lemma buildIndex_posting_multiplicity_witness :
  occurrences "d" (postings (cachedWordMap (buildIndex NewRuntimeSearch [("d", "a a")])) "a")
  = occurrences "a" (indexedWords (length (indexBuffer NewRuntimeSearch)) "a a").
Proof.
  apply (buildIndex_posting_multiplicity NewRuntimeSearch [("d", "a a")] "d" "a a" "a").
  - apply (bool_decide_unpack _). vm_compute. exact I.
  - left.
Defined.

(** C5, counterexample: a query of one space has no words; every one
    of its words has an exact match, vacuously; the score is 0, while
    the formula gives -1/2. *)
Lemma scoreDocument_no_query_words :
  queryWordCount (prepareQuery " " newContext) = 0
  /\ (forall i, i < queryWordCount (prepareQuery " " newContext) ->
      exists j, j < docWordCount (prepareDoc "a" (prepareQuery " " newContext))
                /\ exactWordMatch (prepareDoc "a" (prepareQuery " " newContext)) i j)
  /\ (scoreDocument "a" (prepareQuery " " newContext)).1 = Float32.zero
  /\ exactScore 0 = S754_finite true 8388608 (-24)
  /\ Float32.ltb (exactScore 0) Float32.zero = true.
Proof.
  assert (H : queryWordCount (prepareQuery " " newContext) = 0) by (vm_compute; reflexivity).
  split; [exact H|]. split; [intros i Hi; rewrite H in Hi; lia|].
  split_and!; vm_compute; reflexivity.
Qed.

(** Two query words, both in the document, in the other order. *)
Lemma scoreDocument_all_exact_witness :
  (scoreDocument "Zeph Blake" (prepareQuery "blake zeph" newContext)).1 = exactScore 2
  /\ exists q, toQ (exactScore 2) = Some q
       /\ Qeq q (2 * inject_Z (Z.of_nat 2) + (1 # 2) * (inject_Z (Z.of_nat 2) - 1)).
Proof.
  apply (scoreDocument_all_exact "blake zeph" "Zeph Blake" newContext).
  - vm_compute. repeat split.
  - vm_compute. lia.
  - intros i Hi.
    assert (Hc : i = 0 \/ i = 1) by (vm_compute in Hi; lia).
    destruct Hc as [-> | ->]; [exists 1|exists 0]; vm_compute; repeat split; lia.
Defined.

(** Three insertions into the empty set, one of them a repeat. *)
Lemma addToCandidateSet_sorted_witness :
  candidateSetSorted (addToCandidateSet ["b"; "a"; "b"] newContext)
  /\ take 2 (candidateSet (addToCandidateSet ["b"; "a"; "b"] newContext)) = ["a"; "b"]
  /\ candidateSetLen (addToCandidateSet ["b"; "a"; "b"] newContext) = 2.
Proof.
  split; [|split; vm_compute; reflexivity].
  apply (addToCandidateSet_sorted NewRuntimeSearch newContext ["b"; "a"; "b"] newContext).
  split; [vm_compute; lia|]. simpl. constructor.
Defined.

(** [Search] on the sample corpus. *)
Lemma results_have_positive_scores_witness :
  exists res, (Search NewRuntimeSearch newContext sampleCorpus "Zeph" 2).2 = Some res
              /\ Forall positiveResult res.
Proof.
  apply (results_have_positive_scores NewRuntimeSearch newContext sampleCorpus "Zeph" 2
           sampleBacking 3).
  reflexivity.
Defined.

(** A cap of zero, and an empty query. *)
Lemma entry_points_degenerate_inputs_witness :
  Search NewRuntimeSearch newContext sampleCorpus "Zeph" 0 = (NewRuntimeSearch, Some [])
  /\ QuickSearch NewRuntimeSearch newContext sampleCorpus "Zeph" 0
     = (NewRuntimeSearch, Some [])
  /\ SearchInto NewRuntimeSearch newContext sampleCorpus "" sampleBacking 3
     = (NewRuntimeSearch, Some ([], sampleBacking))
  /\ QuickSearchInto NewRuntimeSearch newContext sampleCorpus "" sampleBacking 3
     = (NewRuntimeSearch, Some ([], sampleBacking)).
Proof.
  apply (entry_points_degenerate_inputs NewRuntimeSearch newContext sampleCorpus "Zeph" 0
           sampleCorpus "" sampleBacking 3).
  - right. right. lia.
  - right. left. reflexivity.
Defined.

(** ** Instances for Part IV *)

(** The euro sign, three bytes. *)
Lemma encodeRune_decodeRune_witness :
  let '(buf', n) := Runes.encodeRune (replicate 4 zero) 0x20AC in
  Runes.decodeRune buf' = (foldRune 0x20AC, n)
  /\ (1 <= n <= 4)%nat
  /\ length buf' = length (replicate 4 zero)
  /\ drop n buf' = drop n (replicate 4 zero).
Proof.
  apply (encodeRune_decodeRune (replicate 4 zero) 0x20AC); [simpl; lia|lia].
Defined.

Lemma normalizeText_ascii_witness :
  let '(buffer', n) := normalizeText "Hello, World" (replicate 12 zero) in
  n = Nat.min (String.length "Hello, World") (length (replicate 12 zero) - 4)
  /\ take n buffer'
     = map lower (take (length (replicate 12 zero) - 4) (list_ascii_of_string "Hello, World")).
Proof.
  apply (normalizeText_ascii "Hello, World" (replicate 12 zero)).
  unfold isASCII. simpl. repeat (constructor; [reflexivity|]). constructor.
Defined.

Lemma compareScoreAndID_consistent_witness :
  compareScoreAndID Float32.two "a" Float32.one "b"
  = (- compareScoreAndID Float32.one "b" Float32.two "a")%Z.
Proof.
  pose proof (compareScoreAndID_consistent
                (mkCandidate "a" "" Float32.two) (mkCandidate "b" "" Float32.one)
                (mkCandidate "c" "" Float32.zero)
                ltac:(reflexivity) ltac:(reflexivity) ltac:(reflexivity)) as H.
  exact (proj1 H).
Defined.


(** A document in two spellings. *)
Lemma document_case_is_ignored_witness :
  scoreDocument "Zeph Blake" (prepareQuery "zeph" newContext)
  = scoreDocument "zEPH blAKE" (prepareQuery "zeph" newContext).
Proof.
  apply (document_case_is_ignored "Zeph Blake" "zEPH blAKE" (prepareQuery "zeph" newContext)).
  split; [|split; [|reflexivity]]; unfold isASCII; simpl;
    repeat (constructor; [reflexivity|]); constructor.
Defined.

(** Two texts that agree on their first seven bytes. *)
Lemma memEqual_compares_prefixes_witness :
  memEqual (list_ascii_of_string "search engine") (list_ascii_of_string "search index") 7 = true
  <-> take 7 (list_ascii_of_string "search engine")
      = take 7 (list_ascii_of_string "search index").
Proof.
  apply (memEqual_compares_prefixes (list_ascii_of_string "search engine")
           (list_ascii_of_string "search index") 7); simpl; lia.
Defined.

(** The direct search of the sample corpus. *)
Lemma searchDirect_hits_witness :
  liveCandidates (searchDirect sampleCorpus (prepareQuery "Zeph" newContext))
  = take (length (candidates (prepareQuery "Zeph" newContext)))
         (directHits (prepareQuery "Zeph" newContext) sampleCorpus)
  /\ candidateCount (searchDirect sampleCorpus (prepareQuery "Zeph" newContext))
     = Nat.min (length (candidates (prepareQuery "Zeph" newContext)))
               (length (directHits (prepareQuery "Zeph" newContext) sampleCorpus))
  /\ length (candidates (searchDirect sampleCorpus (prepareQuery "Zeph" newContext)))
     = length (candidates (prepareQuery "Zeph" newContext))
  /\ drop (candidateCount (searchDirect sampleCorpus (prepareQuery "Zeph" newContext)))
          (candidates (searchDirect sampleCorpus (prepareQuery "Zeph" newContext)))
     = drop (candidateCount (searchDirect sampleCorpus (prepareQuery "Zeph" newContext)))
            (candidates (prepareQuery "Zeph" newContext)).
Proof.
  apply (searchDirect_hits sampleCorpus (prepareQuery "Zeph" newContext)).
  vm_compute. reflexivity.
Defined.

Lemma QuickSearch_top_hits_witness :
  exists ranked,
    ranked ≡ₚ take (length (candidates newContext))
                   (directHits (prepareQuery "Zeph" newContext) sampleCorpus)
    /\ StronglySorted rankedNoLater ranked
    /\ QuickSearch NewRuntimeSearch newContext sampleCorpus "Zeph" 1
       = (NewRuntimeSearch, Some (toResult <$> take (Z.to_nat 1) ranked)).
Proof.
  apply (QuickSearch_top_hits NewRuntimeSearch newContext sampleCorpus "Zeph" 1).
  reflexivity.
Defined.

Lemma results_in_ranking_order_witness :
  everyResult (fun res => StronglySorted resultNoLater res
                          /\ length res <= length (candidates newContext))
              NewRuntimeSearch newContext sampleCorpus "Zeph" 2 sampleBacking 3.
Proof.
  apply (results_in_ranking_order NewRuntimeSearch newContext sampleCorpus "Zeph" 2
           sampleBacking 3).
  reflexivity.
Defined.

Lemma results_without_repeats_witness :
  everyResult (fun res => NoDup (ID <$> res))
              NewRuntimeSearch newContext sampleCorpus "Zeph" 2 sampleBacking 3.
Proof.
  apply (results_without_repeats NewRuntimeSearch newContext sampleCorpus "Zeph" 2
           sampleBacking 3).
  - apply (bool_decide_unpack _). vm_compute. exact I.
  - reflexivity.
Defined.



(** The word [zeph] of the query is a key of the word index. *)
Lemma findCandidates_exact_words_witness :
  "user2" ∈ liveSet (findCandidates (buildIndex NewRuntimeSearch sampleCorpus)
                                    (prepareQuery "Zeph" newContext)).
Proof.
  apply (findCandidates_exact_words (buildIndex NewRuntimeSearch sampleCorpus) "Zeph"
           newContext 0 ["user2"]).
  - vm_compute. lia.
  - vm_compute. reflexivity.
  - vm_compute. lia.
  - left.
Defined.

Lemma scoreCandidates_hits_witness :
  liveCandidates
    (scoreCandidates (buildIndex NewRuntimeSearch sampleCorpus)
       (findCandidates (buildIndex NewRuntimeSearch sampleCorpus)
                       (prepareQuery "Zeph" newContext)))
  = take (length (candidates (findCandidates (buildIndex NewRuntimeSearch sampleCorpus)
                                             (prepareQuery "Zeph" newContext))))
         (cachedHits (buildIndex NewRuntimeSearch sampleCorpus)
            (findCandidates (buildIndex NewRuntimeSearch sampleCorpus)
                            (prepareQuery "Zeph" newContext))
            (liveSet (findCandidates (buildIndex NewRuntimeSearch sampleCorpus)
                                     (prepareQuery "Zeph" newContext)))).
Proof.
  apply (scoreCandidates_hits (buildIndex NewRuntimeSearch sampleCorpus)
           (findCandidates (buildIndex NewRuntimeSearch sampleCorpus)
                           (prepareQuery "Zeph" newContext))).
  vm_compute. lia.
Defined.

Lemma cached_search_top_hits_witness :
  exists ranked,
    ranked ≡ₚ take (length (candidates newContext))
                   (cachedHits
                      (if needsRebuild NewRuntimeSearch sampleCorpus
                       then buildIndex NewRuntimeSearch sampleCorpus else NewRuntimeSearch)
                      (prepareQuery "Zeph" newContext)
                      (liveSet
                         (findCandidates
                            (if needsRebuild NewRuntimeSearch sampleCorpus
                             then buildIndex NewRuntimeSearch sampleCorpus
                             else NewRuntimeSearch)
                            (prepareQuery "Zeph" newContext))))
    /\ StronglySorted rankedNoLater ranked
    /\ performSearchOneAlloc NewRuntimeSearch newContext sampleCorpus "Zeph" 2 true
       = (if needsRebuild NewRuntimeSearch sampleCorpus
          then buildIndex NewRuntimeSearch sampleCorpus else NewRuntimeSearch,
          Some (toResult <$> take (Z.to_nat 2) ranked)).
Proof.
  apply (cached_search_top_hits NewRuntimeSearch newContext sampleCorpus "Zeph" 2).
  - reflexivity.
  - lia.
Defined.

(** The sample candidates, between two cells that stay. *)
Lemma insertionSort_sorts_range_witness :
  exists mid',
    insertionSort ((take 1 sampleCandidates ++ sampleCandidates ++ drop 2 sampleCandidates)%list)
                  1 3
    = (take 1 sampleCandidates ++ mid' ++ drop 2 sampleCandidates)%list
    /\ mid' ≡ₚ sampleCandidates /\ StronglySorted rankedNoLater mid'.
Proof.
  apply (insertionSort_sorts_range (take 1 sampleCandidates)
           (mkCandidate "b" "beta" Float32.one)
           [mkCandidate "c" "gamma" Float32.two; mkCandidate "a" "alpha" Float32.one]
           (drop 2 sampleCandidates)).
  repeat constructor.
Defined.

Lemma quickSort_sorts_range_witness :
  exists mid',
    quickSort 3 ((take 1 sampleCandidates ++ sampleCandidates ++ drop 2 sampleCandidates)%list)
              (Z.of_nat (length (take 1 sampleCandidates)))
              (Z.of_nat (length (take 1 sampleCandidates) + length sampleCandidates) - 1)
    = (take 1 sampleCandidates ++ mid' ++ drop 2 sampleCandidates)%list
    /\ mid' ≡ₚ sampleCandidates /\ StronglySorted rankedNoLater mid'.
Proof.
  apply (quickSort_sorts_range 3 (take 1 sampleCandidates) sampleCandidates
           (drop 2 sampleCandidates)).
  - repeat constructor.
  - simpl. lia.
Defined.

Lemma partition3Way_bands_witness :
  exists L E G,
    partition3Way ((take 1 sampleCandidates ++ sampleCandidates ++ drop 2 sampleCandidates)%list)
                  1 3
    = ((take 1 sampleCandidates ++ (L ++ E ++ G) ++ drop 2 sampleCandidates)%list,
       1 + length L, 1 + length L + length E - 1)
    /\ E <> [] /\ (L ++ E ++ G)%list ≡ₚ sampleCandidates
    /\ Forall (fun x => (0 < compareCandidates x (mkCandidate "b" "beta" Float32.one))%Z) L
    /\ Forall (fun x => compareCandidates x (mkCandidate "b" "beta" Float32.one) = 0%Z) E
    /\ Forall (fun x => (compareCandidates x (mkCandidate "b" "beta" Float32.one) < 0)%Z) G.
Proof.
  apply (partition3Way_bands (take 1 sampleCandidates)
           (mkCandidate "b" "beta" Float32.one)
           [mkCandidate "c" "gamma" Float32.two; mkCandidate "a" "alpha" Float32.one]
           (drop 2 sampleCandidates)).
  repeat constructor.
Defined.

(** A set of three identifiers in an array of four cells. *)
Lemma lowerBound_insertion_point_witness :
  lowerBound 3 ["a"; "c"; "e"; "b"] "d" 0 3 <= 3
  /\ (forall k, k < lowerBound 3 ["a"; "c"; "e"; "b"] "d" 0 3 ->
        String.ltb (["a"; "c"; "e"; "b"] !!! k) "d" = true)
  /\ (forall k, lowerBound 3 ["a"; "c"; "e"; "b"] "d" 0 3 <= k < 3 ->
        String.ltb (["a"; "c"; "e"; "b"] !!! k) "d" = false)
  /\ ("d" ∈ take 3 ["a"; "c"; "e"; "b"]
      <-> lowerBound 3 ["a"; "c"; "e"; "b"] "d" 0 3 < 3
          /\ ["a"; "c"; "e"; "b"] !!! lowerBound 3 ["a"; "c"; "e"; "b"] "d" 0 3 = "d").
Proof.
  apply (lowerBound_insertion_point ["a"; "c"; "e"; "b"] "d" 3).
  - simpl. lia.
  - simpl. repeat constructor.
Defined.

(** A corpus of one document of two words. *)
Lemma word_index_holds_words_witness :
  (forall key,
     "d" ∈ postings (cachedWordMap (buildIndex NewRuntimeSearch [("d", "Go maps")])) key ->
     exists p, isWord (normalized (length (indexBuffer NewRuntimeSearch)) "Go maps") p
               /\ key = keyAt (normalized (length (indexBuffer NewRuntimeSearch)) "Go maps")
                              p.1 p.2)
  /\ (indexedWordCount (normalized (length (indexBuffer NewRuntimeSearch)) "Go maps") < 256 ->
      forall p, isWord (normalized (length (indexBuffer NewRuntimeSearch)) "Go maps") p ->
        "d" ∈ postings (cachedWordMap (buildIndex NewRuntimeSearch [("d", "Go maps")]))
                       (keyAt (normalized (length (indexBuffer NewRuntimeSearch)) "Go maps")
                              p.1 p.2)).
Proof.
  apply (word_index_holds_words NewRuntimeSearch [("d", "Go maps")] "d" "Go maps").
  - apply (bool_decide_unpack _). vm_compute. exact I.
  - left.
Defined.
